(** * CLox: a shallow embedding of the hash table, the string pool, the
      virtual machine, the collector and the expression compiler.

    Conventions of the embedding.
    - A C [int], [uint8_t], [uint32_t] or [size_t] is a [Z]; where the code
      relies on wrap-around (the FNV-1a hash) the reduction is written out.
    - A pointer to a heap object is an [ObjRef] (an address); [NULL] is [None].
      The heap maps addresses to objects.  The object header's [type] tag is
      the constructor of the payload.
    - An intrusive singly linked list (the [next] fields of [vm.objects] and
      of [vm.open_upvalues]) is the list of the addresses it links, head
      first.
    - A pointer into the value stack is its index relative to [vm.stack];
      the stack memory is a map from indices to values, so that an index
      outside [0, STACK_MAX) can be told apart from one inside.
    - A loop that the C code does not bound ([for (;;)]) takes fuel; [None]
      stands for a loop that never returns.
    - [reallocate] may start a collection whenever memory grows.  The
      collector is the separate transition [collect_garbage]; the allocating
      operations below are the code between two such points. *)

From Stdlib Require Import ZArith Lia Bool List Sorted.
From Stdlib Require Import Floats.SpecFloat.
From Stdlib Require Strings.String Strings.Ascii.
Import String.StringSyntax.
Delimit Scope string_scope with string.
From stdpp Require Import base option list gmap.

Open Scope Z_scope.

(** ** value.h *)

Abbreviation ObjRef := nat (only parsing).

Inductive Value :=
| NIL_VALUE
| BOOL_VALUE (boolean : bool)
| NUMBER_VALUE (number : spec_float)
| OBJECT_VALUE (object : ObjRef).

Definition IS_NIL (value : Value) : bool :=
  match value with NIL_VALUE => true | _ => false end.
Definition IS_BOOL (value : Value) : bool :=
  match value with BOOL_VALUE _ => true | _ => false end.
Definition IS_NUMBER (value : Value) : bool :=
  match value with NUMBER_VALUE _ => true | _ => false end.
Definition IS_OBJECT (value : Value) : bool :=
  match value with OBJECT_VALUE _ => true | _ => false end.

(** [values_equal]: same variant, then the payloads; numbers by IEEE [==]. *)
Definition values_equal (a b : Value) : bool :=
  match a, b with
  | NIL_VALUE, NIL_VALUE => true
  | BOOL_VALUE x, BOOL_VALUE y => Bool.eqb x y
  | NUMBER_VALUE x, NUMBER_VALUE y => SFeqb x y
  | OBJECT_VALUE x, OBJECT_VALUE y => Nat.eqb x y
  | _, _ => false
  end.

(** ** memory.h *)

Definition GROW_CAPACITY (capacity : Z) : Z :=
  if capacity <? 8 then 8 else capacity * 2.

(** ** table.h / table.c *)

Record Entry := mkEntry { key : option ObjRef; value : Value }.

Record Table := mkTable { count : Z; capacity : Z; entries : list Entry }.

Definition entry_at (es : list Entry) (index : Z) : option Entry :=
  es !! Z.to_nat index.

Definition init_table : Table := mkTable 0 0 [].

Section table.

(** [key->hash], read through the key pointer. *)
Variable key_hash : ObjRef -> Z.

(** The body of the [for (;;)] of [find_entry]; the result is the index of
    the entry returned. *)
Fixpoint find_entry_loop (fuel : nat) (es : list Entry) (cap : Z)
    (k : ObjRef) (index : Z) (tombstone : option Z) : option Z :=
  match fuel with
  | O => None
  | S fuel' =>
      match entry_at es index with
      | None => None
      | Some entry =>
          match key entry with
          | None =>
              if IS_NIL (value entry)
              then Some (match tombstone with Some t => t | None => index end)
              else find_entry_loop fuel' es cap k ((index + 1) mod cap)
                     (match tombstone with Some t => Some t | None => Some index end)
          | Some k' =>
              if Nat.eqb k' k then Some index
              else find_entry_loop fuel' es cap k ((index + 1) mod cap) tombstone
          end
      end
  end.

(** One lap over the array decides the search: a second lap sees the same
    entries. *)
Definition find_entry (es : list Entry) (cap : Z) (k : ObjRef) : option Z :=
  find_entry_loop (S (Z.to_nat cap)) es cap k (key_hash k mod cap) None.

Definition store (es : list Entry) (index : Z) (e : Entry) : list Entry :=
  <[Z.to_nat index := e]> es.

(** The second loop of [adjust_capacity]: re-insert every live entry of the
    old array into the new one, counting them. *)
Fixpoint rehash (old : list Entry) (es : list Entry) (cap : Z) (cnt : Z)
    : option (list Entry * Z) :=
  match old with
  | [] => Some (es, cnt)
  | entry :: rest =>
      match key entry with
      | None => rehash rest es cap cnt
      | Some k =>
          match find_entry es cap k with
          | None => None
          | Some dest =>
              rehash rest (store es dest (mkEntry (Some k) (value entry)))
                     cap (cnt + 1)
          end
      end
  end.

Definition adjust_capacity (table : Table) (cap : Z) : option Table :=
  let fresh_entries := replicate (Z.to_nat cap) (mkEntry None NIL_VALUE) in
  match rehash (firstn (Z.to_nat (capacity table)) (entries table))
               fresh_entries cap 0 with
  | None => None
  | Some (es, cnt) => Some (mkTable cnt cap es)
  end.

Definition table_get (table : Table) (k : ObjRef) : option (option Value) :=
  if count table =? 0 then Some None
  else
    match find_entry (entries table) (capacity table) k with
    | None => None
    | Some i =>
        match entry_at (entries table) i with
        | None => None
        | Some entry =>
            match key entry with
            | None => Some None
            | Some _ => Some (Some (value entry))
            end
        end
    end.

(** [TABLE_MAX_LOAD] is 0.75; [count + 1 > capacity * 0.75] on doubles is
    [4 * (count + 1) > 3 * capacity] on integers (3/4 is a binary
    fraction, and the sizes are far below 2^51). *)
Definition over_load (table : Table) : bool :=
  3 * capacity table <? 4 * (count table + 1).

Definition table_set (table : Table) (k : ObjRef) (v : Value)
    : option (Table * bool) :=
  match (if over_load table
         then adjust_capacity table (GROW_CAPACITY (capacity table))
         else Some table) with
  | None => None
  | Some table1 =>
      match find_entry (entries table1) (capacity table1) k with
      | None => None
      | Some i =>
          match entry_at (entries table1) i with
          | None => None
          | Some entry =>
              let is_new_key := match key entry with None => true | Some _ => false end in
              let count' := if is_new_key && IS_NIL (value entry)
                            then count table1 + 1 else count table1 in
              Some (mkTable count' (capacity table1)
                      (store (entries table1) i (mkEntry (Some k) v)),
                    is_new_key)
          end
      end
  end.

Definition table_del (table : Table) (k : ObjRef) : option (Table * bool) :=
  if count table =? 0 then Some (table, false)
  else
    match find_entry (entries table) (capacity table) k with
    | None => None
    | Some i =>
        match entry_at (entries table) i with
        | None => None
        | Some entry =>
            match key entry with
            | None => Some (table, false)
            | Some _ =>
                Some (mkTable (count table) (capacity table)
                        (store (entries table) i (mkEntry None (BOOL_VALUE true))),
                      true)
            end
        end
    end.

(** [table_add_all]: every live entry of [from], in array order. *)
Fixpoint table_add_all_loop (from : list Entry) (to : Table) : option Table :=
  match from with
  | [] => Some to
  | entry :: rest =>
      match key entry with
      | None => table_add_all_loop rest to
      | Some k =>
          match table_set to k (value entry) with
          | None => None
          | Some (to', _) => table_add_all_loop rest to'
          end
      end
  end.

Definition table_add_all (from to : Table) : option Table :=
  table_add_all_loop (firstn (Z.to_nat (capacity from)) (entries from)) to.

End table.

(** ** chunk.h *)

Inductive OPCode :=
| OP_CALL | OP_INVOKE | OP_SUPER_INVOKE | OP_RETURN
| OP_POP | OP_PRINT
| OP_LOOP | OP_JUMP | OP_JUMP_IF_FALSE
| OP_INHERIT | OP_CLASS | OP_METHOD | OP_CLOSURE | OP_CONSTANT
| OP_SET_LOCAL | OP_SET_GLOBAL | OP_SET_UPVALUE | OP_SET_PROPERTY
| OP_GET_LOCAL | OP_GET_GLOBAL | OP_GET_UPVALUE | OP_GET_PROPERTY | OP_GET_SUPER
| OP_CLOSE_UPVALUE | OP_DEFINE_GLOBAL
| OP_NIL | OP_TRUE | OP_FALSE
| OP_NOT | OP_ADD | OP_NEGATE | OP_SUBTRACT | OP_MULTIPLY | OP_MODULO | OP_DIVIDE
| OP_EQUAL | OP_LESS | OP_GREATER.

(** The enumerators in declaration order, so that the position of an opcode
    is its byte. *)
Definition opcodes : list OPCode :=
  [ OP_CALL; OP_INVOKE; OP_SUPER_INVOKE; OP_RETURN;
    OP_POP; OP_PRINT;
    OP_LOOP; OP_JUMP; OP_JUMP_IF_FALSE;
    OP_INHERIT; OP_CLASS; OP_METHOD; OP_CLOSURE; OP_CONSTANT;
    OP_SET_LOCAL; OP_SET_GLOBAL; OP_SET_UPVALUE; OP_SET_PROPERTY;
    OP_GET_LOCAL; OP_GET_GLOBAL; OP_GET_UPVALUE; OP_GET_PROPERTY; OP_GET_SUPER;
    OP_CLOSE_UPVALUE; OP_DEFINE_GLOBAL;
    OP_NIL; OP_TRUE; OP_FALSE;
    OP_NOT; OP_ADD; OP_NEGATE; OP_SUBTRACT; OP_MULTIPLY; OP_MODULO; OP_DIVIDE;
    OP_EQUAL; OP_LESS; OP_GREATER ].

Definition opcode_of_byte (byte : Z) : option OPCode :=
  if byte <? 0 then None else opcodes !! Z.to_nat byte.

Definition OPCode_eqb (a b : OPCode) : bool :=
  match a, b with
  | OP_CALL, OP_CALL | OP_INVOKE, OP_INVOKE | OP_SUPER_INVOKE, OP_SUPER_INVOKE
  | OP_RETURN, OP_RETURN | OP_POP, OP_POP | OP_PRINT, OP_PRINT | OP_LOOP, OP_LOOP
  | OP_JUMP, OP_JUMP | OP_JUMP_IF_FALSE, OP_JUMP_IF_FALSE | OP_INHERIT, OP_INHERIT
  | OP_CLASS, OP_CLASS | OP_METHOD, OP_METHOD | OP_CLOSURE, OP_CLOSURE
  | OP_CONSTANT, OP_CONSTANT | OP_SET_LOCAL, OP_SET_LOCAL | OP_SET_GLOBAL, OP_SET_GLOBAL
  | OP_SET_UPVALUE, OP_SET_UPVALUE | OP_SET_PROPERTY, OP_SET_PROPERTY
  | OP_GET_LOCAL, OP_GET_LOCAL | OP_GET_GLOBAL, OP_GET_GLOBAL
  | OP_GET_UPVALUE, OP_GET_UPVALUE | OP_GET_PROPERTY, OP_GET_PROPERTY
  | OP_GET_SUPER, OP_GET_SUPER | OP_CLOSE_UPVALUE, OP_CLOSE_UPVALUE
  | OP_DEFINE_GLOBAL, OP_DEFINE_GLOBAL | OP_NIL, OP_NIL | OP_TRUE, OP_TRUE
  | OP_FALSE, OP_FALSE | OP_NOT, OP_NOT | OP_ADD, OP_ADD | OP_NEGATE, OP_NEGATE
  | OP_SUBTRACT, OP_SUBTRACT | OP_MULTIPLY, OP_MULTIPLY | OP_MODULO, OP_MODULO
  | OP_DIVIDE, OP_DIVIDE | OP_EQUAL, OP_EQUAL | OP_LESS, OP_LESS
  | OP_GREATER, OP_GREATER => true
  | _, _ => false
  end.

Fixpoint index_of (op : OPCode) (l : list OPCode) : Z :=
  match l with
  | [] => 0
  | x :: rest => if OPCode_eqb x op then 0 else 1 + index_of op rest
  end.

Definition byte_of_opcode (op : OPCode) : Z := index_of op opcodes.

Definition UINT8_MAX : Z := 255.
Definition UINT8_COUNT : Z := UINT8_MAX + 1.
Definition UINT16_MAX : Z := 65535.

Record ValueArray := mkValueArray {
  va_capacity : Z;
  va_values : list Value           (* [count] is the length *)
}.

Record Chunk := mkChunk {
  ch_capacity : Z;
  ch_lines : list Z;
  ch_code : list Z;                (* [count] is the length *)
  ch_constants : ValueArray
}.

Definition ch_count (chunk : Chunk) : Z := Z.of_nat (length (ch_code chunk)).
Definition va_count (array : ValueArray) : Z := Z.of_nat (length (va_values array)).

Definition init_value_array : ValueArray := mkValueArray 0 [].
Definition init_chunk : Chunk := mkChunk 0 [] [] init_value_array.

(** ** object.h *)

Record ObjectString := mkString {
  str_length : Z;
  str_chars : String.string;
  str_hash : Z
}.

Record ObjectFunction := mkFunction {
  arity : Z;
  fn_upvalue_count : Z;
  chunk : Chunk;
  fn_name : option ObjRef
}.

Record ObjectClosure := mkClosure {
  function : ObjRef;
  upvalues : list (option ObjRef);
  upvalue_count : Z
}.

(** Where [upvalue->location] points: into the value stack, or at the
    upvalue's own [closed] field. *)
Inductive Location :=
| StackSlot (index : Z)
| ClosedField.

Record ObjectUpvalue := mkUpvalue {
  location : Location;
  closed : Value
}.

Record ObjectClass := mkClass {
  class_name : ObjRef;
  methods : Table
}.

Record ObjectInstance := mkInstance {
  klass : ObjRef;
  fields : Table
}.

Record ObjectBoundMethod := mkBoundMethod {
  reciever : Value;
  method : ObjRef
}.

Inductive NativeFn := clock_native.

Record ObjectNative := mkNative { native_function : NativeFn }.

(** The [ObjectType] tag of the header is the constructor. *)
Inductive ObjectPayload :=
| OBJECT_CLASS (c : ObjectClass)
| OBJECT_STRING (s : ObjectString)
| OBJECT_NATIVE (n : ObjectNative)
| OBJECT_FUNCTION (f : ObjectFunction)
| OBJECT_INSTANCE (i : ObjectInstance)
| OBJECT_CLOSURE (c : ObjectClosure)
| OBJECT_UPVALUE (u : ObjectUpvalue)
| OBJECT_BOUND_METHOD (b : ObjectBoundMethod).

Record Object := mkObject {
  is_marked : bool;
  payload : ObjectPayload
}.

(** ** vm.h *)

Definition FRAMES_MAX : Z := 64.
Definition STACK_MAX : Z := FRAMES_MAX * UINT8_COUNT.

Record CallFrame := mkCallFrame {
  closure : ObjRef;
  ip : Z;                          (* offset into the closure's chunk code *)
  slots : Z                        (* index into the value stack *)
}.

Inductive InterpretResult :=
| INTERPRET_OK
| INTERPRET_RUNTIME_ERROR
| INTERPRET_COMPILE_ERROR.

Record VM := mkVM {
  frame_count : Z;
  frames : gmap Z CallFrame;
  stack : gmap Z Value;
  stack_top : Z;
  heap : gmap nat Object;
  objects : list ObjRef;
  strings : Table;
  globals : Table;
  open_upvalues : list ObjRef;
  gray_stack : list ObjRef;
  init_string : option ObjRef;
  bytes_allocated : Z;
  next_gc : Z;
  printed : list Value             (* what [OP_PRINT] wrote, oldest first *)
}.

Definition set_frame_count (vm : VM) (x : Z) : VM :=
  mkVM x (frames vm) (stack vm) (stack_top vm) (heap vm) (objects vm) (strings vm)
       (globals vm) (open_upvalues vm) (gray_stack vm) (init_string vm)
       (bytes_allocated vm) (next_gc vm) (printed vm).
Definition set_frames (vm : VM) (x : gmap Z CallFrame) : VM :=
  mkVM (frame_count vm) x (stack vm) (stack_top vm) (heap vm) (objects vm) (strings vm)
       (globals vm) (open_upvalues vm) (gray_stack vm) (init_string vm)
       (bytes_allocated vm) (next_gc vm) (printed vm).
Definition set_stack (vm : VM) (x : gmap Z Value) : VM :=
  mkVM (frame_count vm) (frames vm) x (stack_top vm) (heap vm) (objects vm) (strings vm)
       (globals vm) (open_upvalues vm) (gray_stack vm) (init_string vm)
       (bytes_allocated vm) (next_gc vm) (printed vm).
Definition set_stack_top (vm : VM) (x : Z) : VM :=
  mkVM (frame_count vm) (frames vm) (stack vm) x (heap vm) (objects vm) (strings vm)
       (globals vm) (open_upvalues vm) (gray_stack vm) (init_string vm)
       (bytes_allocated vm) (next_gc vm) (printed vm).
Definition set_heap (vm : VM) (x : gmap nat Object) : VM :=
  mkVM (frame_count vm) (frames vm) (stack vm) (stack_top vm) x (objects vm) (strings vm)
       (globals vm) (open_upvalues vm) (gray_stack vm) (init_string vm)
       (bytes_allocated vm) (next_gc vm) (printed vm).
Definition set_objects (vm : VM) (x : list ObjRef) : VM :=
  mkVM (frame_count vm) (frames vm) (stack vm) (stack_top vm) (heap vm) x (strings vm)
       (globals vm) (open_upvalues vm) (gray_stack vm) (init_string vm)
       (bytes_allocated vm) (next_gc vm) (printed vm).
Definition set_strings (vm : VM) (x : Table) : VM :=
  mkVM (frame_count vm) (frames vm) (stack vm) (stack_top vm) (heap vm) (objects vm) x
       (globals vm) (open_upvalues vm) (gray_stack vm) (init_string vm)
       (bytes_allocated vm) (next_gc vm) (printed vm).
Definition set_globals (vm : VM) (x : Table) : VM :=
  mkVM (frame_count vm) (frames vm) (stack vm) (stack_top vm) (heap vm) (objects vm)
       (strings vm) x (open_upvalues vm) (gray_stack vm) (init_string vm)
       (bytes_allocated vm) (next_gc vm) (printed vm).
Definition set_open_upvalues (vm : VM) (x : list ObjRef) : VM :=
  mkVM (frame_count vm) (frames vm) (stack vm) (stack_top vm) (heap vm) (objects vm)
       (strings vm) (globals vm) x (gray_stack vm) (init_string vm)
       (bytes_allocated vm) (next_gc vm) (printed vm).
Definition set_gray_stack (vm : VM) (x : list ObjRef) : VM :=
  mkVM (frame_count vm) (frames vm) (stack vm) (stack_top vm) (heap vm) (objects vm)
       (strings vm) (globals vm) (open_upvalues vm) x (init_string vm)
       (bytes_allocated vm) (next_gc vm) (printed vm).
Definition set_init_string (vm : VM) (x : option ObjRef) : VM :=
  mkVM (frame_count vm) (frames vm) (stack vm) (stack_top vm) (heap vm) (objects vm)
       (strings vm) (globals vm) (open_upvalues vm) (gray_stack vm) x
       (bytes_allocated vm) (next_gc vm) (printed vm).
Definition set_bytes_allocated (vm : VM) (x : Z) : VM :=
  mkVM (frame_count vm) (frames vm) (stack vm) (stack_top vm) (heap vm) (objects vm)
       (strings vm) (globals vm) (open_upvalues vm) (gray_stack vm) (init_string vm)
       x (next_gc vm) (printed vm).
Definition set_next_gc (vm : VM) (x : Z) : VM :=
  mkVM (frame_count vm) (frames vm) (stack vm) (stack_top vm) (heap vm) (objects vm)
       (strings vm) (globals vm) (open_upvalues vm) (gray_stack vm) (init_string vm)
       (bytes_allocated vm) x (printed vm).
Definition set_printed (vm : VM) (x : list Value) : VM :=
  mkVM (frame_count vm) (frames vm) (stack vm) (stack_top vm) (heap vm) (objects vm)
       (strings vm) (globals vm) (open_upvalues vm) (gray_stack vm) (init_string vm)
       (bytes_allocated vm) (next_gc vm) x.

(** Typed reads through an object pointer.  A pointer cast to a type its
    target does not have ([AS_CLOSURE] of a string, say) has no meaning in
    the embedding: the read is [None]. *)
Definition AS_STRING (h : gmap nat Object) (r : ObjRef) : option ObjectString :=
  match h !! r with Some (mkObject _ (OBJECT_STRING s)) => Some s | _ => None end.
Definition AS_FUNCTION (h : gmap nat Object) (r : ObjRef) : option ObjectFunction :=
  match h !! r with Some (mkObject _ (OBJECT_FUNCTION f)) => Some f | _ => None end.
Definition AS_CLOSURE (h : gmap nat Object) (r : ObjRef) : option ObjectClosure :=
  match h !! r with Some (mkObject _ (OBJECT_CLOSURE c)) => Some c | _ => None end.
Definition AS_UPVALUE (h : gmap nat Object) (r : ObjRef) : option ObjectUpvalue :=
  match h !! r with Some (mkObject _ (OBJECT_UPVALUE u)) => Some u | _ => None end.
Definition AS_CLASS (h : gmap nat Object) (r : ObjRef) : option ObjectClass :=
  match h !! r with Some (mkObject _ (OBJECT_CLASS c)) => Some c | _ => None end.
Definition AS_INSTANCE (h : gmap nat Object) (r : ObjRef) : option ObjectInstance :=
  match h !! r with Some (mkObject _ (OBJECT_INSTANCE i)) => Some i | _ => None end.
Definition AS_BOUND_METHOD (h : gmap nat Object) (r : ObjRef) : option ObjectBoundMethod :=
  match h !! r with Some (mkObject _ (OBJECT_BOUND_METHOD b)) => Some b | _ => None end.
Definition AS_NATIVE (h : gmap nat Object) (r : ObjRef) : option NativeFn :=
  match h !! r with Some (mkObject _ (OBJECT_NATIVE n)) => Some (native_function n) | _ => None end.

Definition AS_OBJECT (value : Value) : option ObjRef :=
  match value with OBJECT_VALUE r => Some r | _ => None end.

(** [key->hash] for the tables of a heap. *)
Definition string_hash (h : gmap nat Object) (r : ObjRef) : Z :=
  match AS_STRING h r with Some s => str_hash s | None => 0 end.

(** Overwrite the payload of a live object, keeping its header. *)
Definition set_payload (h : gmap nat Object) (r : ObjRef) (p : ObjectPayload)
    : gmap nat Object :=
  match h !! r with
  | Some o => <[r := mkObject (is_marked o) p]> h
  | None => h
  end.

Definition IS_STRING (h : gmap nat Object) (value : Value) : bool :=
  match value with
  | OBJECT_VALUE r => match AS_STRING h r with Some _ => true | None => false end
  | _ => false
  end.
Definition IS_INSTANCE (h : gmap nat Object) (value : Value) : bool :=
  match value with
  | OBJECT_VALUE r => match AS_INSTANCE h r with Some _ => true | None => false end
  | _ => false
  end.
Definition IS_CLASS (h : gmap nat Object) (value : Value) : bool :=
  match value with
  | OBJECT_VALUE r => match AS_CLASS h r with Some _ => true | None => false end
  | _ => false
  end.

(** ** Sizes of the C types, as [sizeof] gives them on the target. *)
Record Sizeof := mkSizeof {
  sizeof_Value : Z;
  sizeof_Entry : Z;
  sizeof_int : Z;
  sizeof_pointer : Z;
  sizeof_ObjectString : Z;
  sizeof_ObjectFunction : Z;
  sizeof_ObjectClosure : Z;
  sizeof_ObjectUpvalue : Z;
  sizeof_ObjectClass : Z;
  sizeof_ObjectInstance : Z;
  sizeof_ObjectBoundMethod : Z;
  sizeof_ObjectNative : Z
}.

(** A 64-bit target: 4-byte [int], 8-byte pointers and doubles. *)
Definition sizeof_lp64 : Sizeof :=
  mkSizeof 16 24 4 8 40 72 40 48 40 40 40 24.

Section vm.

Variable sz : Sizeof.

(** The C body of a native function: [(arg_count, args) -> Value]. *)
Variable native_call : NativeFn -> Z -> list Value -> Value.

(** ** memory.c: the allocator's accounting *)

(** [reallocate(pointer, old_size, new_size)] adjusts [bytes_allocated] by
    [new_size - old_size].  The counter is a [size_t]; the sums formed here
    stay within its range, so no reduction is written. *)
Definition reallocate (vm : VM) (old_size new_size : Z) : VM :=
  set_bytes_allocated vm (bytes_allocated vm + (new_size - old_size)).

(** An address not in use. *)
Definition fresh_ref (h : gmap nat Object) : ObjRef := fresh (dom h).

(** [allocate_object]: account the size, clear the mark, link the object
    at the head of [vm.objects]. *)
Definition allocate_object (vm : VM) (size : Z) (p : ObjectPayload) : VM * ObjRef :=
  let vm := reallocate vm 0 size in
  let object := fresh_ref (heap vm) in
  (set_objects (set_heap vm (<[object := mkObject false p]> (heap vm)))
     (object :: objects vm),
   object).

(** ** vm.c: the value stack *)

Definition reset_stack (vm : VM) : VM :=
  set_frame_count (set_stack_top (set_open_upvalues vm []) 0) 0.

(** The cells of [vm.stack] start zeroed, which is nil. *)
Definition stack_read (vm : VM) (index : Z) : Value :=
  match stack vm !! index with Some v => v | None => NIL_VALUE end.

Definition stack_write (vm : VM) (index : Z) (v : Value) : VM :=
  set_stack vm (<[index := v]> (stack vm)).

Definition stack_push (vm : VM) (v : Value) : VM :=
  set_stack_top (stack_write vm (stack_top vm) v) (stack_top vm + 1).

Definition stack_pop (vm : VM) : VM * Value :=
  let vm := set_stack_top vm (stack_top vm - 1) in
  (vm, stack_read vm (stack_top vm)).

Definition peek (vm : VM) (distance : Z) : Value :=
  stack_read vm (stack_top vm - 1 - distance).

(** [runtime_error]: the message and the trace go to stderr; the state
    change is [reset_stack]. *)
Definition runtime_error (vm : VM) : VM := reset_stack vm.

(** ** object.c *)

Definition uint32 (z : Z) : Z := z mod 4294967296.

Fixpoint hash_string_loop (key : String.string) (hash : Z) : Z :=
  match key with
  | String.EmptyString => hash
  | String.String c rest =>
      hash_string_loop rest
        (uint32 (Z.lxor hash (Z.of_N (Ascii.N_of_ascii c)) * 16777619))
  end.

(** FNV-1a over the bytes of the key. *)
Definition hash_string (key : String.string) : Z :=
  hash_string_loop key 2166136261.

(** A table of the VM with the array that [adjust_capacity] allocates and
    the one it frees. *)
Definition table_bytes (t : Table) : Z := sizeof_Entry sz * capacity t.

Definition vm_table_set (vm : VM) (t : Table) (k : ObjRef) (v : Value)
    : option (VM * Table * bool) :=
  match table_set (string_hash (heap vm)) t k v with
  | None => None
  | Some (t', is_new) => Some (reallocate vm (table_bytes t) (table_bytes t'), t', is_new)
  end.

Definition allocate_string (vm : VM) (chars : String.string) (length hash : Z)
    : option (VM * ObjRef) :=
  let '(vm, string) :=
    allocate_object vm (sizeof_ObjectString sz)
      (OBJECT_STRING (mkString length chars hash)) in
  let vm := stack_push vm (OBJECT_VALUE string) in
  match vm_table_set vm (strings vm) string NIL_VALUE with
  | None => None
  | Some (vm, t, _) =>
      let vm := set_strings vm t in
      let '(vm, _) := stack_pop vm in
      Some (vm, string)
  end.

(** The loop of [table_find_string]. *)
Fixpoint table_find_string_loop (fuel : nat) (h : gmap nat Object) (es : list Entry)
    (cap : Z) (chars : String.string) (length hash : Z) (index : Z)
    : option (option ObjRef) :=
  match fuel with
  | O => None
  | S fuel' =>
      match entry_at es index with
      | None => None
      | Some entry =>
          match key entry with
          | None =>
              if IS_NIL (value entry) then Some None
              else table_find_string_loop fuel' h es cap chars length hash
                     ((index + 1) mod cap)
          | Some k =>
              match AS_STRING h k with
              | None => None
              | Some s =>
                  if (str_length s =? length) && (str_hash s =? hash)
                     && String.eqb (str_chars s) chars
                  then Some (Some k)
                  else table_find_string_loop fuel' h es cap chars length hash
                         ((index + 1) mod cap)
              end
          end
      end
  end.

Definition table_find_string (h : gmap nat Object) (table : Table)
    (chars : String.string) (length hash : Z) : option (option ObjRef) :=
  if count table =? 0 then Some None
  else table_find_string_loop (S (Z.to_nat (capacity table))) h (entries table)
         (capacity table) chars length hash (hash mod capacity table).

(** The [(chars, length)] pair of the C code is the byte sequence [chars]
    itself; [length] is its length. *)
Definition strlen (chars : String.string) : Z := Z.of_nat (String.length chars).

Definition take_string (vm : VM) (chars : String.string) : option (VM * ObjRef) :=
  let length := strlen chars in
  let hash := hash_string chars in
  match table_find_string (heap vm) (strings vm) chars length hash with
  | None => None
  | Some (Some interned) => Some (reallocate vm (length + 1) 0, interned)
  | Some None => allocate_string vm chars length hash
  end.

Definition copy_string (vm : VM) (chars : String.string) : option (VM * ObjRef) :=
  let length := strlen chars in
  let hash := hash_string chars in
  match table_find_string (heap vm) (strings vm) chars length hash with
  | None => None
  | Some (Some interned) => Some (vm, interned)
  | Some None =>
      let vm := reallocate vm 0 (length + 1) in
      allocate_string vm chars length hash
  end.

Definition new_function (vm : VM) : VM * ObjRef :=
  allocate_object vm (sizeof_ObjectFunction sz)
    (OBJECT_FUNCTION (mkFunction 0 0 init_chunk None)).

Definition new_upvalue (vm : VM) (slot : Z) : VM * ObjRef :=
  allocate_object vm (sizeof_ObjectUpvalue sz)
    (OBJECT_UPVALUE (mkUpvalue (StackSlot slot) NIL_VALUE)).

Definition new_closure (vm : VM) (fn : ObjRef) : option (VM * ObjRef) :=
  match AS_FUNCTION (heap vm) fn with
  | None => None
  | Some f =>
      let vm := reallocate vm 0 (sizeof_pointer sz * fn_upvalue_count f) in
      let upvalues := replicate (Z.to_nat (fn_upvalue_count f)) (@None ObjRef) in
      Some (allocate_object vm (sizeof_ObjectClosure sz)
              (OBJECT_CLOSURE (mkClosure fn upvalues (fn_upvalue_count f))))
  end.

Definition new_class (vm : VM) (name : ObjRef) : VM * ObjRef :=
  allocate_object vm (sizeof_ObjectClass sz) (OBJECT_CLASS (mkClass name init_table)).

Definition new_instance (vm : VM) (k : ObjRef) : VM * ObjRef :=
  allocate_object vm (sizeof_ObjectInstance sz) (OBJECT_INSTANCE (mkInstance k init_table)).

Definition new_bound_method (vm : VM) (reciever : Value) (method : ObjRef) : VM * ObjRef :=
  allocate_object vm (sizeof_ObjectBoundMethod sz)
    (OBJECT_BOUND_METHOD (mkBoundMethod reciever method)).

Definition new_native (vm : VM) (function : NativeFn) : VM * ObjRef :=
  allocate_object vm (sizeof_ObjectNative sz) (OBJECT_NATIVE (mkNative function)).

(** ** vm.c *)

Definition define_native (vm : VM) (name : String.string) (function : NativeFn)
    : option VM :=
  match copy_string vm name with
  | None => None
  | Some (vm, s) =>
      let vm := stack_push vm (OBJECT_VALUE s) in
      let '(vm, n) := new_native vm function in
      let vm := stack_push vm (OBJECT_VALUE n) in
      match AS_OBJECT (stack_read vm 0) with
      | None => None
      | Some k =>
          match vm_table_set vm (globals vm) k (stack_read vm 1) with
          | None => None
          | Some (vm, t, _) =>
              let vm := set_globals vm t in
              let '(vm, _) := stack_pop vm in
              let '(vm, _) := stack_pop vm in
              Some vm
          end
      end
  end.

Definition call (vm : VM) (callee : ObjRef) (arg_count : Z) : option (VM * bool) :=
  match AS_CLOSURE (heap vm) callee with
  | None => None
  | Some c =>
      match AS_FUNCTION (heap vm) (function c) with
      | None => None
      | Some f =>
          if negb (arg_count =? arity f) then Some (runtime_error vm, false)
          else if frame_count vm =? FRAMES_MAX then Some (runtime_error vm, false)
          else
            let frame := mkCallFrame callee 0 (stack_top vm - arg_count - 1) in
            Some (set_frame_count
                    (set_frames vm (<[frame_count vm := frame]> (frames vm)))
                    (frame_count vm + 1),
                  true)
      end
  end.

(** The [arg_count] values at [vm.stack_top - arg_count]. *)
Definition stack_args (vm : VM) (arg_count : Z) : list Value :=
  map (fun i => stack_read vm (stack_top vm - arg_count + Z.of_nat i))
      (seq 0 (Z.to_nat arg_count)).

(** [table_get(&klass->methods, vm.init_string, &initializer)]: the key is
    read only when the table is not empty. *)
Definition table_get_init (vm : VM) (t : Table) : option (option Value) :=
  match init_string vm with
  | Some init => table_get (string_hash (heap vm)) t init
  | None => if count t =? 0 then Some None else None
  end.

Definition call_value (vm : VM) (callee : Value) (arg_count : Z) : option (VM * bool) :=
  match callee with
  | OBJECT_VALUE r =>
      match heap vm !! r with
      | None => None
      | Some o =>
          match payload o with
          | OBJECT_BOUND_METHOD bound =>
              let vm := stack_write vm (stack_top vm - arg_count - 1) (reciever bound) in
              call vm (method bound) arg_count
          | OBJECT_CLASS k =>
              let '(vm, instance) := new_instance vm r in
              let vm := stack_write vm (stack_top vm - arg_count - 1)
                          (OBJECT_VALUE instance) in
              match table_get_init vm (methods k) with
              | None => None
              | Some (Some initializer) =>
                  match AS_OBJECT initializer with
                  | None => None
                  | Some c => call vm c arg_count
                  end
              | Some None =>
                  if negb (arg_count =? 0) then Some (runtime_error vm, true)
                  else Some (vm, true)
              end
          | OBJECT_CLOSURE _ => call vm r arg_count
          | OBJECT_NATIVE n =>
              let result := native_call (native_function n) arg_count
                              (stack_args vm arg_count) in
              let vm := set_stack_top vm (stack_top vm - (arg_count + 1)) in
              Some (stack_push vm result, true)
          | _ => Some (runtime_error vm, false)
          end
      end
  | _ => Some (runtime_error vm, false)
  end.

Definition invoke_from_class (vm : VM) (k : ObjRef) (name : ObjRef) (arg_count : Z)
    : option (VM * bool) :=
  match AS_CLASS (heap vm) k with
  | None => None
  | Some c =>
      match table_get (string_hash (heap vm)) (methods c) name with
      | None => None
      | Some None => Some (runtime_error vm, false)
      | Some (Some m) =>
          match AS_OBJECT m with
          | None => None
          | Some cl => call vm cl arg_count
          end
      end
  end.

Definition invoke (vm : VM) (name : ObjRef) (arg_count : Z) : option (VM * bool) :=
  let reciever := peek vm arg_count in
  if negb (IS_INSTANCE (heap vm) reciever) then Some (runtime_error vm, false)
  else
    match AS_OBJECT reciever with
    | None => None
    | Some r =>
        match AS_INSTANCE (heap vm) r with
        | None => None
        | Some instance =>
            match table_get (string_hash (heap vm)) (fields instance) name with
            | None => None
            | Some (Some v) =>
                let vm := stack_write vm (stack_top vm - arg_count - 1) v in
                call_value vm v arg_count
            | Some None => invoke_from_class vm (klass instance) name arg_count
            end
        end
    end.

Definition bind_method (vm : VM) (k : ObjRef) (name : ObjRef) : option (VM * bool) :=
  match AS_CLASS (heap vm) k with
  | None => None
  | Some c =>
      match table_get (string_hash (heap vm)) (methods c) name with
      | None => None
      | Some None => Some (runtime_error vm, false)
      | Some (Some m) =>
          match AS_OBJECT m with
          | None => None
          | Some cl =>
              let '(vm, bound) := new_bound_method vm (peek vm 0) cl in
              let '(vm, _) := stack_pop vm in
              Some (stack_push vm (OBJECT_VALUE bound), true)
          end
      end
  end.

(** The [while] of [capture_upvalue]: the upvalues walked over (those
    whose [location] is above [local]) and the rest of the list, which
    starts at [upvalue]. *)
Fixpoint capture_upvalue_walk (h : gmap nat Object) (open : list ObjRef) (local : Z)
    : option (list ObjRef * list ObjRef) :=
  match open with
  | [] => Some ([], [])
  | upvalue :: rest =>
      match AS_UPVALUE h upvalue with
      | Some (mkUpvalue (StackSlot l) _) =>
          if l >? local then
            match capture_upvalue_walk h rest local with
            | None => None
            | Some (walked, tail) => Some (upvalue :: walked, tail)
            end
          else Some ([], open)
      | _ => None
      end
  end.

Definition capture_upvalue (vm : VM) (local : Z) : option (VM * ObjRef) :=
  match capture_upvalue_walk (heap vm) (open_upvalues vm) local with
  | None => None
  | Some (walked, tail) =>
      let found :=
        match tail with
        | upvalue :: _ =>
            match AS_UPVALUE (heap vm) upvalue with
            | Some (mkUpvalue (StackSlot l) _) => if l =? local then Some upvalue else None
            | _ => None
            end
        | [] => None
        end in
      match found with
      | Some upvalue => Some (vm, upvalue)
      | None =>
          let '(vm, created_upvalue) := new_upvalue vm local in
          Some (set_open_upvalues vm (walked ++ created_upvalue :: tail), created_upvalue)
      end
  end.

(** The [while] of [close_upvalues], over the heap and the open list. *)
Fixpoint close_upvalues_loop (stk : gmap Z Value) (h : gmap nat Object)
    (open : list ObjRef) (last : Z) : option (gmap nat Object * list ObjRef) :=
  match open with
  | [] => Some (h, [])
  | upvalue :: rest =>
      match AS_UPVALUE h upvalue with
      | Some (mkUpvalue (StackSlot l) _) =>
          if l >=? last then
            let v := match stk !! l with Some v => v | None => NIL_VALUE end in
            close_upvalues_loop stk
              (set_payload h upvalue (OBJECT_UPVALUE (mkUpvalue ClosedField v)))
              rest last
          else Some (h, open)
      | _ => None
      end
  end.

Definition close_upvalues (vm : VM) (last : Z) : option VM :=
  match close_upvalues_loop (stack vm) (heap vm) (open_upvalues vm) last with
  | None => None
  | Some (h, open) => Some (set_open_upvalues (set_heap vm h) open)
  end.

Definition is_falsey (v : Value) : bool :=
  match v with
  | NIL_VALUE => true
  | BOOL_VALUE b => negb b
  | _ => false
  end.

Definition define_method (vm : VM) (name : ObjRef) : option VM :=
  let method := peek vm 0 in
  k ← AS_OBJECT (peek vm 1);
  c ← AS_CLASS (heap vm) k;
  '(vm, t, _) ← vm_table_set vm (methods c) name method;
  let vm := set_heap vm (set_payload (heap vm) k (OBJECT_CLASS (mkClass (class_name c) t))) in
  Some (fst (stack_pop vm)).

Definition concatenate (vm : VM) : option VM :=
  rb ← AS_OBJECT (peek vm 0);
  b ← AS_STRING (heap vm) rb;
  ra ← AS_OBJECT (peek vm 1);
  a ← AS_STRING (heap vm) ra;
  let length := str_length a + str_length b in
  let vm := reallocate vm 0 (length + 1) in
  let chars := String.append (str_chars a) (str_chars b) in
  '(vm, result) ← take_string vm chars;
  let vm := fst (stack_pop vm) in
  let vm := fst (stack_pop vm) in
  Some (stack_push vm (OBJECT_VALUE result)).

(** *** The dispatch loop of [run] *)

(** What one turn of the [for (;;)] does: go on with the (possibly new)
    current frame, or return from [run]. *)
Inductive Dispatch :=
| Continue (vm : VM) (frame : Z)
| Return (vm : VM) (result : InterpretResult).

Definition frame_function (vm : VM) (frame : Z) : option (CallFrame * ObjectClosure * ObjectFunction) :=
  fr ← frames vm !! frame;
  c ← AS_CLOSURE (heap vm) (closure fr);
  f ← AS_FUNCTION (heap vm) (function c);
  Some (fr, c, f).

Definition set_ip (vm : VM) (frame : Z) (new_ip : Z) : option VM :=
  fr ← frames vm !! frame;
  Some (set_frames vm (<[frame := mkCallFrame (closure fr) new_ip (slots fr)]> (frames vm))).

Definition READ_BYTE (vm : VM) (frame : Z) : option (VM * Z) :=
  '(fr, _, f) ← frame_function vm frame;
  if ip fr <? 0 then None
  else
    byte ← ch_code (chunk f) !! Z.to_nat (ip fr);
    vm ← set_ip vm frame (ip fr + 1);
    Some (vm, byte).

Definition READ_SHORT (vm : VM) (frame : Z) : option (VM * Z) :=
  '(vm, hi) ← READ_BYTE vm frame;
  '(vm, lo) ← READ_BYTE vm frame;
  Some (vm, Z.lor (Z.shiftl hi 8) lo mod 65536).

Definition READ_CONSTANT (vm : VM) (frame : Z) : option (VM * Value) :=
  '(vm, index) ← READ_BYTE vm frame;
  '(_, _, f) ← frame_function vm frame;
  v ← va_values (ch_constants (chunk f)) !! Z.to_nat index;
  Some (vm, v).

Definition READ_STRING (vm : VM) (frame : Z) : option (VM * ObjRef) :=
  '(vm, v) ← READ_CONSTANT vm frame;
  r ← AS_OBJECT v;
  Some (vm, r).

(** IEEE-754 binary64. *)
Definition prec : Z := 53.
Definition emax : Z := 1024.

Inductive BinaryOperator := op_sub | op_mul | op_div | op_greater | op_less.

Definition binary_result (op : BinaryOperator) (a b : spec_float) : Value :=
  match op with
  | op_sub => NUMBER_VALUE (SFsub prec emax a b)
  | op_mul => NUMBER_VALUE (SFmul prec emax a b)
  | op_div => NUMBER_VALUE (SFdiv prec emax a b)
  | op_greater => BOOL_VALUE (SFltb b a)
  | op_less => BOOL_VALUE (SFltb a b)
  end.

(** The macro [BINARY_OP]. *)
Definition BINARY_OP (vm : VM) (frame : Z) (op : BinaryOperator) : option Dispatch :=
  match peek vm 0, peek vm 1 with
  | NUMBER_VALUE _, NUMBER_VALUE _ =>
      let '(vm, vb) := stack_pop vm in
      let '(vm, va) := stack_pop vm in
      match va, vb with
      | NUMBER_VALUE a, NUMBER_VALUE b =>
          Some (Continue (stack_push vm (binary_result op a b)) frame)
      | _, _ => None
      end
  | _, _ => Some (Return (runtime_error vm) INTERPRET_RUNTIME_ERROR)
  end.

(** The cast [(int)d]: truncation toward zero; outside the range of [int]
    the cast has no defined result. *)
Definition double_to_int (d : spec_float) : option Z :=
  match d with
  | S754_zero _ => Some 0
  | S754_finite s m e =>
      let magnitude := if 0 <=? e then Z.pos m * 2 ^ e else Z.pos m / 2 ^ (- e) in
      let z := if s then - magnitude else magnitude in
      if (-2147483648 <=? z) && (z <=? 2147483647) then Some z else None
  | _ => None
  end.

Definition int_to_double (z : Z) : spec_float := binary_normalize prec emax z 0 false.

Definition op_modulo (vm : VM) (frame : Z) : option Dispatch :=
  match peek vm 0, peek vm 1 with
  | NUMBER_VALUE _, NUMBER_VALUE _ =>
      let '(vm, vb) := stack_pop vm in
      let '(vm, va) := stack_pop vm in
      match va, vb with
      | NUMBER_VALUE da, NUMBER_VALUE db =>
          b ← double_to_int db;
          a ← double_to_int da;
          if (b =? 0) || ((a =? -2147483648) && (b =? -1)) then None
          else Some (Continue (stack_push vm (NUMBER_VALUE (int_to_double (Z.rem a b)))) frame)
      | _, _ => None
      end
  | _, _ => Some (Return (runtime_error vm) INTERPRET_RUNTIME_ERROR)
  end.

Definition op_add (vm : VM) (frame : Z) : option Dispatch :=
  if IS_STRING (heap vm) (peek vm 0) && IS_STRING (heap vm) (peek vm 1) then
    vm ← concatenate vm; Some (Continue vm frame)
  else
    match peek vm 0, peek vm 1 with
    | NUMBER_VALUE _, NUMBER_VALUE _ =>
        let '(vm, vb) := stack_pop vm in
        let '(vm, va) := stack_pop vm in
        match va, vb with
        | NUMBER_VALUE a, NUMBER_VALUE b =>
            Some (Continue (stack_push vm (NUMBER_VALUE (SFadd prec emax a b))) frame)
        | _, _ => None
        end
    | _, _ => Some (Return (runtime_error vm) INTERPRET_RUNTIME_ERROR)
    end.

Definition op_return (vm : VM) (frame : Z) : option Dispatch :=
  let '(vm, result) := stack_pop vm in
  fr ← frames vm !! frame;
  vm ← close_upvalues vm (slots fr);
  let vm := set_frame_count vm (frame_count vm - 1) in
  if frame_count vm =? 0 then
    let '(vm, _) := stack_pop vm in
    Some (Return vm INTERPRET_OK)
  else
    let vm := set_stack_top vm (slots fr) in
    let vm := stack_push vm result in
    Some (Continue vm (frame_count vm - 1)).

Definition op_call (vm : VM) (frame : Z) : option Dispatch :=
  '(vm, arg_count) ← READ_BYTE vm frame;
  '(vm, ok) ← call_value vm (peek vm arg_count) arg_count;
  if negb ok then Some (Return vm INTERPRET_RUNTIME_ERROR)
  else Some (Continue vm (frame_count vm - 1)).

Definition op_set_global (vm : VM) (frame : Z) : option Dispatch :=
  '(vm, name) ← READ_STRING vm frame;
  '(vm, t, is_new) ← vm_table_set vm (globals vm) name (peek vm 0);
  let vm := set_globals vm t in
  if (is_new : bool) then
    match table_del (string_hash (heap vm)) (globals vm) name with
    | None => None
    | Some (t, _) =>
        let vm := set_globals vm t in
        Some (Return (runtime_error vm) INTERPRET_RUNTIME_ERROR)
    end
  else Some (Continue vm frame).

(** [OP_CLOSURE] up to and including [stack_push(OBJECT_VALUE(closure))]. *)
Definition op_closure_push (vm : VM) (frame : Z) : option (VM * ObjRef) :=
  '(vm, v) ← READ_CONSTANT vm frame;
  fn ← AS_OBJECT v;
  '(vm, cl) ← new_closure vm fn;
  Some (stack_push vm (OBJECT_VALUE cl), cl).

Definition set_closure_upvalue (vm : VM) (cl : ObjRef) (i : Z) (u : option ObjRef)
    : option VM :=
  c ← AS_CLOSURE (heap vm) cl;
  if (i <? 0) || (Z.of_nat (length (upvalues c)) <=? i) then None
  else
    Some (set_heap vm
            (set_payload (heap vm) cl
               (OBJECT_CLOSURE (mkClosure (function c)
                                  (<[Z.to_nat i := u]> (upvalues c))
                                  (upvalue_count c))))).

(** The [for] of [OP_CLOSURE]: [n] turns are left, the next index is [i]. *)
Fixpoint op_closure_fill (n : nat) (vm : VM) (frame : Z) (cl : ObjRef) (i : Z)
    : option VM :=
  match n with
  | O => Some vm
  | S n' =>
      '(vm, is_local) ← READ_BYTE vm frame;
      '(vm, index) ← READ_BYTE vm frame;
      vm ←
        (if negb (is_local =? 0) then
           fr ← frames vm !! frame;
           '(vm, u) ← capture_upvalue vm (slots fr + index);
           set_closure_upvalue vm cl i (Some u)
         else
           '(_, enclosing, _) ← frame_function vm frame;
           u ← upvalues enclosing !! Z.to_nat index;
           set_closure_upvalue vm cl i u);
      op_closure_fill n' vm frame cl (i + 1)
  end.

Definition op_closure (vm : VM) (frame : Z) : option Dispatch :=
  '(vm, cl) ← op_closure_push vm frame;
  c ← AS_CLOSURE (heap vm) cl;
  vm ← op_closure_fill (Z.to_nat (upvalue_count c)) vm frame cl 0;
  Some (Continue vm frame).

(** [*upvalue->location] *)
Definition upvalue_read (vm : VM) (u : ObjRef) : option Value :=
  uv ← AS_UPVALUE (heap vm) u;
  match location uv with
  | StackSlot l => Some (stack_read vm l)
  | ClosedField => Some (closed uv)
  end.

Definition upvalue_write (vm : VM) (u : ObjRef) (v : Value) : option VM :=
  uv ← AS_UPVALUE (heap vm) u;
  match location uv with
  | StackSlot l => Some (stack_write vm l v)
  | ClosedField =>
      Some (set_heap vm (set_payload (heap vm) u (OBJECT_UPVALUE (mkUpvalue ClosedField v))))
  end.

Definition frame_upvalue (vm : VM) (frame : Z) (slot : Z) : option ObjRef :=
  '(_, c, _) ← frame_function vm frame;
  u ← upvalues c !! Z.to_nat slot;
  u.

Definition op_set_property (vm : VM) (frame : Z) : option Dispatch :=
  if negb (IS_INSTANCE (heap vm) (peek vm 1)) then
    Some (Return (runtime_error vm) INTERPRET_RUNTIME_ERROR)
  else
    r ← AS_OBJECT (peek vm 1);
    instance ← AS_INSTANCE (heap vm) r;
    '(vm, name) ← READ_STRING vm frame;
    '(vm, t, _) ← vm_table_set vm (fields instance) name (peek vm 0);
    let vm := set_heap vm (set_payload (heap vm) r
                             (OBJECT_INSTANCE (mkInstance (klass instance) t))) in
    let '(vm, v) := stack_pop vm in
    let vm := fst (stack_pop vm) in
    Some (Continue (stack_push vm v) frame).

Definition op_get_property (vm : VM) (frame : Z) : option Dispatch :=
  if negb (IS_INSTANCE (heap vm) (peek vm 0)) then
    Some (Return (runtime_error vm) INTERPRET_RUNTIME_ERROR)
  else
    r ← AS_OBJECT (peek vm 0);
    instance ← AS_INSTANCE (heap vm) r;
    '(vm, name) ← READ_STRING vm frame;
    found ← table_get (string_hash (heap vm)) (fields instance) name;
    match found with
    | Some v =>
        let vm := fst (stack_pop vm) in
        Some (Continue (stack_push vm v) frame)
    | None =>
        '(vm, ok) ← bind_method vm (klass instance) name;
        if negb ok then Some (Return vm INTERPRET_RUNTIME_ERROR)
        else Some (Continue vm frame)
    end.

Definition op_inherit (vm : VM) (frame : Z) : option Dispatch :=
  let superclass := peek vm 1 in
  if negb (IS_CLASS (heap vm) superclass) then
    Some (Return (runtime_error vm) INTERPRET_RUNTIME_ERROR)
  else
    rs ← AS_OBJECT superclass;
    super ← AS_CLASS (heap vm) rs;
    r ← AS_OBJECT (peek vm 0);
    subclass ← AS_CLASS (heap vm) r;
    t ← table_add_all (string_hash (heap vm)) (methods super) (methods subclass);
    let vm := reallocate vm (table_bytes (methods subclass)) (table_bytes t) in
    let vm := set_heap vm (set_payload (heap vm) r
                             (OBJECT_CLASS (mkClass (class_name subclass) t))) in
    Some (Continue (fst (stack_pop vm)) frame).

(** One turn of the loop: read the instruction byte and run its case. *)
Definition dispatch (vm : VM) (frame : Z) : option Dispatch :=
  '(vm, instr) ← READ_BYTE vm frame;
  match opcode_of_byte instr with
  | None => Some (Continue vm frame)
  | Some op =>
      match op with
      | OP_ADD => op_add vm frame
      | OP_SUBTRACT => BINARY_OP vm frame op_sub
      | OP_MULTIPLY => BINARY_OP vm frame op_mul
      | OP_DIVIDE => BINARY_OP vm frame op_div
      | OP_MODULO => op_modulo vm frame
      | OP_NEGATE =>
          match peek vm 0 with
          | NUMBER_VALUE _ =>
              let '(vm, v) := stack_pop vm in
              match v with
              | NUMBER_VALUE d => Some (Continue (stack_push vm (NUMBER_VALUE (SFopp d))) frame)
              | _ => None
              end
          | _ => Some (Return (runtime_error vm) INTERPRET_RUNTIME_ERROR)
          end
      | OP_CONSTANT =>
          '(vm, v) ← READ_CONSTANT vm frame;
          Some (Continue (stack_push vm v) frame)
      | OP_NIL => Some (Continue (stack_push vm NIL_VALUE) frame)
      | OP_TRUE => Some (Continue (stack_push vm (BOOL_VALUE true)) frame)
      | OP_FALSE => Some (Continue (stack_push vm (BOOL_VALUE false)) frame)
      | OP_NOT =>
          let '(vm, v) := stack_pop vm in
          Some (Continue (stack_push vm (BOOL_VALUE (is_falsey v))) frame)
      | OP_POP => Some (Continue (fst (stack_pop vm)) frame)
      | OP_EQUAL =>
          let '(vm, b) := stack_pop vm in
          let '(vm, a) := stack_pop vm in
          Some (Continue (stack_push vm (BOOL_VALUE (values_equal a b))) frame)
      | OP_GREATER => BINARY_OP vm frame op_greater
      | OP_LESS => BINARY_OP vm frame op_less
      | OP_LOOP =>
          '(vm, offset) ← READ_SHORT vm frame;
          fr ← frames vm !! frame;
          vm ← set_ip vm frame (ip fr - offset);
          Some (Continue vm frame)
      | OP_RETURN => op_return vm frame
      | OP_CALL => op_call vm frame
      | OP_JUMP =>
          '(vm, offset) ← READ_SHORT vm frame;
          fr ← frames vm !! frame;
          vm ← set_ip vm frame (ip fr + offset);
          Some (Continue vm frame)
      | OP_JUMP_IF_FALSE =>
          '(vm, offset) ← READ_SHORT vm frame;
          if is_falsey (peek vm 0) then
            fr ← frames vm !! frame;
            vm ← set_ip vm frame (ip fr + offset);
            Some (Continue vm frame)
          else Some (Continue vm frame)
      | OP_PRINT =>
          let '(vm, v) := stack_pop vm in
          Some (Continue (set_printed vm (printed vm ++ [v])) frame)
      | OP_DEFINE_GLOBAL =>
          '(vm, name) ← READ_STRING vm frame;
          '(vm, t, _) ← vm_table_set vm (globals vm) name (peek vm 0);
          Some (Continue (set_globals vm t) frame)
      | OP_GET_LOCAL =>
          '(vm, slot) ← READ_BYTE vm frame;
          fr ← frames vm !! frame;
          Some (Continue (stack_push vm (stack_read vm (slots fr + slot))) frame)
      | OP_SET_LOCAL =>
          '(vm, slot) ← READ_BYTE vm frame;
          fr ← frames vm !! frame;
          Some (Continue (stack_write vm (slots fr + slot) (peek vm 0)) frame)
      | OP_SET_GLOBAL => op_set_global vm frame
      | OP_GET_GLOBAL =>
          '(vm, name) ← READ_STRING vm frame;
          found ← table_get (string_hash (heap vm)) (globals vm) name;
          match found with
          | None => Some (Return (runtime_error vm) INTERPRET_RUNTIME_ERROR)
          | Some v => Some (Continue (stack_push vm v) frame)
          end
      | OP_GET_UPVALUE =>
          '(vm, slot) ← READ_BYTE vm frame;
          u ← frame_upvalue vm frame slot;
          v ← upvalue_read vm u;
          Some (Continue (stack_push vm v) frame)
      | OP_SET_UPVALUE =>
          '(vm, slot) ← READ_BYTE vm frame;
          u ← frame_upvalue vm frame slot;
          vm ← upvalue_write vm u (peek vm 0);
          Some (Continue vm frame)
      | OP_CLOSE_UPVALUE =>
          vm ← close_upvalues vm (stack_top vm - 1);
          Some (Continue (fst (stack_pop vm)) frame)
      | OP_CLOSURE => op_closure vm frame
      | OP_SET_PROPERTY => op_set_property vm frame
      | OP_GET_PROPERTY => op_get_property vm frame
      | OP_GET_SUPER =>
          '(vm, name) ← READ_STRING vm frame;
          let '(vm, v) := stack_pop vm in
          super_class ← AS_OBJECT v;
          '(vm, ok) ← bind_method vm super_class name;
          if negb ok then Some (Return vm INTERPRET_RUNTIME_ERROR)
          else Some (Continue vm frame)
      | OP_CLASS =>
          '(vm, name) ← READ_STRING vm frame;
          let '(vm, k) := new_class vm name in
          Some (Continue (stack_push vm (OBJECT_VALUE k)) frame)
      | OP_METHOD =>
          '(vm, name) ← READ_STRING vm frame;
          vm ← define_method vm name;
          Some (Continue vm frame)
      | OP_INVOKE =>
          '(vm, method) ← READ_STRING vm frame;
          '(vm, arg_count) ← READ_BYTE vm frame;
          '(vm, ok) ← invoke vm method arg_count;
          if negb ok then Some (Return vm INTERPRET_RUNTIME_ERROR)
          else Some (Continue vm (frame_count vm - 1))
      | OP_INHERIT => op_inherit vm frame
      | OP_SUPER_INVOKE =>
          '(vm, method) ← READ_STRING vm frame;
          '(vm, arg_count) ← READ_BYTE vm frame;
          let '(vm, v) := stack_pop vm in
          super_class ← AS_OBJECT v;
          '(vm, ok) ← invoke_from_class vm super_class method arg_count;
          if negb ok then Some (Return vm INTERPRET_RUNTIME_ERROR)
          else Some (Continue vm (frame_count vm - 1))
      end
  end.

(** [run]: the loop, with fuel for its turns. *)
Fixpoint run_loop (fuel : nat) (vm : VM) (frame : Z) : option (VM * InterpretResult) :=
  match fuel with
  | O => None
  | S fuel' =>
      match dispatch vm frame with
      | None => None
      | Some (Return vm result) => Some (vm, result)
      | Some (Continue vm frame) => run_loop fuel' vm frame
      end
  end.

Definition run (fuel : nat) (vm : VM) : option (VM * InterpretResult) :=
  run_loop fuel vm (frame_count vm - 1).

(** The [VM vm] of vm.c before [init_vm]: static storage, all zero. *)
Definition zero_vm : VM :=
  mkVM 0 ∅ ∅ 0 ∅ [] init_table init_table [] [] None 0 0 [].

Definition init_vm : option VM :=
  let vm := reset_stack zero_vm in
  let vm := set_bytes_allocated vm 0 in
  let vm := set_gray_stack vm [] in
  let vm := set_objects vm [] in
  let vm := set_next_gc vm (1024 * 1024) in
  let vm := set_strings vm init_table in
  let vm := set_globals vm init_table in
  let vm := set_init_string vm None in
  '(vm, s) ← copy_string vm "init"%string;
  let vm := set_init_string vm (Some s) in
  define_native vm "clock"%string clock_native.

(** [interpret], from the closure of the compiled function to the call
    that pushes the first frame.  The two lines that pushed the function
    before are commented out in the source. *)
Definition interpret_setup (vm : VM) (function : ObjRef) : option VM :=
  '(vm, cl) ← new_closure vm function;
  let '(vm, _) := stack_pop vm in
  let vm := stack_push vm (OBJECT_VALUE cl) in
  '(vm, _) ← call_value vm (OBJECT_VALUE cl) 0;
  Some vm.

(** [interpret] once [compile] has returned: [NULL] is a compile error. *)
Definition interpret_compiled (fuel : nat) (vm : VM) (function : option ObjRef)
    : option (VM * InterpretResult) :=
  match function with
  | None => Some (vm, INTERPRET_COMPILE_ERROR)
  | Some f =>
      vm ← interpret_setup vm f;
      run fuel vm
  end.

End vm.

(** ** memory.c: the collector *)

Section gc.

Variable sz : Sizeof.

Definition GC_HEAP_GROW_FACTOR : Z := 2.

(** [free_chunk] and [free_value_array]: three [FREE_ARRAY]s. *)
Definition free_chunk (vm : VM) (c : Chunk) : VM :=
  let vm := reallocate vm (1 * ch_capacity c) 0 in
  let vm := reallocate vm (sizeof_int sz * ch_capacity c) 0 in
  reallocate vm (sizeof_Value sz * va_capacity (ch_constants c)) 0.

(** [free_table]: one [FREE_ARRAY]. *)
Definition free_table (vm : VM) (t : Table) : VM :=
  reallocate vm (sizeof_Entry sz * capacity t) 0.

(** [free_object]: release what the object owns, then the object. *)
Definition free_object (vm : VM) (object : ObjRef) : option VM :=
  match heap vm !! object with
  | None => None
  | Some o =>
      let vm :=
        match payload o with
        | OBJECT_INSTANCE i =>
            reallocate (free_table vm (fields i)) (sizeof_ObjectInstance sz) 0
        | OBJECT_STRING s =>
            reallocate (reallocate vm (1 * (str_length s + 1)) 0) (sizeof_ObjectString sz) 0
        | OBJECT_FUNCTION f =>
            reallocate (free_chunk vm (chunk f)) (sizeof_ObjectFunction sz) 0
        | OBJECT_BOUND_METHOD _ => reallocate vm (sizeof_ObjectBoundMethod sz) 0
        | OBJECT_CLOSURE c =>
            reallocate (reallocate vm (sizeof_pointer sz * upvalue_count c) 0)
              (sizeof_ObjectClosure sz) 0
        | OBJECT_UPVALUE _ => reallocate vm (sizeof_ObjectUpvalue sz) 0
        | OBJECT_NATIVE _ => reallocate vm (sizeof_ObjectNative sz) 0
        | OBJECT_CLASS k =>
            reallocate (free_table vm (methods k)) (sizeof_ObjectClass sz) 0
        end in
      Some (set_heap vm (delete object (heap vm)))
  end.

(** [mark_object]: nothing for [NULL] or a marked object; else set the
    mark and push the object on the gray stack.  A pointer to no object is
    not one the program holds; it is left alone. *)
Definition mark_object (vm : VM) (object : option ObjRef) : VM :=
  match object with
  | None => vm
  | Some r =>
      match heap vm !! r with
      | None => vm
      | Some o =>
          if is_marked o then vm
          else
            set_gray_stack
              (set_heap vm (<[r := mkObject true (payload o)]> (heap vm)))
              (r :: gray_stack vm)
      end
  end.

Definition mark_value (vm : VM) (v : Value) : VM :=
  match v with
  | OBJECT_VALUE r => mark_object vm (Some r)
  | _ => vm
  end.

Definition mark_array (vm : VM) (array : ValueArray) : VM :=
  fold_left mark_value (va_values array) vm.

Definition mark_entry (vm : VM) (entry : Entry) : VM :=
  mark_value (mark_object vm (key entry)) (value entry).

Definition mark_table (vm : VM) (table : Table) : VM :=
  fold_left mark_entry (firstn (Z.to_nat (capacity table)) (entries table)) vm.

(** [mark_compiler_roots]: the [function] of every compiler on the
    [enclosing] chain that starts at [current]. *)
Definition mark_compiler_roots (vm : VM) (current : list (option ObjRef)) : VM :=
  fold_left mark_object current vm.

Definition mark_frame (vm : VM) (i : Z) : VM :=
  match frames vm !! i with
  | Some fr => mark_object vm (Some (closure fr))
  | None => vm
  end.

Definition mark_roots (vm : VM) (current : list (option ObjRef)) : VM :=
  let vm := fold_left (fun vm slot => mark_value vm (stack_read vm slot))
              (seqZ 0 (stack_top vm)) vm in
  let vm := fold_left mark_frame (seqZ 0 (frame_count vm)) vm in
  let vm := fold_left (fun vm u => mark_object vm (Some u)) (open_upvalues vm) vm in
  let vm := mark_table vm (globals vm) in
  let vm := mark_compiler_roots vm current in
  mark_object vm (init_string vm).

Definition blacken_object (vm : VM) (object : ObjRef) : VM :=
  match heap vm !! object with
  | None => vm
  | Some o =>
      match payload o with
      | OBJECT_INSTANCE i =>
          mark_table (mark_object vm (Some (klass i))) (fields i)
      | OBJECT_CLOSURE c =>
          fold_left mark_object
            (firstn (Z.to_nat (upvalue_count c)) (upvalues c))
            (mark_object vm (Some (function c)))
      | OBJECT_FUNCTION f =>
          mark_array (mark_object vm (fn_name f)) (ch_constants (chunk f))
      | OBJECT_BOUND_METHOD b =>
          mark_object (mark_value vm (reciever b)) (Some (method b))
      | OBJECT_UPVALUE u => mark_value vm (closed u)
      | OBJECT_CLASS k =>
          mark_table (mark_object vm (Some (class_name k))) (methods k)
      | OBJECT_NATIVE _ => vm
      | OBJECT_STRING _ => vm
      end
  end.

(** [trace_references]: pop and blacken until the gray stack is empty. *)
Fixpoint trace_references (fuel : nat) (vm : VM) : option VM :=
  match gray_stack vm with
  | [] => Some vm
  | object :: rest =>
      match fuel with
      | O => None
      | S fuel' => trace_references fuel' (blacken_object (set_gray_stack vm rest) object)
      end
  end.

(** [key->object.is_marked] *)
Definition object_is_marked (h : gmap nat Object) (r : ObjRef) : option bool :=
  match h !! r with Some o => Some (is_marked o) | None => None end.

(** table.c [table_remove_white]: [n] turns are left, the index is [i]. *)
Fixpoint table_remove_white_loop (h : gmap nat Object) (n : nat) (i : Z) (table : Table)
    : option Table :=
  match n with
  | O => Some table
  | S n' =>
      match entry_at (entries table) i with
      | None => None
      | Some entry =>
          match key entry with
          | None => table_remove_white_loop h n' (i + 1) table
          | Some k =>
              match object_is_marked h k with
              | None => None
              | Some true => table_remove_white_loop h n' (i + 1) table
              | Some false =>
                  match table_del (string_hash h) table k with
                  | None => None
                  | Some (table', _) => table_remove_white_loop h n' (i + 1) table'
                  end
              end
          end
      end
  end.

Definition table_remove_white (h : gmap nat Object) (table : Table) : option Table :=
  table_remove_white_loop h (Z.to_nat (capacity table)) 0 table.

(** [sweep], over the list that starts at [object]; the result is the
    list that remains linked. *)
Fixpoint sweep_loop (vm : VM) (objs : list ObjRef) : option (VM * list ObjRef) :=
  match objs with
  | [] => Some (vm, [])
  | object :: rest =>
      match heap vm !! object with
      | None => None
      | Some o =>
          if is_marked o then
            let vm := set_heap vm (<[object := mkObject false (payload o)]> (heap vm)) in
            match sweep_loop vm rest with
            | None => None
            | Some (vm, kept) => Some (vm, object :: kept)
            end
          else
            match free_object vm object with
            | None => None
            | Some vm => sweep_loop vm rest
            end
      end
  end.

Definition sweep (vm : VM) : option VM :=
  match sweep_loop vm (objects vm) with
  | None => None
  | Some (vm, kept) => Some (set_objects vm kept)
  end.

(** The two marking steps of [collect_garbage].  Every turn of
    [trace_references] takes one object off the gray stack, and an object
    gets there once, when it is marked: the heap size and the stack height
    bound the turns. *)
Definition mark_phase (vm : VM) (current : list (option ObjRef)) : option VM :=
  let vm := mark_roots vm current in
  trace_references (size (heap vm) + length (gray_stack vm)) vm.

Definition collect_garbage (vm : VM) (current : list (option ObjRef)) : option VM :=
  match mark_phase vm current with
  | None => None
  | Some vm =>
      match table_remove_white (heap vm) (strings vm) with
      | None => None
      | Some t =>
          let vm := set_strings vm t in
          match sweep vm with
          | None => None
          | Some vm => Some (set_next_gc vm (bytes_allocated vm * GC_HEAP_GROW_FACTOR))
          end
      end
  end.

(** The [while] of [free_objects]. *)
Fixpoint free_objects_loop (vm : VM) (objs : list ObjRef) : option VM :=
  match objs with
  | [] => Some vm
  | object :: rest =>
      match free_object vm object with
      | None => None
      | Some vm => free_objects_loop vm rest
      end
  end.

(** [free_objects]: every object of [vm.objects], which is left pointing
    at the freed head.  The last line releases the array of the gray
    stack, which [bytes_allocated] does not count. *)
Definition free_objects (vm : VM) : option VM :=
  free_objects_loop vm (objects vm).

(** vm.c [free_vm]. *)
Definition free_vm (vm : VM) : option VM :=
  let vm := set_globals (free_table vm (globals vm)) init_table in
  let vm := set_strings (free_table vm (strings vm)) init_table in
  let vm := set_init_string vm None in
  free_objects vm.

End gc.

(** ** value.c and chunk.c: the growing arrays *)

Section chunk.

Variable sz : Sizeof.

Definition write_value_array (vm : VM) (array : ValueArray) (v : Value)
    : VM * ValueArray :=
  let '(vm, capacity) :=
    if va_capacity array <? va_count array + 1 then
      let old_c := va_capacity array in
      let new_c := GROW_CAPACITY old_c in
      (reallocate vm (sizeof_Value sz * old_c) (sizeof_Value sz * new_c), new_c)
    else (vm, va_capacity array) in
  (vm, mkValueArray capacity (va_values array ++ [v])).

Definition write_chunk (vm : VM) (chunk : Chunk) (byte line : Z) : VM * Chunk :=
  let '(vm, capacity) :=
    if ch_capacity chunk <? ch_count chunk + 1 then
      let old_c := ch_capacity chunk in
      let new_c := GROW_CAPACITY old_c in
      let vm := reallocate vm (1 * old_c) (1 * new_c) in
      (reallocate vm (sizeof_int sz * old_c) (sizeof_int sz * new_c), new_c)
    else (vm, ch_capacity chunk) in
  (vm, mkChunk capacity (ch_lines chunk ++ [line]) (ch_code chunk ++ [byte])
         (ch_constants chunk)).

(** [add_constant]: the value is on the stack while the array grows. *)
Definition add_constant (vm : VM) (chunk : Chunk) (v : Value) : VM * Chunk * Z :=
  let vm := stack_push vm v in
  let '(vm, constants) := write_value_array vm (ch_constants chunk) v in
  let '(vm, _) := stack_pop vm in
  (vm, mkChunk (ch_capacity chunk) (ch_lines chunk) (ch_code chunk) constants,
   va_count constants - 1).

End chunk.

(** ** compiler.c

    scanner.h and scanner.c are not among the sources.  The scanner is the
    stream of the tokens that [scan_token] returns, one per call; at the end
    of the stream it returns [TOKEN_EOF].  Of a token the compiler reads the
    type, the line and the characters [start .. start + length), which are
    the string [tk_start]. *)

Module compiler.

Bind Scope string_scope with String.string.

Inductive TokenType :=
| TOKEN_LEFT_PAREN | TOKEN_RIGHT_PAREN | TOKEN_LEFT_BRACE | TOKEN_RIGHT_BRACE
| TOKEN_COMMA | TOKEN_DOT | TOKEN_MINUS | TOKEN_PLUS | TOKEN_SEMICOLON
| TOKEN_SLASH | TOKEN_STAR | TOKEN_PERCENT
| TOKEN_BANG | TOKEN_BANG_EQUAL | TOKEN_EQUAL | TOKEN_EQUAL_EQUAL
| TOKEN_GREATER | TOKEN_GREATER_EQUAL | TOKEN_LESS | TOKEN_LESS_EQUAL
| TOKEN_IDENTIFIER | TOKEN_STRING | TOKEN_NUMBER
| TOKEN_AND | TOKEN_CLASS | TOKEN_ELSE | TOKEN_FALSE | TOKEN_FOR | TOKEN_FUN
| TOKEN_IF | TOKEN_NIL | TOKEN_OR | TOKEN_PRINT | TOKEN_RETURN | TOKEN_SUPER
| TOKEN_THIS | TOKEN_TRUE | TOKEN_VAR | TOKEN_WHILE
| TOKEN_ERROR | TOKEN_EOF.

#[global] Instance TokenType_eq_dec : EqDecision TokenType.
Proof. solve_decision. Defined.

Record Token := mkToken {
  tk_type : TokenType;
  tk_start : String.string;
  tk_line : Z
}.

Definition tk_length (t : Token) : Z := strlen (tk_start t).

Record Parser := mkParser {
  parser_current : Token;
  parser_previous : Token;
  hadError : bool;
  panicMode : bool
}.

(** [Precedence]: the enumerators are their values, for [<=] and [+ 1]. *)
Definition PREC_NONE : Z := 0.
Definition PREC_ASSIGNMENT : Z := 1.
Definition PREC_OR : Z := 2.
Definition PREC_AND : Z := 3.
Definition PREC_EQUALITY : Z := 4.
Definition PREC_COMPARISON : Z := 5.
Definition PREC_TERM : Z := 6.
Definition PREC_FACTOR : Z := 7.
Definition PREC_UNARY : Z := 8.
Definition PREC_CALL : Z := 9.
Definition PREC_PRIMARY : Z := 10.

(** [ParseFn]: a pointer to one of the parse functions; [NULL] is [None]. *)
Inductive ParseFn :=
| fn_grouping | fn_call | fn_dot | fn_unary | fn_binary | fn_variable | fn_string
| fn_number | fn_and_ | fn_or_ | fn_literal | fn_super_ | fn_this_.

Record ParseRule := mkRule {
  prefix : option ParseFn;
  infix : option ParseFn;
  precedence : Z
}.

(** Of the name of a local only the characters are read: the name is
    the string. *)
Record Local := mkLocal {
  local_name : String.string;
  depth : Z;
  is_captured : bool
}.

Record Upvalue := mkUpvalue {
  index : Z;
  is_local : bool
}.

Inductive FunctionType := TYPE_SCRIPT | TYPE_FUNCTION | TYPE_METHOD | TYPE_INITIALIZER.

#[global] Instance FunctionType_eq_dec : EqDecision FunctionType.
Proof. solve_decision. Defined.

(** [Compiler]: [local_count] is the length of [locals]; of [upvalues] the
    list holds the cells that have been written, which are the first
    [function->upvalue_count]; [enclosing] is the rest of the chain the
    compiler is the head of. *)
Record Compiler := mkCompiler {
  c_function : ObjRef;
  c_type : FunctionType;
  c_upvalues : list Upvalue;
  c_locals : list Local;
  scope_depth : Z
}.

Definition local_count (c : Compiler) : Z := Z.of_nat (length (c_locals c)).

Record ClassCompiler := mkClassCompiler {
  class_compiler_name : String.string;
  has_superclass : bool
}.

(** A line of [stderr]: ["[line %d] Error%s: %s"]. *)
Record Diagnostic := mkDiagnostic {
  d_line : Z;
  d_at : String.string;
  d_message : String.string
}.

(** The static state of compiler.c, with the VM and the scanner it works
    on: [current] is the chain [current, current->enclosing, ...], and
    [current_class] likewise. *)
Record State := mkState {
  st_vm : VM;
  scanner : list Token;
  parser : Parser;
  current : list Compiler;
  current_class : list ClassCompiler;
  stderr : list Diagnostic
}.

Definition set_vm (st : State) (x : VM) : State :=
  mkState x (scanner st) (parser st) (current st) (current_class st) (stderr st).
Definition set_scanner (st : State) (x : list Token) : State :=
  mkState (st_vm st) x (parser st) (current st) (current_class st) (stderr st).
Definition set_parser (st : State) (x : Parser) : State :=
  mkState (st_vm st) (scanner st) x (current st) (current_class st) (stderr st).
Definition set_current (st : State) (x : list Compiler) : State :=
  mkState (st_vm st) (scanner st) (parser st) x (current_class st) (stderr st).
Definition set_current_class (st : State) (x : list ClassCompiler) : State :=
  mkState (st_vm st) (scanner st) (parser st) (current st) x (stderr st).
Definition set_stderr (st : State) (x : list Diagnostic) : State :=
  mkState (st_vm st) (scanner st) (parser st) (current st) (current_class st) x.

(** A function of compiler.c: it reads and writes the static state;
    [None] is a step the C program gives no meaning to (a call through a
    [NULL] pointer, a read through [current] when it is [NULL]), or fuel
    that ran out. *)
Definition M (A : Type) : Type := State -> option (A * State).

Definition ret {A} (a : A) : M A := fun st => Some (a, st).
Definition bind {A B} (m : M A) (k : A -> M B) : M B :=
  fun st => match m st with Some (a, st') => k a st' | None => None end.
Definition undefined {A} : M A := fun _ => None.
Definition get : M State := fun st => Some (st, st).
Definition put (st : State) : M unit := fun _ => Some (tt, st).

Declare Scope compiler_scope.
Delimit Scope compiler_scope with compiler.
Notation "x <- m ;; k" := (bind m (fun x => k))
  (at level 20, m at level 99, k at level 200, only parsing) : compiler_scope.
Notation "m ;; k" := (bind m (fun _ => k))
  (at level 100, k at level 200, only parsing, right associativity) : compiler_scope.
Open Scope compiler_scope.

Definition when (b : bool) (m : M unit) : M unit := if b then m else ret tt.

Section compiler.

Variable sz : Sizeof.

(** The C library's [strtod] on the characters of a number token. *)
Variable strtod : String.string -> spec_float.

(** *** Reads and writes through [current] *)

Definition current_compiler : M Compiler :=
  st <- get ;;
  match current st with
  | c :: _ => ret c
  | [] => undefined
  end.

Definition set_current_compiler (c : Compiler) : M unit :=
  st <- get ;;
  match current st with
  | _ :: enclosing => put (set_current st (c :: enclosing))
  | [] => undefined
  end.

(** [current->function], read through the pointer. *)
Definition current_function : M ObjectFunction :=
  c <- current_compiler ;;
  st <- get ;;
  match AS_FUNCTION (heap (st_vm st)) (c_function c) with
  | Some f => ret f
  | None => undefined
  end.

Definition set_current_function (f : ObjectFunction) : M unit :=
  c <- current_compiler ;;
  st <- get ;;
  put (set_vm st (set_heap (st_vm st)
                    (set_payload (heap (st_vm st)) (c_function c) (OBJECT_FUNCTION f)))).

Definition current_chunk : M Chunk :=
  f <- current_function ;;
  ret (chunk f).

Definition set_current_chunk (c : Chunk) : M unit :=
  f <- current_function ;;
  set_current_function (mkFunction (arity f) (fn_upvalue_count f) c (fn_name f)).

(** *** Errors *)

Definition error_at (token : Token) (message : String.string) : M unit :=
  st <- get ;;
  if panicMode (parser st) then ret tt
  else
    let place :=
      match tk_type token with
      | TOKEN_EOF => " at end"%string
      | TOKEN_ERROR => ""%string
      | _ => String.append " at '" (String.append (tk_start token) "'")
      end in
    let p := parser st in
    put (set_stderr
           (set_parser st (mkParser (parser_current p) (parser_previous p) true true))
           (stderr st ++ [mkDiagnostic (tk_line token) place message])).

Definition error (message : String.string) : M unit :=
  st <- get ;;
  error_at (parser_previous (parser st)) message.

Definition error_at_current (message : String.string) : M unit :=
  st <- get ;;
  error_at (parser_current (parser st)) message.

(** *** The token stream *)

(** The [for (;;)] of [advance], over the tokens still to come: error
    tokens are reported and skipped. *)
Fixpoint advance_loop (tokens : list Token) : M unit :=
  match tokens with
  | [] =>
      st <- get ;;
      let p := parser st in
      put (set_scanner
             (set_parser st (mkParser (mkToken TOKEN_EOF "" 0) (parser_previous p)
                               (hadError p) (panicMode p)))
             [])
  | token :: rest =>
      st <- get ;;
      let p := parser st in
      put (set_scanner
             (set_parser st (mkParser token (parser_previous p)
                               (hadError p) (panicMode p)))
             rest) ;;
      if decide (tk_type token = TOKEN_ERROR)
      then error_at_current (tk_start token) ;; advance_loop rest
      else ret tt
  end.

Definition advance : M unit :=
  st <- get ;;
  let p := parser st in
  put (set_parser st (mkParser (parser_current p) (parser_current p)
                        (hadError p) (panicMode p))) ;;
  advance_loop (scanner st).

Definition check (type : TokenType) : M bool :=
  st <- get ;;
  ret (bool_decide (tk_type (parser_current (parser st)) = type)).

Definition consume (type : TokenType) (message : String.string) : M unit :=
  b <- check type ;;
  if b then advance else error_at_current message.

Definition match_ (type : TokenType) : M bool :=
  b <- check type ;;
  if b then advance ;; ret true else ret false.

(** *** Emitting code *)

Definition make_constant (v : Value) : M Z :=
  c <- current_chunk ;;
  st <- get ;;
  let '(vm, c, constant) := add_constant sz (st_vm st) c v in
  put (set_vm st vm) ;;
  set_current_chunk c ;;
  if UINT8_MAX <? constant
  then error "Too many constants in one chunk." ;; ret 0
  else ret constant.

(** The parameter is a [uint8_t]: the argument is reduced on the call. *)
Definition emit_byte (byte : Z) : M unit :=
  c <- current_chunk ;;
  st <- get ;;
  let '(vm, c) :=
    write_chunk sz (st_vm st) c (byte mod 256) (tk_line (parser_previous (parser st))) in
  put (set_vm st vm) ;;
  set_current_chunk c.

Definition emit_bytes (byte1 byte2 : Z) : M unit :=
  emit_byte byte1 ;;
  emit_byte byte2.

Definition emit_op (o : OPCode) : M unit := emit_byte (byte_of_opcode o).

Definition emit_loop (loop_start : Z) : M unit :=
  emit_op OP_LOOP ;;
  c <- current_chunk ;;
  let offset := ch_count c - loop_start + 2 in
  when (UINT16_MAX <? offset) (error "Loop body too large.") ;;
  emit_byte (Z.land (Z.shiftr offset 8) 255) ;;
  emit_byte (Z.land offset 255).

Definition emit_jump (instruction : OPCode) : M Z :=
  emit_op instruction ;;
  emit_byte 255 ;;
  emit_byte 255 ;;
  c <- current_chunk ;;
  ret (ch_count c - 1).

Definition emit_constant (v : Value) : M unit :=
  constant <- make_constant v ;;
  emit_bytes (byte_of_opcode OP_CONSTANT) constant.

(** [patch_jump] writes two cells of [code].  A cell at or after [count]
    is not a cell of the list; no caller patches one. *)
Definition patch_jump (offset : Z) : M unit :=
  c <- current_chunk ;;
  let jump := ch_count c - offset - 2 in
  when (UINT16_MAX <? jump) (error "Too much code to jump over.") ;;
  c <- current_chunk ;;
  if (0 <=? offset) && (offset + 1 <? ch_count c) then
    let code := <[Z.to_nat offset := Z.land (Z.shiftr jump 8) 255]> (ch_code c) in
    let code := <[Z.to_nat (offset + 1) := Z.land jump 255]> code in
    set_current_chunk (mkChunk (ch_capacity c) (ch_lines c) code (ch_constants c))
  else undefined.

Definition emit_return : M unit :=
  c <- current_compiler ;;
  (if decide (c_type c = TYPE_INITIALIZER)
   then emit_bytes (byte_of_opcode OP_GET_LOCAL) 0
   else emit_op OP_NIL) ;;
  emit_op OP_RETURN.

(** *** Compilers and scopes *)

Definition init_compiler (type : FunctionType) : M unit :=
  st <- get ;;
  let '(vm, function) := new_function sz (st_vm st) in
  put (set_current (set_vm st vm) (mkCompiler function type [] [] 0 :: current st)) ;;
  (if decide (type = TYPE_SCRIPT) then ret tt
   else
     st <- get ;;
     match copy_string sz (st_vm st) (tk_start (parser_previous (parser st))) with
     | None => undefined
     | Some (vm, name) =>
         put (set_vm st vm) ;;
         f <- current_function ;;
         set_current_function
           (mkFunction (arity f) (fn_upvalue_count f) (chunk f) (Some name))
     end) ;;
  c <- current_compiler ;;
  let name := if decide (type = TYPE_FUNCTION) then ""%string else "this"%string in
  set_current_compiler
    (mkCompiler (c_function c) (c_type c) (c_upvalues c)
       (c_locals c ++ [mkLocal name 0 false]) (scope_depth c)).

(** [end_compiler]; with the function, the compiler that is left, whose
    upvalues [function] still reads. *)
Definition end_compiler : M (ObjRef * Compiler) :=
  emit_return ;;
  c <- current_compiler ;;
  st <- get ;;
  put (set_current st (tl (current st))) ;;
  ret (c_function c, c).

Definition set_scope_depth (d : Z) : M unit :=
  c <- current_compiler ;;
  set_current_compiler
    (mkCompiler (c_function c) (c_type c) (c_upvalues c) (c_locals c) d).

Definition set_locals (locals : list Local) : M unit :=
  c <- current_compiler ;;
  set_current_compiler
    (mkCompiler (c_function c) (c_type c) (c_upvalues c) locals (scope_depth c)).

Definition begin_scope : M unit :=
  c <- current_compiler ;;
  set_scope_depth (scope_depth c + 1).

(** The [while] of [end_scope], over the locals from the last one. *)
Fixpoint end_scope_loop (reversed : list Local) (d : Z) : M unit :=
  match reversed with
  | [] => set_locals []
  | local :: rest =>
      if d <? depth local then
        emit_op (if is_captured local then OP_CLOSE_UPVALUE else OP_POP) ;;
        set_locals (rev rest) ;;
        end_scope_loop rest d
      else ret tt
  end.

Definition end_scope : M unit :=
  c <- current_compiler ;;
  set_scope_depth (scope_depth c - 1) ;;
  c <- current_compiler ;;
  match c_locals c with
  | [] => ret tt
  | _ => end_scope_loop (rev (c_locals c)) (scope_depth c)
  end.

(** *** Variables *)

Definition identifier_constant (name : String.string) : M Z :=
  st <- get ;;
  match copy_string sz (st_vm st) name with
  | None => undefined
  | Some (vm, s) =>
      put (set_vm st vm) ;;
      make_constant (OBJECT_VALUE s)
  end.

Definition identifiers_equal (a b : String.string) : bool := String.eqb a b.

(** The [for] of [resolve_local], from the last local down; [i] is the
    index of the head of [reversed]. *)
Fixpoint resolve_local_loop (reversed : list Local) (i : Z) (name : String.string)
    : M Z :=
  match reversed with
  | [] => ret (-1)
  | local :: rest =>
      if identifiers_equal name (local_name local) then
        when (depth local =? -1)
          (error "Can't read local variable in its own initializer.") ;;
        ret i
      else resolve_local_loop rest (i - 1) name
  end.

Definition resolve_local (compiler : Compiler) (name : String.string) : M Z :=
  resolve_local_loop (rev (c_locals compiler)) (local_count compiler - 1) name.

(** The [for] of [add_upvalue]: the first cell with the index and the
    flag. *)
Fixpoint find_upvalue (upvalues : list Upvalue) (i : Z) (idx : Z) (local : bool)
    : option Z :=
  match upvalues with
  | [] => None
  | upvalue :: rest =>
      if (index upvalue =? idx) && Bool.eqb (is_local upvalue) local then Some i
      else find_upvalue rest (i + 1) idx local
  end.

(** [add_upvalue] on the compiler and its function; both are returned
    as they are left. *)
Definition add_upvalue (compiler : Compiler) (idx : Z) (local : bool)
    : M (Z * Compiler) :=
  st <- get ;;
  match AS_FUNCTION (heap (st_vm st)) (c_function compiler) with
  | None => undefined
  | Some f =>
      let upvalue_count := fn_upvalue_count f in
      match find_upvalue (take (Z.to_nat upvalue_count) (c_upvalues compiler))
              0 idx local with
      | Some i => ret (i, compiler)
      | None =>
          if upvalue_count =? UINT8_COUNT then
            error "Too many closure variables in a function." ;;
            ret (0, compiler)
          else
            st <- get ;;
            put (set_vm st
                   (set_heap (st_vm st)
                      (set_payload (heap (st_vm st)) (c_function compiler)
                         (OBJECT_FUNCTION
                            (mkFunction (arity f) (upvalue_count + 1) (chunk f)
                               (fn_name f)))))) ;;
            ret (upvalue_count,
                 mkCompiler (c_function compiler) (c_type compiler)
                   (take (Z.to_nat upvalue_count) (c_upvalues compiler)
                    ++ [mkUpvalue idx local])
                   (c_locals compiler) (scope_depth compiler))
      end
  end.

Definition capture_local (compiler : Compiler) (local : Z) : Compiler :=
  mkCompiler (c_function compiler) (c_type compiler) (c_upvalues compiler)
    (alter (fun l => mkLocal (local_name l) (depth l) true) (Z.to_nat local)
       (c_locals compiler))
    (scope_depth compiler).

(** [resolve_upvalue] on a chain of compilers; the chain is returned as
    it is left. *)
Fixpoint resolve_upvalue (chain : list Compiler) (name : String.string)
    : M (Z * list Compiler) :=
  match chain with
  | [] => undefined
  | compiler :: enclosing =>
      match enclosing with
      | [] => ret (-1, chain)
      | outer :: rest =>
          local <- resolve_local outer name ;;
          if negb (local =? -1) then
            r <- add_upvalue compiler (local mod 256) true ;;
            ret (fst r, snd r :: capture_local outer local :: rest)
          else
            up <- resolve_upvalue enclosing name ;;
            if negb (fst up =? -1) then
              r <- add_upvalue compiler (fst up mod 256) false ;;
              ret (fst r, snd r :: snd up)
            else ret (-1, compiler :: snd up)
      end
  end.

Definition add_local (name : String.string) : M unit :=
  c <- current_compiler ;;
  if local_count c =? UINT8_COUNT then
    error "Too many local variables in a function."
  else set_locals (c_locals c ++ [mkLocal name (-1) false]).

(** The [for] of [declare_variable], from the last local down. *)
Fixpoint declare_variable_loop (reversed : list Local) (d : Z) (name : String.string)
    : M unit :=
  match reversed with
  | [] => ret tt
  | local :: rest =>
      if negb (depth local =? -1) && (depth local <? d) then ret tt
      else
        when (identifiers_equal name (local_name local))
          (error "Variable with the same name already declared in scope.") ;;
        declare_variable_loop rest d name
  end.

Definition declare_variable : M unit :=
  c <- current_compiler ;;
  if scope_depth c =? 0 then ret tt
  else
    st <- get ;;
    let name := tk_start (parser_previous (parser st)) in
    declare_variable_loop (rev (c_locals c)) (scope_depth c) name ;;
    add_local name.

Definition parse_variable (error_message : String.string) : M Z :=
  consume TOKEN_IDENTIFIER error_message ;;
  declare_variable ;;
  c <- current_compiler ;;
  if 0 <? scope_depth c then ret 0
  else
    st <- get ;;
    identifier_constant (tk_start (parser_previous (parser st))).

(** [locals[local_count - 1].depth = scope_depth]; with no local the
    write is below the array. *)
Definition mark_initialized : M unit :=
  c <- current_compiler ;;
  if scope_depth c =? 0 then ret tt
  else
    match c_locals c with
    | [] => undefined
    | _ =>
        set_locals
          (alter (fun l => mkLocal (local_name l) (scope_depth c) (is_captured l))
             (length (c_locals c) - 1)%nat (c_locals c))
    end.

Definition define_variable (global : Z) : M unit :=
  c <- current_compiler ;;
  if 0 <? scope_depth c then mark_initialized
  else emit_bytes (byte_of_opcode OP_DEFINE_GLOBAL) global.

(** *** The rules *)

Definition get_rule (type : TokenType) : ParseRule :=
  match type with
  | TOKEN_LEFT_PAREN => mkRule (Some fn_grouping) (Some fn_call) PREC_CALL
  | TOKEN_RIGHT_PAREN => mkRule None None PREC_NONE
  | TOKEN_LEFT_BRACE => mkRule None None PREC_NONE
  | TOKEN_RIGHT_BRACE => mkRule None None PREC_NONE
  | TOKEN_COMMA => mkRule None None PREC_NONE
  | TOKEN_DOT => mkRule None (Some fn_dot) PREC_CALL
  | TOKEN_MINUS => mkRule (Some fn_unary) (Some fn_binary) PREC_TERM
  | TOKEN_PLUS => mkRule None (Some fn_binary) PREC_TERM
  | TOKEN_SEMICOLON => mkRule None None PREC_NONE
  | TOKEN_SLASH => mkRule None (Some fn_binary) PREC_FACTOR
  | TOKEN_STAR => mkRule None (Some fn_binary) PREC_FACTOR
  | TOKEN_PERCENT => mkRule None (Some fn_binary) PREC_FACTOR
  | TOKEN_BANG => mkRule (Some fn_unary) None PREC_NONE
  | TOKEN_BANG_EQUAL => mkRule None (Some fn_binary) PREC_EQUALITY
  | TOKEN_EQUAL => mkRule None None PREC_NONE
  | TOKEN_EQUAL_EQUAL => mkRule None (Some fn_binary) PREC_EQUALITY
  | TOKEN_GREATER => mkRule None (Some fn_binary) PREC_COMPARISON
  | TOKEN_GREATER_EQUAL => mkRule None (Some fn_binary) PREC_COMPARISON
  | TOKEN_LESS => mkRule None (Some fn_binary) PREC_COMPARISON
  | TOKEN_LESS_EQUAL => mkRule None (Some fn_binary) PREC_COMPARISON
  | TOKEN_IDENTIFIER => mkRule (Some fn_variable) None PREC_NONE
  | TOKEN_STRING => mkRule (Some fn_string) None PREC_NONE
  | TOKEN_NUMBER => mkRule (Some fn_number) (Some fn_and_) PREC_AND
  | TOKEN_AND => mkRule None None PREC_NONE
  | TOKEN_CLASS => mkRule None None PREC_NONE
  | TOKEN_ELSE => mkRule None None PREC_NONE
  | TOKEN_FALSE => mkRule (Some fn_literal) None PREC_NONE
  | TOKEN_FOR => mkRule None None PREC_NONE
  | TOKEN_FUN => mkRule None None PREC_NONE
  | TOKEN_IF => mkRule None None PREC_NONE
  | TOKEN_NIL => mkRule (Some fn_literal) None PREC_NONE
  | TOKEN_OR => mkRule None (Some fn_or_) PREC_OR
  | TOKEN_PRINT => mkRule None None PREC_NONE
  | TOKEN_RETURN => mkRule None None PREC_NONE
  | TOKEN_SUPER => mkRule (Some fn_super_) None PREC_NONE
  | TOKEN_THIS => mkRule (Some fn_this_) None PREC_NONE
  | TOKEN_TRUE => mkRule (Some fn_literal) None PREC_NONE
  | TOKEN_VAR => mkRule None None PREC_NONE
  | TOKEN_WHILE => mkRule None None PREC_NONE
  | TOKEN_ERROR => mkRule None None PREC_NONE
  | TOKEN_EOF => mkRule None None PREC_NONE
  end.

(** *** The parse functions

    The functions below call one another without a bound the types
    show.  [Routine] names the ones that are called back, with their
    arguments; [call_] is the call, and [run] ties the knot with fuel for
    the depth of the calls and the turns of the loops. *)

Inductive Routine :=
| r_parse_precedence (precedence : Z)
| r_infix_loop (precedence : Z) (can_assign : bool)
| r_arguments (arg_count : Z)
| r_parameters
| r_block
| r_methods
| r_function (type : FunctionType)
| r_statement
| r_declaration
| r_synchronize
| r_declarations.

Section routines.

Variable call_ : Routine -> M Z.

Definition parse_precedence (precedence : Z) : M unit :=
  call_ (r_parse_precedence precedence) ;; ret tt.

Definition expression : M unit := parse_precedence PREC_ASSIGNMENT.

Definition statement : M unit := call_ r_statement ;; ret tt.

Definition declaration : M unit := call_ r_declaration ;; ret tt.

Definition named_variable (name : String.string) (can_assign : bool) : M unit :=
  c <- current_compiler ;;
  arg <- resolve_local c name ;;
  ops <-
    (if negb (arg =? -1) then ret (OP_GET_LOCAL, OP_SET_LOCAL, arg)
     else
       st <- get ;;
       up <- resolve_upvalue (current st) name ;;
       st <- get ;;
       put (set_current st (snd up)) ;;
       if negb (fst up =? -1) then ret (OP_GET_UPVALUE, OP_SET_UPVALUE, fst up)
       else
         arg <- identifier_constant name ;;
         ret (OP_GET_GLOBAL, OP_SET_GLOBAL, arg)) ;;
  let '(getOp, setOp, arg) := ops in
  assign <- (if can_assign then match_ TOKEN_EQUAL else ret false) ;;
  if assign then
    expression ;;
    emit_bytes (byte_of_opcode setOp) arg
  else emit_bytes (byte_of_opcode getOp) arg.

(** The [do ... while] of [argument_list]; [arg_count] is a
    [uint8_t]. *)
Definition arguments (arg_count : Z) : M Z :=
  expression ;;
  when (arg_count =? 255) (error "Can't have more than 255 characters.") ;;
  let arg_count := (arg_count + 1) mod 256 in
  more <- match_ TOKEN_COMMA ;;
  if more then call_ (r_arguments arg_count) else ret arg_count.

Definition argument_list : M Z :=
  closed <- check TOKEN_RIGHT_PAREN ;;
  arg_count <- (if negb closed then call_ (r_arguments 0) else ret 0) ;;
  consume TOKEN_RIGHT_PAREN "Expected ')' after arguments." ;;
  ret arg_count.

Definition and_ (can_assign : bool) : M unit :=
  end_jump <- emit_jump OP_JUMP_IF_FALSE ;;
  emit_op OP_POP ;;
  parse_precedence PREC_AND ;;
  patch_jump end_jump.

Definition or_ (can_assign : bool) : M unit :=
  else_jump <- emit_jump OP_JUMP_IF_FALSE ;;
  end_jump <- emit_jump OP_JUMP ;;
  patch_jump else_jump ;;
  emit_op OP_POP ;;
  parse_precedence PREC_OR ;;
  patch_jump end_jump.

(** The [while] of [block]. *)
Definition block_loop : M unit :=
  closed <- check TOKEN_RIGHT_BRACE ;;
  ended <- check TOKEN_EOF ;;
  if negb closed && negb ended then
    declaration ;;
    call_ r_block ;; ret tt
  else ret tt.

Definition block : M unit :=
  call_ r_block ;;
  consume TOKEN_RIGHT_BRACE "Expected '}' after block.".

(** The [do ... while] over the parameters in [function]. *)
Definition parameters : M unit :=
  f <- current_function ;;
  set_current_function
    (mkFunction (arity f + 1) (fn_upvalue_count f) (chunk f) (fn_name f)) ;;
  when (255 <? arity f + 1)
    (error_at_current "Can't have more than 255 parameters.") ;;
  param_constant <- parse_variable "Expected parameter name." ;;
  define_variable param_constant ;;
  more <- match_ TOKEN_COMMA ;;
  if more then call_ r_parameters ;; ret tt else ret tt.

(** The [for] over the upvalues in [function]. *)
Fixpoint emit_upvalues (upvalues : list Upvalue) : M unit :=
  match upvalues with
  | [] => ret tt
  | upvalue :: rest =>
      emit_byte (if is_local upvalue then 1 else 0) ;;
      emit_byte (index upvalue) ;;
      emit_upvalues rest
  end.

Definition function (type : FunctionType) : M unit :=
  init_compiler type ;;
  begin_scope ;;
  consume TOKEN_LEFT_PAREN "Expected '(' after function name." ;;
  closed <- check TOKEN_RIGHT_PAREN ;;
  (if negb closed then call_ r_parameters ;; ret tt else ret tt) ;;
  consume TOKEN_RIGHT_PAREN "Expected ')' after parameters." ;;
  consume TOKEN_LEFT_BRACE "Expected '{' before function body." ;;
  block ;;
  ended <- end_compiler ;;
  let '(function, compiler) := ended in
  constant <- make_constant (OBJECT_VALUE function) ;;
  emit_bytes (byte_of_opcode OP_CLOSURE) constant ;;
  st <- get ;;
  match AS_FUNCTION (heap (st_vm st)) function with
  | None => undefined
  | Some f =>
      emit_upvalues (take (Z.to_nat (fn_upvalue_count f)) (c_upvalues compiler))
  end.

Definition method : M unit :=
  consume TOKEN_IDENTIFIER "Expected method name." ;;
  st <- get ;;
  let previous := parser_previous (parser st) in
  constant <- identifier_constant (tk_start previous) ;;
  st <- get ;;
  let previous := parser_previous (parser st) in
  let type :=
    if (tk_length previous =? 4) && String.eqb (tk_start previous) "init"
    then TYPE_INITIALIZER else TYPE_METHOD in
  call_ (r_function type) ;;
  emit_bytes (byte_of_opcode OP_METHOD) constant.

(** The [while] over the methods in [class_declaration]. *)
Definition methods_loop : M unit :=
  closed <- check TOKEN_RIGHT_BRACE ;;
  ended <- check TOKEN_EOF ;;
  if negb closed && negb ended then
    method ;;
    call_ r_methods ;; ret tt
  else ret tt.

Definition variable (can_assign : bool) : M unit :=
  st <- get ;;
  named_variable (tk_start (parser_previous (parser st))) can_assign.

Definition var_declaration : M unit :=
  global <- parse_variable "Expected variable name." ;;
  initialized <- match_ TOKEN_EQUAL ;;
  (if initialized then expression else emit_op OP_NIL) ;;
  consume TOKEN_SEMICOLON "Expected ';' after variable declaration." ;;
  define_variable global.

Definition fun_declaration : M unit :=
  global <- parse_variable "Expected function name." ;;
  mark_initialized ;;
  call_ (r_function TYPE_FUNCTION) ;;
  define_variable global.

Definition set_has_superclass : M unit :=
  st <- get ;;
  match current_class st with
  | k :: enclosing =>
      put (set_current_class st
             (mkClassCompiler (class_compiler_name k) true :: enclosing))
  | [] => undefined
  end.

Definition class_declaration : M unit :=
  consume TOKEN_IDENTIFIER "Expected class name." ;;
  st <- get ;;
  let class_name := tk_start (parser_previous (parser st)) in
  name_constant <- identifier_constant class_name ;;
  declare_variable ;;
  emit_bytes (byte_of_opcode OP_CLASS) name_constant ;;
  define_variable name_constant ;;
  st <- get ;;
  put (set_current_class st
         (mkClassCompiler (tk_start (parser_previous (parser st))) false
          :: current_class st)) ;;
  inherits <- match_ TOKEN_LESS ;;
  (if inherits then
     consume TOKEN_IDENTIFIER "Expected superclass name." ;;
     variable false ;;
     st <- get ;;
     when (identifiers_equal class_name (tk_start (parser_previous (parser st))))
       (error "A class can't inherit from itself.") ;;
     begin_scope ;;
     add_local "super" ;;
     define_variable 0 ;;
     named_variable class_name false ;;
     emit_op OP_INHERIT ;;
     set_has_superclass
   else ret tt) ;;
  named_variable class_name false ;;
  consume TOKEN_LEFT_BRACE "Expected '{' before class body." ;;
  call_ r_methods ;;
  consume TOKEN_RIGHT_BRACE "Expected '}' after class body." ;;
  emit_op OP_POP ;;
  st <- get ;;
  match current_class st with
  | [] => undefined
  | k :: enclosing =>
      when (has_superclass k) end_scope ;;
      st <- get ;;
      put (set_current_class st enclosing)
  end.

Definition binary (can_assign : bool) : M unit :=
  st <- get ;;
  let op_type := tk_type (parser_previous (parser st)) in
  let rule := get_rule op_type in
  parse_precedence (precedence rule + 1) ;;
  match op_type with
  | TOKEN_PLUS => emit_op OP_ADD
  | TOKEN_MINUS => emit_op OP_SUBTRACT
  | TOKEN_STAR => emit_op OP_MULTIPLY
  | TOKEN_SLASH => emit_op OP_DIVIDE
  | TOKEN_PERCENT => emit_op OP_MODULO
  | TOKEN_BANG_EQUAL => emit_bytes (byte_of_opcode OP_EQUAL) (byte_of_opcode OP_NOT)
  | TOKEN_EQUAL_EQUAL => emit_op OP_EQUAL
  | TOKEN_GREATER => emit_op OP_GREATER
  | TOKEN_GREATER_EQUAL => emit_bytes (byte_of_opcode OP_LESS) (byte_of_opcode OP_NOT)
  | TOKEN_LESS => emit_op OP_LESS
  | TOKEN_LESS_EQUAL => emit_bytes (byte_of_opcode OP_GREATER) (byte_of_opcode OP_NOT)
  | _ => ret tt
  end.

Definition call (can_assign : bool) : M unit :=
  arg_count <- argument_list ;;
  emit_bytes (byte_of_opcode OP_CALL) arg_count.

Definition dot (can_assign : bool) : M unit :=
  consume TOKEN_IDENTIFIER "Expected property name after '.'." ;;
  st <- get ;;
  name <- identifier_constant (tk_start (parser_previous (parser st))) ;;
  assign <- (if can_assign then match_ TOKEN_EQUAL else ret false) ;;
  if assign then
    expression ;;
    emit_bytes (byte_of_opcode OP_SET_PROPERTY) name
  else
    invoked <- match_ TOKEN_LEFT_PAREN ;;
    if invoked then
      arg_count <- argument_list ;;
      emit_bytes (byte_of_opcode OP_INVOKE) name ;;
      emit_byte arg_count
    else emit_bytes (byte_of_opcode OP_GET_PROPERTY) name.

Definition unary (can_assign : bool) : M unit :=
  st <- get ;;
  let operator_type := tk_type (parser_previous (parser st)) in
  parse_precedence PREC_UNARY ;;
  match operator_type with
  | TOKEN_BANG => emit_op OP_NOT
  | TOKEN_MINUS => emit_op OP_NEGATE
  | _ => ret tt
  end.

Definition number (can_assign : bool) : M unit :=
  st <- get ;;
  emit_constant (NUMBER_VALUE (strtod (tk_start (parser_previous (parser st))))).

Definition grouping (can_assign : bool) : M unit :=
  expression ;;
  consume TOKEN_RIGHT_PAREN "Expected ')' after expression.".

Definition literal (can_assign : bool) : M unit :=
  st <- get ;;
  match tk_type (parser_previous (parser st)) with
  | TOKEN_FALSE => emit_op OP_FALSE
  | TOKEN_TRUE => emit_op OP_TRUE
  | TOKEN_NIL => emit_op OP_NIL
  | _ => ret tt
  end.

(** [copy_string(start + 1, length - 2)]: the characters between the
    quotes; a token shorter than the two quotes gives a negative
    length. *)
Definition string (can_assign : bool) : M unit :=
  st <- get ;;
  let previous := parser_previous (parser st) in
  if tk_length previous <? 2 then undefined
  else
    let chars :=
      String.substring 1 (Z.to_nat (tk_length previous - 2)) (tk_start previous) in
    match copy_string sz (st_vm st) chars with
    | None => undefined
    | Some (vm, s) =>
        put (set_vm st vm) ;;
        emit_constant (OBJECT_VALUE s)
    end.

Definition super_ (can_assign : bool) : M unit :=
  st <- get ;;
  match current_class st with
  | [] => error "Can't use 'super' outside of class."
  | k :: _ =>
      when (negb (has_superclass k))
        (error "Can't use 'super' in a class with no superclass.")
  end ;;
  consume TOKEN_DOT "Expected '.' after 'super'." ;;
  consume TOKEN_IDENTIFIER "Expected superclass method name." ;;
  st <- get ;;
  name <- identifier_constant (tk_start (parser_previous (parser st))) ;;
  named_variable "this" false ;;
  invoked <- match_ TOKEN_LEFT_PAREN ;;
  if invoked then
    arg_count <- argument_list ;;
    named_variable "super" false ;;
    emit_bytes (byte_of_opcode OP_SUPER_INVOKE) name ;;
    emit_byte arg_count
  else
    named_variable "super" false ;;
    emit_bytes (byte_of_opcode OP_GET_SUPER) name.

Definition this_ (can_assign : bool) : M unit :=
  st <- get ;;
  match current_class st with
  | [] => error "Can't use 'this' outside of a class."
  | _ :: _ => variable false
  end.

(** A call through a [ParseFn]. *)
Definition parse_fn (fn : ParseFn) (can_assign : bool) : M unit :=
  match fn with
  | fn_grouping => grouping can_assign
  | fn_call => call can_assign
  | fn_dot => dot can_assign
  | fn_unary => unary can_assign
  | fn_binary => binary can_assign
  | fn_variable => variable can_assign
  | fn_string => string can_assign
  | fn_number => number can_assign
  | fn_and_ => and_ can_assign
  | fn_or_ => or_ can_assign
  | fn_literal => literal can_assign
  | fn_super_ => super_ can_assign
  | fn_this_ => this_ can_assign
  end.

(** The [while] of [parse_precedence]. *)
Definition infix_loop (precedence_ : Z) (can_assign : bool) : M unit :=
  st <- get ;;
  if precedence_ <=? precedence (get_rule (tk_type (parser_current (parser st)))) then
    advance ;;
    st <- get ;;
    match infix (get_rule (tk_type (parser_previous (parser st)))) with
    | None => undefined
    | Some infix_rule =>
        parse_fn infix_rule can_assign ;;
        call_ (r_infix_loop precedence_ can_assign) ;; ret tt
    end
  else ret tt.

Definition parse_precedence_body (precedence_ : Z) : M unit :=
  advance ;;
  st <- get ;;
  match prefix (get_rule (tk_type (parser_previous (parser st)))) with
  | None => error "Expected expression."
  | Some prefix_rule =>
      let can_assign := precedence_ <=? PREC_ASSIGNMENT in
      parse_fn prefix_rule can_assign ;;
      call_ (r_infix_loop precedence_ can_assign) ;;
      assign <- (if can_assign then match_ TOKEN_EQUAL else ret false) ;;
      when assign (error "Invalid assignment target.")
  end.

(** *** Statements *)

Definition print_statement : M unit :=
  expression ;;
  consume TOKEN_SEMICOLON "Expected ';' after value." ;;
  emit_op OP_PRINT.

Definition return_statement : M unit :=
  c <- current_compiler ;;
  when (bool_decide (c_type c = TYPE_SCRIPT))
    (error "Can't return from top-level code.") ;;
  bare <- match_ TOKEN_SEMICOLON ;;
  if bare then emit_return
  else
    c <- current_compiler ;;
    when (bool_decide (c_type c = TYPE_INITIALIZER))
      (error "Can't return from an initializer.") ;;
    expression ;;
    consume TOKEN_SEMICOLON "Expected ';' after return value." ;;
    emit_op OP_RETURN.

Definition expression_statement : M unit :=
  expression ;;
  consume TOKEN_SEMICOLON "Expected ';' after expression." ;;
  emit_op OP_POP.

Definition if_statement : M unit :=
  consume TOKEN_LEFT_PAREN "Expected '(' after 'if'." ;;
  expression ;;
  consume TOKEN_RIGHT_PAREN "Expected ')' after condition." ;;
  then_jump <- emit_jump OP_JUMP_IF_FALSE ;;
  emit_op OP_POP ;;
  statement ;;
  else_jump <- emit_jump OP_JUMP ;;
  patch_jump then_jump ;;
  emit_op OP_POP ;;
  otherwise <- match_ TOKEN_ELSE ;;
  when otherwise statement ;;
  patch_jump else_jump.

Definition while_statement : M unit :=
  c <- current_chunk ;;
  let loop_start := ch_count c in
  consume TOKEN_LEFT_PAREN "Expected '(' after 'while'." ;;
  expression ;;
  consume TOKEN_RIGHT_PAREN "Expected ')' after condition." ;;
  exit_jump <- emit_jump OP_JUMP_IF_FALSE ;;
  emit_op OP_POP ;;
  statement ;;
  emit_loop loop_start ;;
  patch_jump exit_jump ;;
  emit_op OP_POP.

Definition for_statement : M unit :=
  begin_scope ;;
  consume TOKEN_LEFT_PAREN "Expected '(' after 'for'." ;;
  none <- match_ TOKEN_SEMICOLON ;;
  (if none then ret tt
   else
     declared <- match_ TOKEN_VAR ;;
     if declared then var_declaration else expression_statement) ;;
  c <- current_chunk ;;
  let loop_start := ch_count c in
  unconditional <- match_ TOKEN_SEMICOLON ;;
  exit_jump <-
    (if negb unconditional then
       expression ;;
       consume TOKEN_SEMICOLON "Expected ';' after loop condition." ;;
       j <- emit_jump OP_JUMP_IF_FALSE ;;
       emit_op OP_POP ;;
       ret j
     else ret (-1)) ;;
  closed <- match_ TOKEN_RIGHT_PAREN ;;
  loop_start <-
    (if negb closed then
       body_jump <- emit_jump OP_JUMP ;;
       c <- current_chunk ;;
       let inc_start := ch_count c in
       expression ;;
       emit_op OP_POP ;;
       consume TOKEN_RIGHT_PAREN "Expected ')' after for clauses." ;;
       emit_loop loop_start ;;
       patch_jump body_jump ;;
       ret inc_start
     else ret loop_start) ;;
  statement ;;
  emit_loop loop_start ;;
  when (negb (exit_jump =? -1))
    (patch_jump exit_jump ;; emit_op OP_POP) ;;
  end_scope.

(** The [while] of [synchronize]. *)
Definition synchronize_loop : M unit :=
  st <- get ;;
  match tk_type (parser_current (parser st)) with
  | TOKEN_EOF => ret tt
  | TOKEN_SEMICOLON => ret tt
  | TOKEN_CLASS | TOKEN_FUN | TOKEN_VAR | TOKEN_FOR | TOKEN_IF | TOKEN_WHILE
  | TOKEN_PRINT | TOKEN_RETURN => ret tt
  | _ =>
      advance ;;
      call_ r_synchronize ;; ret tt
  end.

Definition synchronize : M unit :=
  st <- get ;;
  let p := parser st in
  put (set_parser st (mkParser (parser_current p) (parser_previous p)
                        (hadError p) false)) ;;
  call_ r_synchronize ;; ret tt.

Definition statement_body : M unit :=
  b <- match_ TOKEN_PRINT ;;
  if b then print_statement else
  b <- match_ TOKEN_FOR ;;
  if b then for_statement else
  b <- match_ TOKEN_IF ;;
  if b then if_statement else
  b <- match_ TOKEN_RETURN ;;
  if b then return_statement else
  b <- match_ TOKEN_WHILE ;;
  if b then while_statement else
  b <- match_ TOKEN_LEFT_BRACE ;;
  if b then
    begin_scope ;;
    block ;;
    end_scope
  else expression_statement.

Definition declaration_body : M unit :=
  (b <- match_ TOKEN_CLASS ;;
   if b then class_declaration else
   b <- match_ TOKEN_FUN ;;
   if b then fun_declaration else
   b <- match_ TOKEN_VAR ;;
   if b then var_declaration else statement) ;;
  st <- get ;;
  when (panicMode (parser st)) synchronize.

(** The [while] of [compile]. *)
Definition declarations : M unit :=
  ended <- match_ TOKEN_EOF ;;
  if ended then ret tt
  else
    declaration ;;
    call_ r_declarations ;; ret tt.

Definition routine (r : Routine) : M Z :=
  match r with
  | r_parse_precedence p => parse_precedence_body p ;; ret 0
  | r_infix_loop p can_assign => infix_loop p can_assign ;; ret 0
  | r_arguments arg_count => arguments arg_count
  | r_parameters => parameters ;; ret 0
  | r_block => block_loop ;; ret 0
  | r_methods => methods_loop ;; ret 0
  | r_function type => function type ;; ret 0
  | r_statement => statement_body ;; ret 0
  | r_declaration => declaration_body ;; ret 0
  | r_synchronize => synchronize_loop ;; ret 0
  | r_declarations => declarations ;; ret 0
  end.

End routines.

Fixpoint run_routine (fuel : nat) (r : Routine) : M Z :=
  match fuel with
  | O => undefined
  | S fuel' => routine (run_routine fuel') r
  end.

(** [compile], on the VM and the tokens of the source; the result is
    the function, or [NULL] after an error. *)
Definition compile (fuel : nat) (vm : VM) (source : list Token)
    : option (option ObjRef * State) :=
  let nothing := mkToken TOKEN_EOF "" 0 in
  (init_compiler TYPE_SCRIPT ;;
   st <- get ;;
   let p := parser st in
   put (set_parser st (mkParser (parser_current p) (parser_previous p) false false)) ;;
   advance ;;
   run_routine fuel r_declarations ;;
   ended <- end_compiler ;;
   st <- get ;;
   ret (if hadError (parser st) then None else Some (fst ended)))
    (mkState vm source (mkParser nothing nothing false false) [] [] []).

(** [mark_compiler_roots] marks the function of every compiler of the
    chain. *)
Definition compiler_roots (st : State) : list (option ObjRef) :=
  map (fun c => Some (c_function c)) (current st).

End compiler.

End compiler.

(** ** vm.c: [interpret] *)

Section interpret.

Variable sz : Sizeof.
Variable native_call : NativeFn -> Z -> list Value -> Value.
Variable strtod : String.string -> spec_float.

(** [interpret], on the tokens of the source, with fuel for the compiler
    and for [run]. *)
Definition interpret (compile_fuel run_fuel : nat) (vm : VM)
    (source : list compiler.Token) : option (VM * InterpretResult) :=
  match compiler.compile sz strtod compile_fuel vm source with
  | None => None
  | Some (function, st) =>
      interpret_compiled sz native_call run_fuel (compiler.st_vm st) function
  end.

End interpret.

(** ** Specification vocabulary for the hash table *)

(** An entry is empty when its key is [NULL] and its value is nil; a
    tombstone has a [NULL] key and any other value. *)
Definition is_empty (e : Entry) : bool :=
  match key e with None => IS_NIL (value e) | Some _ => false end.

Definition is_tombstone (e : Entry) : bool :=
  match key e with None => negb (IS_NIL (value e)) | Some _ => false end.

Definition occupied (e : Entry) : Z := if is_empty e then 0 else 1.

(** Number of entries that are not empty: live keys and tombstones. *)
Fixpoint used (es : list Entry) : Z :=
  match es with
  | [] => 0
  | e :: rest => occupied e + used rest
  end.

(** The index visited after [n] steps of linear probing from hash [h]. *)
Definition probe (h cap n : Z) : Z := (h + n) mod cap.

(** [holds es k v]: some entry of the array holds key [k] with value [v]. *)
Definition holds (es : list Entry) (k : ObjRef) (v : Value) : Prop :=
  exists i : nat, es !! i = Some (mkEntry (Some k) v).

Definition binding (t : Table) (k : ObjRef) (v : Value) : Prop :=
  holds (entries t) k v.

Definition bound (es : list Entry) (k : ObjRef) : Prop :=
  exists (i : nat) (e : Entry), es !! i = Some e /\ key e = Some k.

Definition no_tombstone (es : list Entry) : Prop :=
  forall (i : nat) (e : Entry), es !! i = Some e -> is_tombstone e = false.

(** No key of the list occurs twice in it. *)
Fixpoint keys_distinct (es : list Entry) : Prop :=
  match es with
  | [] => True
  | e :: rest => (forall k, key e = Some k -> ~ bound rest k) /\ keys_distinct rest
  end.

(** Number of entries with a key. *)
Fixpoint live (es : list Entry) : Z :=
  match es with
  | [] => 0
  | e :: rest => (match key e with Some _ => 1 | None => 0 end) + live rest
  end.

Section table_spec.

Variable key_hash : ObjRef -> Z.

(** The probe sequence of [k] walks over the entry at [i]: it is neither
    empty nor the key looked for. *)
Definition passes (es : list Entry) (k : ObjRef) (i : Z) : Prop :=
  exists e, entry_at es i = Some e /\ is_empty e = false /\ key e <> Some k.

(** Slot [i] is the first place on the probe sequence of [k] where the
    search can stop. *)
Definition reachable (es : list Entry) (cap : Z) (k : ObjRef) (i : Z) : Prop :=
  exists n, 0 <= n < cap /\ i = probe (key_hash k) cap n /\
    forall m, 0 <= m < n -> passes es k (probe (key_hash k) cap m).

Definition all_reachable (es : list Entry) (cap : Z) : Prop :=
  forall (i : nat) (e : Entry) (k : ObjRef),
    es !! i = Some e -> key e = Some k -> reachable es cap k (Z.of_nat i).

(** Representation invariant of a [Table]. *)
Record table_wf (t : Table) : Prop := mk_table_wf {
  wf_capacity : capacity t = Z.of_nat (length (entries t));
  wf_count : count t = used (entries t);
  wf_load : 4 * count t <= 3 * capacity t;
  wf_reach : all_reachable (entries t) (capacity t)
}.

End table_spec.

(** ** Specification vocabulary for the virtual machine *)

(** The stack slot an upvalue is open on; [None] for a closed upvalue and
    for anything that is not an upvalue. *)
Definition open_slot (h : gmap nat Object) (u : ObjRef) : option Z :=
  match AS_UPVALUE h u with
  | Some (mkUpvalue (StackSlot l) _) => Some l
  | _ => None
  end.

(** The slots of the open-upvalue list, head first. *)
Definition open_slots (h : gmap nat Object) (open : list ObjRef) (ls : list Z) : Prop :=
  Forall2 (fun u l => open_slot h u = Some l) open ls.

(** Invariant of [vm.open_upvalues]: every element is an open upvalue, and
    the slots strictly descend along the list. *)
Definition open_upvalues_sorted (vm : VM) : Prop :=
  exists ls, open_slots (heap vm) (open_upvalues vm) ls /\ StronglySorted Z.gt ls.

(** The upvalue [u] is closed and holds [v]. *)
Definition closed_with (h : gmap nat Object) (u : ObjRef) (v : Value) : Prop :=
  AS_UPVALUE h u = Some (mkUpvalue ClosedField v).




(** An index that lies within [vm.stack]. *)
Definition in_stack_array (i : Z) : Prop := 0 <= i < STACK_MAX.

(** The reads of the instruction stream move the [ip] of a frame and
    nothing else. *)
Definition only_frames (vm vm' : VM) : Prop := exists f, vm' = set_frames vm f.

Section run_spec.

Variable sz : Sizeof.
Variable native_call : NativeFn -> Z -> list Value -> Value.

(** [steps vm frame vm' frame']: the dispatch loop, started in [vm] with
    current frame [frame], is in [vm'] with current frame [frame'] after
    some turns. *)
Inductive steps : VM -> Z -> VM -> Z -> Prop :=
| steps_refl vm frame : steps vm frame vm frame
| steps_turn vm frame vm1 frame1 vm2 frame2 :
    dispatch sz native_call vm frame = Some (Continue vm1 frame1) ->
    steps vm1 frame1 vm2 frame2 ->
    steps vm frame vm2 frame2.

(** [n] turns of the loop from [vm]; [None] when a turn has no defined
    result or [run] has returned before. *)
Fixpoint turns (n : nat) (vm : VM) (frame : Z) : option (VM * Z) :=
  match n with
  | O => Some (vm, frame)
  | S n' =>
      match dispatch sz native_call vm frame with
      | Some (Continue vm frame) => turns n' vm frame
      | _ => None
      end
  end.

(** The next instruction byte of the current frame is [op]. *)
Definition next_opcode (vm : VM) (frame : Z) (op : OPCode) : Prop :=
  exists vm1, READ_BYTE vm frame = Some (vm1, byte_of_opcode op).

End run_spec.

(** ** Specification vocabulary for the string pool *)

(** The string object keeps the hash and the length of its bytes. *)
Definition string_consistent (s : ObjectString) : Prop :=
  str_hash s = hash_string (str_chars s) /\ str_length s = strlen (str_chars s).

(** The loop of [table_find_string] for [chars] walks over the entry at
    [i]: a tombstone, or a string with other characters. *)
Definition skips (h : gmap nat Object) (es : list Entry) (chars : String.string)
    (i : Z) : Prop :=
  exists e, entry_at es i = Some e /\
    match key e with
    | None => IS_NIL (value e) = false
    | Some k => exists s, AS_STRING h k = Some s /\ string_consistent s /\
                          str_chars s <> chars
    end.

(** [r] is the key of [vm.strings] whose bytes are [chars]. *)
Definition interned (vm : VM) (chars : String.string) (r : ObjRef) : Prop :=
  bound (entries (strings vm)) r /\
  exists s, AS_STRING (heap vm) r = Some s /\ str_chars s = chars.

(** Invariant of the pool: the table is well formed, every key is a string
    object with its own hash and length, and no two keys have the same
    bytes. *)
Record strings_inv (vm : VM) : Prop := mk_strings_inv {
  pool_wf : table_wf (string_hash (heap vm)) (strings vm);
  pool_keys : forall k, bound (entries (strings vm)) k ->
                exists s, AS_STRING (heap vm) k = Some s /\ string_consistent s;
  pool_unique : forall k1 k2 chars,
                  interned vm chars k1 -> interned vm chars k2 -> k1 = k2
}.

(** A request to the pool: [take_string] (when [takes_buffer] is set) or
    [copy_string] of the bytes. *)
Record InternRequest := mkIntern { takes_buffer : bool; bytes : String.string }.

Section pool_spec.

Variable sz : Sizeof.

Definition intern (vm : VM) (q : InternRequest) : option (VM * ObjRef) :=
  if takes_buffer q then take_string sz vm (bytes q) else copy_string sz vm (bytes q).


End pool_spec.

(** ** Specification vocabulary for the collector *)

(** The bytes an object accounts for: what [free_object] gives back. *)
Definition object_bytes (sz : Sizeof) (o : Object) : Z :=
  match payload o with
  | OBJECT_INSTANCE i => sizeof_Entry sz * capacity (fields i) + sizeof_ObjectInstance sz
  | OBJECT_STRING s => (str_length s + 1) + sizeof_ObjectString sz
  | OBJECT_FUNCTION f =>
      ch_capacity (chunk f) + sizeof_int sz * ch_capacity (chunk f)
      + sizeof_Value sz * va_capacity (ch_constants (chunk f))
      + sizeof_ObjectFunction sz
  | OBJECT_BOUND_METHOD _ => sizeof_ObjectBoundMethod sz
  | OBJECT_CLOSURE c => sizeof_pointer sz * upvalue_count c + sizeof_ObjectClosure sz
  | OBJECT_UPVALUE _ => sizeof_ObjectUpvalue sz
  | OBJECT_NATIVE _ => sizeof_ObjectNative sz
  | OBJECT_CLASS k => sizeof_Entry sz * capacity (methods k) + sizeof_ObjectClass sz
  end.

(** The aggregate payload of the objects of a list. *)
Fixpoint live_bytes (sz : Sizeof) (h : gmap nat Object) (objs : list ObjRef) : Z :=
  match objs with
  | [] => 0
  | r :: rest =>
      (match h !! r with Some o => object_bytes sz o | None => 0 end)
      + live_bytes sz h rest
  end.

(** The aggregate payload of the objects linked in [vm.objects]. *)
Definition heap_bytes (sz : Sizeof) (vm : VM) : Z :=
  live_bytes sz (heap vm) (objects vm).

(** [vm.objects] links every object of the heap once. *)
Definition heap_wf (vm : VM) : Prop :=
  NoDup (objects vm) /\ forall r, r ∈ objects vm <-> is_Some (heap vm !! r).

(** The mark bit of the object at [r]. *)
Definition marked_in (h : gmap nat Object) (r : ObjRef) : bool :=
  match h !! r with Some o => is_marked o | None => false end.

(** What [table_remove_white] leaves of an entry. *)
Definition whiten (h : gmap nat Object) (e : Entry) : Entry :=
  match key e with
  | Some k => if marked_in h k then e else mkEntry None (BOOL_VALUE true)
  | None => e
  end.

(** Number of objects of the heap whose mark bit is clear. *)
Definition unmarked_count (h : gmap nat Object) : nat :=
  size (filter (fun p : nat * Object => is_marked (snd p) = false) h).

(** What marking may change: mark bits, from clear to set, and the gray
    stack. *)
Record marks_only (vm vm' : VM) : Prop := mk_marks_only {
  mo_payload : forall r, payload <$> heap vm' !! r = payload <$> heap vm !! r;
  mo_marked : forall r, marked_in (heap vm) r = true -> marked_in (heap vm') r = true;
  mo_objects : objects vm' = objects vm;
  mo_strings : strings vm' = strings vm;
  mo_globals : globals vm' = globals vm;
  mo_bytes : bytes_allocated vm' = bytes_allocated vm;
  mo_stack : stack vm' = stack vm /\ stack_top vm' = stack_top vm /\
             frames vm' = frames vm /\ frame_count vm' = frame_count vm /\
             open_upvalues vm' = open_upvalues vm /\ init_string vm' = init_string vm
}.

(** The unmarked objects and the gray objects together: what is left for
    [trace_references] to do. *)
Definition gray_potential (vm : VM) : nat :=
  (unmarked_count (heap vm) + length (gray_stack vm))%nat.

(** A marking step: it changes marks only and keeps the potential. *)
Definition marking (vm vm' : VM) : Prop :=
  marks_only vm vm' /\ gray_potential vm' = gray_potential vm.

(** The invariant the collector relies on. *)
Definition gc_inv (vm : VM) : Prop := strings_inv vm /\ heap_wf vm.

(** ** What the collector follows *)

Definition value_refs (v : Value) : list ObjRef :=
  match v with OBJECT_VALUE r => [r] | _ => [] end.

Definition object_refs (o : option ObjRef) : list ObjRef :=
  match o with Some r => [r] | None => [] end.

Definition entry_refs (e : Entry) : list ObjRef :=
  object_refs (key e) ++ value_refs (value e).

Definition table_refs (t : Table) : list ObjRef :=
  flat_map entry_refs (firstn (Z.to_nat (capacity t)) (entries t)).

(** The objects that [blacken_object] marks for an object. *)
Definition references (o : Object) : list ObjRef :=
  match payload o with
  | OBJECT_INSTANCE i => klass i :: table_refs (fields i)
  | OBJECT_CLOSURE c =>
      function c :: flat_map object_refs (firstn (Z.to_nat (upvalue_count c)) (upvalues c))
  | OBJECT_FUNCTION f =>
      object_refs (fn_name f) ++ flat_map value_refs (va_values (ch_constants (chunk f)))
  | OBJECT_BOUND_METHOD b => value_refs (reciever b) ++ [method b]
  | OBJECT_UPVALUE u => value_refs (closed u)
  | OBJECT_CLASS k => class_name k :: table_refs (methods k)
  | OBJECT_NATIVE _ => []
  | OBJECT_STRING _ => []
  end.

(** The objects that [mark_roots] marks: the values on the stack, the
    closures of the frames, the open upvalues, the globals, the functions
    being compiled and [vm.init_string]. *)
Definition roots (vm : VM) (current : list (option ObjRef)) : list ObjRef :=
  flat_map (fun slot => value_refs (stack_read vm slot)) (seqZ 0 (stack_top vm))
  ++ flat_map (fun i => match frames vm !! i with
                        | Some fr => [closure fr]
                        | None => []
                        end) (seqZ 0 (frame_count vm))
  ++ open_upvalues vm
  ++ table_refs (globals vm)
  ++ flat_map object_refs current
  ++ object_refs (init_string vm).

(** [r] is a root, or an object reached from one through references. *)
Inductive reachable_from (h : gmap nat Object) (rs : list ObjRef) : ObjRef -> Prop :=
| reachable_root r : r ∈ rs -> reachable_from h rs r
| reachable_step r o c :
    reachable_from h rs r -> h !! r = Some o -> c ∈ references o ->
    reachable_from h rs c.

(** [r] is marked, or is no object of the heap. *)
Definition marked_or_absent (h : gmap nat Object) (r : ObjRef) : Prop :=
  marked_in h r = true \/ h !! r = None.

(** The invariant of tracing: a marked object is on the gray stack, or
    everything it refers to is marked. *)
Definition tricolor (vm : VM) : Prop :=
  forall r o, heap vm !! r = Some o -> is_marked o = true ->
    r ∈ gray_stack vm \/ forall c, c ∈ references o -> marked_or_absent (heap vm) c.

(** Between two collections no object is marked and the gray stack is
    empty. *)
Definition all_white (vm : VM) : Prop :=
  (forall r, marked_in (heap vm) r = false) /\ gray_stack vm = [].

(** A marking step, as tracing sees it: marks are set, never cleared; the
    gray stack keeps what it holds; an object newly marked is gray. *)
Definition grows (vm vm' : VM) : Prop :=
  marks_only vm vm' /\
  (forall r, r ∈ gray_stack vm -> r ∈ gray_stack vm') /\
  (forall r, marked_in (heap vm') r = true ->
     marked_in (heap vm) r = true \/ r ∈ gray_stack vm').

(** ** The allocation counter *)

(** What [bytes_allocated] counts besides the payload of the linked objects
    and the entry arrays of the two tables of the VM: buffers that no object
    owns yet. *)
Definition slack (sz : Sizeof) (vm : VM) : Z :=
  bytes_allocated vm - heap_bytes sz vm
  - sizeof_Entry sz * capacity (globals vm) - sizeof_Entry sz * capacity (strings vm).

(** [bytes_allocated] is the payload of the linked objects and the two
    tables. *)
Definition accounted (sz : Sizeof) (vm : VM) : Prop := slack sz vm = 0.

(** * Example states

    Small programs, assembled by hand into chunks, and the states of the VM
    along their runs.  The theorems below are instantiated on them. *)

Module Examples.

Bind Scope string_scope with String.string.

Definition sz : Sizeof := sizeof_lp64.

(** A clock that reads zero. *)
Definition native_call (f : NativeFn) (arg_count : Z) (args : list Value) : Value :=
  NUMBER_VALUE (S754_zero false).

(** The VM when [init_vm] has returned. *)
Definition started : VM := default zero_vm (init_vm sz).

(** A function object, as [compile] leaves it on the heap. *)
Definition with_function (vm : VM) (f : ObjectFunction) : VM * ObjRef :=
  allocate_object vm (sizeof_ObjectFunction sz) (OBJECT_FUNCTION f).

Definition op (o : OPCode) : Z := byte_of_opcode o.

(** A chunk of at most eight bytes, all on line 1. *)
Definition chunk_of (code : list Z) (constants : list Value) : Chunk :=
  mkChunk 8 (map (fun _ => 1) code) code (mkValueArray 8 constants).

(** The VM at the first turn of [run] on the script [fn]. *)
Definition entered (loaded : VM * ObjRef) : VM :=
  default zero_vm (interpret_setup sz native_call (fst loaded) (snd loaded)).

(** The VM and the frame after [n] turns of [run] on the script. *)
Definition after (n : nat) (loaded : VM * ObjRef) : VM * Z :=
  default (zero_vm, 0) (turns sz native_call n (entered loaded) 0).

(** The VM once the next byte of the frame is read. *)
Definition read (vm : VM) (frame : Z) : VM :=
  match READ_BYTE vm frame with
  | Some (vm, _) => vm
  | None => vm
  end.

(** [fun outer() { var x = true; fun inner() { return x; } return inner; }
    outer();] *)
Definition inner_chunk : Chunk :=
  chunk_of [op OP_GET_UPVALUE; 0; op OP_RETURN] [].

Definition outer_chunk (inner : ObjRef) : Chunk :=
  chunk_of [op OP_TRUE; op OP_CLOSURE; 0; 1; 1; op OP_RETURN] [OBJECT_VALUE inner].

Definition closures_chunk (outer : ObjRef) : Chunk :=
  chunk_of [op OP_CLOSURE; 0; op OP_CALL; 0; op OP_POP; op OP_NIL; op OP_RETURN]
    [OBJECT_VALUE outer].

Definition closures_loaded : VM * ObjRef :=
  let '(vm, inner) := with_function started (mkFunction 0 1 inner_chunk None) in
  let '(vm, outer) := with_function vm (mkFunction 0 0 (outer_chunk inner) None) in
  with_function vm (mkFunction 0 0 (closures_chunk outer) None).


(** In [outer], before [OP_RETURN]; [x] is captured. *)
Definition at_return : VM := fst (after 4 closures_loaded).

(** In the script, before its [OP_RETURN]. *)
Definition at_end : VM := fst (after 7 closures_loaded).

(** [x = nil;] with no global [x]. *)
Definition assign_chunk (name : ObjRef) : Chunk :=
  chunk_of [op OP_NIL; op OP_SET_GLOBAL; 0; op OP_POP; op OP_NIL; op OP_RETURN]
    [OBJECT_VALUE name].

Definition assign_loaded (name : String.string) : VM * ObjRef :=
  match copy_string sz started name with
  | Some (vm, s) => with_function vm (mkFunction 0 0 (assign_chunk s) None)
  | None => (zero_vm, O)
  end.

(** Before [OP_SET_GLOBAL] of the name. *)
Definition at_set_global (name : String.string) : VM := fst (after 1 (assign_loaded name)).

(** [class A {} A(nil);] without the definition of the global. *)
Definition class_chunk (name : ObjRef) : Chunk :=
  chunk_of [op OP_CLASS; 0; op OP_NIL; op OP_CALL; 1; op OP_POP; op OP_NIL; op OP_RETURN]
    [OBJECT_VALUE name].

Definition class_loaded : VM * ObjRef :=
  match copy_string sz started "A"%string with
  | Some (vm, s) => with_function vm (mkFunction 0 0 (class_chunk s) None)
  | None => (zero_vm, O)
  end.

(** Before [OP_CALL 1] on the class. *)
Definition at_call : VM := fst (after 2 class_loaded).

(** A string that nothing refers to. *)
Definition with_garbage : VM :=
  match copy_string sz started "garbage"%string with
  | Some (vm, _) => vm
  | None => zero_vm
  end.

(** A table with two keys on one probe sequence. *)
Definition key_hash (k : ObjRef) : Z := Z.of_nat k.

Definition colliding : Table :=
  match table_set key_hash init_table 1%nat (BOOL_VALUE false) with
  | Some (t, _) =>
      match table_set key_hash t 9%nat NIL_VALUE with
      | Some (t, _) => t
      | None => init_table
      end
  | None => init_table
  end.

(** [strtod] on a decimal literal without sign, fraction or exponent. *)
Fixpoint digits_value (s : String.string) (acc : Z) : Z :=
  match s with
  | String.EmptyString => acc
  | String.String c rest =>
      let n := Z.of_N (Ascii.N_of_ascii c) in
      if (48 <=? n) && (n <=? 57) then digits_value rest (10 * acc + (n - 48)) else acc
  end.

Definition strtod (s : String.string) : spec_float := int_to_double (digits_value s 0).

(** A token on line 1. *)
Definition token (type : compiler.TokenType) (start : String.string) : compiler.Token :=
  compiler.mkToken type start 1.

(** [true and false;] *)
Definition and_source : list compiler.Token :=
  [token compiler.TOKEN_TRUE "true"; token compiler.TOKEN_AND "and";
   token compiler.TOKEN_FALSE "false"; token compiler.TOKEN_SEMICOLON ";";
   token compiler.TOKEN_EOF ""].

(** [true 0 false;] *)
Definition number_source : list compiler.Token :=
  [token compiler.TOKEN_TRUE "true"; token compiler.TOKEN_NUMBER "0";
   token compiler.TOKEN_FALSE "false"; token compiler.TOKEN_SEMICOLON ";";
   token compiler.TOKEN_EOF ""].

(** [fun outer() { var x = true; fun inner() { return x; } return inner; }
    outer();] *)
Definition closures_source : list compiler.Token :=
  [token compiler.TOKEN_FUN "fun"; token compiler.TOKEN_IDENTIFIER "outer";
   token compiler.TOKEN_LEFT_PAREN "("; token compiler.TOKEN_RIGHT_PAREN ")";
   token compiler.TOKEN_LEFT_BRACE "{";
   token compiler.TOKEN_VAR "var"; token compiler.TOKEN_IDENTIFIER "x";
   token compiler.TOKEN_EQUAL "="; token compiler.TOKEN_TRUE "true";
   token compiler.TOKEN_SEMICOLON ";";
   token compiler.TOKEN_FUN "fun"; token compiler.TOKEN_IDENTIFIER "inner";
   token compiler.TOKEN_LEFT_PAREN "("; token compiler.TOKEN_RIGHT_PAREN ")";
   token compiler.TOKEN_LEFT_BRACE "{";
   token compiler.TOKEN_RETURN "return"; token compiler.TOKEN_IDENTIFIER "x";
   token compiler.TOKEN_SEMICOLON ";"; token compiler.TOKEN_RIGHT_BRACE "}";
   token compiler.TOKEN_RETURN "return"; token compiler.TOKEN_IDENTIFIER "inner";
   token compiler.TOKEN_SEMICOLON ";"; token compiler.TOKEN_RIGHT_BRACE "}";
   token compiler.TOKEN_IDENTIFIER "outer"; token compiler.TOKEN_LEFT_PAREN "(";
   token compiler.TOKEN_RIGHT_PAREN ")"; token compiler.TOKEN_SEMICOLON ";";
   token compiler.TOKEN_EOF ""].

(** The code of the function, when [compile] returns one. *)
Definition compiled_code (result : option (option ObjRef * compiler.State))
    : option (list Z) :=
  match result with
  | Some (Some f, st) =>
      match AS_FUNCTION (heap (compiler.st_vm st)) f with
      | Some fn => Some (ch_code (chunk fn))
      | None => None
      end
  | _ => None
  end.

End Examples.

(** * Facts about the hash table *)

Lemma probe_range h cap n : 0 < cap -> 0 <= probe h cap n < cap.
Proof. intros; unfold probe; apply Z.mod_pos_bound; lia. Qed.

Lemma probe_step h cap n : 0 < cap -> (probe h cap n + 1) mod cap = probe h cap (n + 1).
Proof.
  intros; unfold probe.
  rewrite Zplus_mod_idemp_l. f_equal; lia.
Qed.

Lemma probe_zero h cap : probe h cap 0 = h mod cap.
Proof. unfold probe; f_equal; lia. Qed.

Lemma probe_inj h cap n m :
  0 <= n < cap -> 0 <= m < cap -> probe h cap n = probe h cap m -> n = m.
Proof.
  unfold probe; intros Hn Hm E.
  assert (D : (n - m) mod cap = 0).
  { replace (n - m) with ((h + n) - (h + m)) by lia.
    rewrite Zminus_mod, E, Z.sub_diag. apply Z.mod_0_l; lia. }
  apply Z.mod_divide in D; [|lia].
  destruct D as [q Hq].
  assert (q = 0) by nia. lia.
Qed.

Lemma probe_surj h cap i :
  0 <= i < cap -> exists n, 0 <= n < cap /\ probe h cap n = i.
Proof.
  intros Hi. exists ((i - h) mod cap). split.
  - apply Z.mod_pos_bound; lia.
  - unfold probe. rewrite Zplus_mod_idemp_r.
    replace (h + (i - h)) with i by lia. apply Z.mod_small; lia.
Qed.

Lemma entry_at_nat es (i : nat) : entry_at es (Z.of_nat i) = es !! i.
Proof. unfold entry_at. by rewrite Nat2Z.id. Qed.

Lemma entry_at_lookup es i e :
  0 <= i -> entry_at es i = Some e -> es !! Z.to_nat i = Some e.
Proof. done. Qed.

Lemma used_nonneg es : 0 <= used es.
Proof. induction es as [|e es IH]; simpl; unfold occupied; [lia|]. destruct (is_empty e); lia. Qed.

Lemma used_le_length es : used es <= Z.of_nat (length es).
Proof.
  induction es as [|e es IH]; simpl; [lia|].
  unfold occupied; destruct (is_empty e); lia.
Qed.

Lemma used_insert es (i : nat) e e' :
  es !! i = Some e -> used (<[i := e']> es) = used es - occupied e + occupied e'.
Proof.
  revert i; induction es as [|x es IH]; intros [|i] H; simpl in *; try done.
  - injection H as ->. lia.
  - rewrite (IH i H). lia.
Qed.

Lemma used_replicate n : used (replicate n (mkEntry None NIL_VALUE)) = 0.
Proof. induction n; simpl; [done|]. rewrite IHn. done. Qed.

(** Pigeonhole: an array with fewer used entries than slots has an empty
    slot. *)
Lemma exists_empty es :
  used es < Z.of_nat (length es) ->
  exists (i : nat) (e : Entry), es !! i = Some e /\ is_empty e = true.
Proof.
  induction es as [|x es IH]; simpl; [lia|].
  intros H. destruct (is_empty x) eqn:E.
  - exists 0%nat, x. done.
  - unfold occupied in H; rewrite E in H.
    destruct IH as (i & e & Hi & He); [lia|].
    exists (S i), e. done.
Qed.

(** The least natural number below a bound at which a decidable property
    holds. *)
Lemma least_witness (P : Z -> Prop) (dec : forall n, {P n} + {~ P n}) (b : Z) :
  0 <= b -> P b ->
  exists n, 0 <= n <= b /\ P n /\ forall m, 0 <= m < n -> ~ P m.
Proof.
  intros Hb HP.
  assert (G : forall k : nat, (forall m, 0 <= m < Z.of_nat k -> ~ P m) \/
                       exists n, 0 <= n < Z.of_nat k /\ P n /\ forall m, 0 <= m < n -> ~ P m).
  { induction k as [|k [IH|IH]].
    - left; intros; lia.
    - destruct (dec (Z.of_nat k)) as [Y|N].
      + right. exists (Z.of_nat k). repeat split; [lia|lia|done|].
        intros m Hm. apply IH. lia.
      + left. intros m Hm. destruct (Z.eq_dec m (Z.of_nat k)) as [->|]; [done|].
        apply IH; lia.
    - right. destruct IH as (n & Hn & HPn & Hmin). exists n. repeat split; try lia; done. }
  destruct (G (Z.to_nat b)) as [A|(n & Hn & HPn & Hmin)].
  - exists b. repeat split; try lia; [done|]. intros m Hm. apply A. lia.
  - exists n. repeat split; try lia; done.
Qed.

Section table_facts.

Variable key_hash : ObjRef -> Z.

Lemma passes_tombstone es k i e :
  entry_at es i = Some e -> key e = None -> IS_NIL (value e) = false -> passes es k i.
Proof. intros H1 H2 H3. exists e. unfold is_empty. rewrite H2. done. Qed.

(** The search walks over entries that are passed and stops at the key. *)
Lemma find_entry_loop_found es cap k h :
  0 < cap ->
  forall (d : nat) fuel n tomb,
    (d < fuel)%nat -> 0 <= n ->
    (forall m, n <= m < n + Z.of_nat d -> passes es k (probe h cap m)) ->
    (exists e, entry_at es (probe h cap (n + Z.of_nat d)) = Some e /\ key e = Some k) ->
    find_entry_loop fuel es cap k (probe h cap n) tomb
    = Some (probe h cap (n + Z.of_nat d)).
Proof.
  intros Hcap. induction d as [|d IH]; intros fuel n tomb Hf Hn Hpass Hkey;
    (destruct fuel as [|fuel]; [lia|]); simpl.
  - rewrite Z.add_0_r in *. destruct Hkey as (e & -> & ->).
    by rewrite Nat.eqb_refl.
  - destruct (Hpass n) as (e & He & Hne & Hk); [lia|]. rewrite He.
    replace (n + Z.of_nat (S d)) with ((n + 1) + Z.of_nat d) in * by lia.
    rewrite probe_step by done.
    unfold is_empty in Hne.
    destruct (key e) as [k'|] eqn:Ek.
    + destruct (Nat.eqb_spec k' k) as [->|_]; [done|].
      apply IH; [lia|lia| |done]. intros m Hm; apply Hpass; lia.
    + rewrite Hne.
      apply IH; [lia|lia| |done]. intros m Hm; apply Hpass; lia.
Qed.

(** The search stops at the first empty entry and returns the first
    tombstone it walked over, if any, else that empty entry. *)
Lemma find_entry_loop_empty es cap k h :
  0 < cap ->
  forall (d : nat) fuel n tomb,
    (d < fuel)%nat -> 0 <= n ->
    (forall m, n <= m < n + Z.of_nat d -> passes es k (probe h cap m)) ->
    (exists e, entry_at es (probe h cap (n + Z.of_nat d)) = Some e /\ is_empty e = true) ->
    exists r, find_entry_loop fuel es cap k (probe h cap n) tomb = Some r /\
      match tomb with
      | Some t => r = t
      | None => exists m e, n <= m <= n + Z.of_nat d /\ r = probe h cap m /\
                  entry_at es r = Some e /\ key e = None /\
                  (is_empty e = true -> m = n + Z.of_nat d) /\
                  (forall m', n <= m' < m ->
                     exists e', entry_at es (probe h cap m') = Some e' /\ key e' <> None)
      end.
Proof.
  intros Hcap. induction d as [|d IH]; intros fuel n tomb Hf Hn Hpass Hemp;
    (destruct fuel as [|fuel]; [lia|]); simpl.
  - rewrite Z.add_0_r in *. destruct Hemp as (e & He & Hem). rewrite He.
    unfold is_empty in Hem. destruct (key e) eqn:Ek; [done|]. rewrite Hem.
    destruct tomb as [t|]; eexists; (split; [done|]); [done|].
    exists n, e. repeat split; try lia; try done; intros; lia.
  - destruct (Hpass n) as (e & He & Hne & Hk); [lia|]. rewrite He.
    replace (n + Z.of_nat (S d)) with ((n + 1) + Z.of_nat d) in * by lia.
    rewrite probe_step by done.
    unfold is_empty in Hne.
    destruct (key e) as [k'|] eqn:Ek.
    + destruct (Nat.eqb_spec k' k) as [->|_]; [done|].
      destruct (IH fuel (n + 1) tomb) as (r & Hr & Ht); [lia|lia| |done|].
      { intros m Hm; apply Hpass; lia. }
      exists r; split; [done|]. destruct tomb; [done|].
      destruct Ht as (m & e' & ? & ? & ? & ? & ? & Hfirst).
      exists m, e'. repeat split; try lia; try done.
      intros m' Hm'. destruct (Z.eq_dec m' n) as [->|?].
      * exists e. split; [done|]. congruence.
      * apply Hfirst. lia.
    + rewrite Hne.
      destruct (IH fuel (n + 1)
                  (match tomb with Some t => Some t | None => Some (probe h cap n) end))
        as (r & Hr & Ht); [lia|lia| |done|].
      { intros m Hm; apply Hpass; lia. }
      exists r; split; [done|]. destruct tomb; [done|]. subst r.
      exists n, e. repeat split; try lia; try done;
        first [ by (unfold is_empty; rewrite Ek, Hne) | intros; lia ].
Qed.

Lemma entry_in_range es cap i :
  cap = Z.of_nat (length es) -> 0 <= i < cap -> exists e, entry_at es i = Some e.
Proof.
  intros Hc Hi. unfold entry_at.
  destruct (lookup_lt_is_Some_2 es (Z.to_nat i)) as [e He]; [lia|]. eauto.
Qed.

Lemma entry_at_range es i e : 0 <= i -> entry_at es i = Some e -> i < Z.of_nat (length es).
Proof. intros Hi H. apply lookup_lt_Some in H. lia. Qed.

(** Under the invariant the search returns, and tells whether the key is
    in the table. *)
Lemma find_entry_spec_first es cap k :
  0 < cap -> cap = Z.of_nat (length es) -> used es < cap -> all_reachable key_hash es cap ->
  exists i e, find_entry key_hash es cap k = Some i /\ 0 <= i < cap /\
    entry_at es i = Some e /\ reachable key_hash es cap k i /\
    (key e = Some k \/ (key e = None /\ ~ bound es k)) /\
    (key e = None ->
     exists n, 0 <= n < cap /\ i = probe (key_hash k) cap n /\
       forall m, 0 <= m < n ->
         exists e', entry_at es (probe (key_hash k) cap m) = Some e' /\ key e' <> None).
Proof.
  intros Hcap Hlen Hused Hreach.
  destruct (exists_empty es) as (j & ej & Hj & Hej); [lia|].
  assert (Hjr : 0 <= Z.of_nat j < cap) by (apply lookup_lt_Some in Hj; lia).
  destruct (probe_surj (key_hash k) cap _ Hjr) as (nj & Hnj & Enj).
  set (P := fun n => exists e, entry_at es (probe (key_hash k) cap n) = Some e /\
                        (is_empty e = true \/ key e = Some k)).
  assert (dec : forall n, {P n} + {~ P n}).
  { intros n. unfold P.
    destruct (entry_at es (probe (key_hash k) cap n)) as [e|]; [|right; intros (?&?&?); done].
    destruct (is_empty e) eqn:E1; [left; eauto|].
    destruct (decide (key e = Some k)) as [E2|E2]; [left; eauto|].
    right. intros (e' & [= <-] & [?|?]); congruence. }
  destruct (least_witness P dec nj) as (n0 & Hn0 & HP0 & Hmin); [lia| |].
  { exists ej. rewrite Enj, entry_at_nat. eauto. }
  assert (Hpass : forall m, 0 <= m < n0 -> passes es k (probe (key_hash k) cap m)).
  { intros m Hm. destruct (entry_in_range es cap (probe (key_hash k) cap m)) as [e He];
      [done|by apply probe_range|].
    exists e. split; [done|].
    destruct (is_empty e) eqn:E1.
    { exfalso. apply (Hmin m Hm). exists e. eauto. }
    split; [done|]. intros E2. apply (Hmin m Hm). exists e. eauto. }
  destruct HP0 as (e0 & He0 & Hcase).
  unfold find_entry. rewrite <- probe_zero.
  destruct (is_empty e0) eqn:Eemp.
  - destruct (find_entry_loop_empty es cap k (key_hash k) Hcap (Z.to_nat n0)
                (S (Z.to_nat cap)) 0 None) as (r & Hr & m & e & Hm & -> & He & Hk & _ & Hfirst).
    + lia.
    + lia.
    + intros m Hm. apply Hpass. lia.
    + exists e0. rewrite Z.add_0_l, Z2Nat.id by lia. done.
    + rewrite Z2Nat.id in Hm by lia.
      exists (probe (key_hash k) cap m), e. split; [done|].
      split; [by apply probe_range|]. split; [done|]. split; [|split].
      * exists m. split; [lia|]. split; [done|]. intros; apply Hpass; lia.
      * right. split; [done|].
        intros (i' & e' & Hi' & Hk').
        destruct (Hreach i' e' k Hi' Hk') as (n' & Hn' & En' & Hpath).
        rewrite <- entry_at_nat, En' in Hi'.
        destruct (Z.lt_trichotomy n' n0) as [L|[E|G]].
        -- destruct (Hpass n') as (x & Hx & _ & Hxk); [lia|]. congruence.
        -- subst n'. assert (e' = e0) by congruence. subst.
           unfold is_empty in Eemp. rewrite Hk' in Eemp. done.
        -- destruct (Hpath n0) as (x & Hx & Hxe & _); [lia|]. congruence.
      * intros _. exists m. split; [lia|]. split; [done|]. intros; apply Hfirst; lia.
  - destruct Hcase as [?|Hk0]; [congruence|].
    rewrite (find_entry_loop_found es cap k (key_hash k) Hcap (Z.to_nat n0)
               (S (Z.to_nat cap)) 0 None).
    + rewrite Z.add_0_l, Z2Nat.id by lia.
      exists (probe (key_hash k) cap n0), e0. split; [done|].
      split; [by apply probe_range|]. split; [done|]. split; [|split; [by left|congruence]].
      exists n0. split; [lia|]. split; [done|]. done.
    + lia.
    + lia.
    + intros m Hm. apply Hpass. lia.
    + exists e0. rewrite Z.add_0_l, Z2Nat.id by lia. done.
Qed.

Lemma find_entry_spec es cap k :
  0 < cap -> cap = Z.of_nat (length es) -> used es < cap -> all_reachable key_hash es cap ->
  exists i e, find_entry key_hash es cap k = Some i /\ 0 <= i < cap /\
    entry_at es i = Some e /\ reachable key_hash es cap k i /\
    (key e = Some k \/ (key e = None /\ ~ bound es k)).
Proof.
  intros H1 H2 H3 H4.
  destruct (find_entry_spec_first es cap k H1 H2 H3 H4) as (i & e & ? & ? & ? & ? & ? & _).
  exists i, e. done.
Qed.

End table_facts.

(** ** What storing into one slot does *)

Lemma bound_holds es k : bound es k <-> exists v, holds es k v.
Proof.
  split.
  - intros (i & [k' v] & Hi & Hk). simpl in Hk. subst k'. exists v, i. done.
  - intros (v & i & Hi). exists i, (mkEntry (Some k) v). done.
Qed.

Lemma live_le_used es : live es <= used es.
Proof.
  induction es as [|e es IH]; simpl; [lia|].
  unfold occupied, is_empty. destruct (key e); [lia|]. destruct (IS_NIL (value e)); lia.
Qed.

Lemma live_nonneg es : 0 <= live es.
Proof. induction es as [|e es IH]; simpl; [lia|]. destruct (key e); lia. Qed.

Lemma used_zero_unbound es k : used es = 0 -> ~ bound es k.
Proof.
  induction es as [|e es IH]; simpl; intros H (i & x & Hi & Hk).
  - done.
  - pose proof (used_nonneg es). destruct i as [|i]; simpl in Hi.
    + injection Hi as ->. unfold occupied, is_empty in H. rewrite Hk in H. lia.
    + apply IH; [unfold occupied in H; destruct (is_empty e); lia|]. exists i, x. done.
Qed.

Section store_facts.

Variable key_hash : ObjRef -> Z.

(** A key sits in one slot only. *)
Lemma reach_distinct es cap (i j : nat) e e' k :
  0 < cap -> all_reachable key_hash es cap ->
  es !! i = Some e -> es !! j = Some e' -> key e = Some k -> key e' = Some k -> i = j.
Proof.
  intros Hcap Hreach Hi Hj Hk Hk'.
  destruct (Hreach i e k Hi Hk) as (n1 & Hn1 & E1 & P1).
  destruct (Hreach j e' k Hj Hk') as (n2 & Hn2 & E2 & P2).
  destruct (Z.lt_trichotomy n1 n2) as [L|[E|G]].
  - destruct (P2 n1) as (x & Hx & _ & Hxk); [lia|].
    rewrite <- E1, entry_at_nat in Hx. congruence.
  - subst. lia.
  - destruct (P1 n2) as (x & Hx & _ & Hxk); [lia|].
    rewrite <- E2, entry_at_nat in Hx. congruence.
Qed.

Lemma reach_keys_distinct_aux es :
  (forall (i j : nat) e e' k, es !! i = Some e -> es !! j = Some e' ->
      key e = Some k -> key e' = Some k -> i = j) ->
  keys_distinct es.
Proof.
  induction es as [|x es IH]; simpl; intros H; [done|]. split.
  - intros k Hk (i & e & Hi & Hke).
    specialize (H 0%nat (S i) x e k). simpl in H. by specialize (H eq_refl Hi Hk Hke).
  - apply IH. intros i j e e' k Hi Hj Hk Hk'.
    specialize (H (S i) (S j) e e' k Hi Hj Hk Hk'). lia.
Qed.

Lemma reach_keys_distinct es cap :
  0 < cap -> all_reachable key_hash es cap -> keys_distinct es.
Proof.
  intros Hcap Hreach. apply reach_keys_distinct_aux.
  intros; eapply reach_distinct; eauto.
Qed.

Lemma holds_functional es cap k v v' :
  0 < cap -> all_reachable key_hash es cap -> holds es k v -> holds es k v' -> v = v'.
Proof.
  intros Hcap Hreach (i & Hi) (j & Hj).
  assert (i = j) by (eapply reach_distinct; eauto). subst. congruence.
Qed.

(** Storing key [k] in the slot the search returned. *)
Lemma holds_store_live es cap (i : nat) e k v k' v' :
  0 < cap -> all_reachable key_hash es cap ->
  es !! i = Some e -> (key e = Some k \/ (key e = None /\ ~ bound es k)) ->
  holds (<[i := mkEntry (Some k) v]> es) k' v' <->
  (k' = k /\ v' = v) \/ (k' <> k /\ holds es k' v').
Proof.
  intros Hcap Hreach Hi Hcase. split.
  - intros (j & Hj). destruct (decide (j = i)) as [->|Hne].
    + rewrite list_lookup_insert_eq in Hj by (by eapply lookup_lt_Some).
      injection Hj as -> ->. by left.
    + rewrite list_lookup_insert_ne in Hj by done.
      right. split; [|by exists j]. intros ->.
      destruct Hcase as [Hk|[_ Hnb]].
      * apply Hne. eapply reach_distinct; eauto.
      * apply Hnb. exists j, (mkEntry (Some k) v'). done.
  - intros [[-> ->]|[Hne (j & Hj)]].
    + exists i. apply list_lookup_insert_eq. by eapply lookup_lt_Some.
    + exists j. rewrite list_lookup_insert_ne; [done|].
      intros ->. rewrite Hi in Hj. injection Hj as ->. simpl in Hcase.
      destruct Hcase as [?|[? _]]; congruence.
Qed.

Lemma passes_store_other es k (i : nat) x e :
  Z.of_nat i <> x -> 0 <= x -> passes es k x -> passes (<[i := e]> es) k x.
Proof.
  intros Hne Hx (e0 & He0 & H). exists e0. split; [|done].
  unfold entry_at in *. rewrite list_lookup_insert_ne; [done|lia].
Qed.

Lemma passes_store_here es k (i : nat) e :
  (i < length es)%nat -> is_empty e = false -> key e <> Some k ->
  passes (<[i := e]> es) k (Z.of_nat i).
Proof.
  intros Hi He Hk. exists e. split; [|done].
  rewrite entry_at_nat. by apply list_lookup_insert_eq.
Qed.

Lemma reachable_store_live es cap (i : nat) e k v :
  0 < cap -> all_reachable key_hash es cap ->
  es !! i = Some e -> (key e = Some k \/ (key e = None /\ ~ bound es k)) ->
  reachable key_hash es cap k (Z.of_nat i) ->
  all_reachable key_hash (<[i := mkEntry (Some k) v]> es) cap.
Proof.
  intros Hcap Hreach Hi Hcase Hri j e' k' Hj Hk'.
  assert (Hlt : (i < length es)%nat) by (by eapply lookup_lt_Some).
  destruct (decide (j = i)) as [->|Hne].
  - rewrite list_lookup_insert_eq in Hj by done. injection Hj as <-. simpl in Hk'.
    injection Hk' as <-.
    destruct Hri as (n & Hn & En & Hpath). exists n. split; [done|]. split; [done|].
    intros m Hm. apply passes_store_other; [| |by apply Hpath].
    + rewrite En. intros E. apply probe_inj in E; lia.
    + apply probe_range; lia.
  - rewrite list_lookup_insert_ne in Hj by done.
    assert (Hkk : k' <> k).
    { intros ->. destruct Hcase as [Hk|[_ Hnb]].
      - apply Hne. eapply reach_distinct; eauto.
      - apply Hnb. exists j, e'. done. }
    destruct (Hreach j e' k' Hj Hk') as (n & Hn & En & Hpath).
    exists n. split; [done|]. split; [done|].
    intros m Hm.
    destruct (decide (Z.of_nat i = probe (key_hash k') cap m)) as [E|E].
    + rewrite <- E. apply passes_store_here; [done|done|]. simpl. congruence.
    + apply passes_store_other; [done| |by apply Hpath]. apply probe_range; lia.
Qed.

(** Replacing a live entry by a tombstone. *)
Lemma holds_store_tombstone es cap (i : nat) e k k' v' :
  0 < cap -> all_reachable key_hash es cap ->
  es !! i = Some e -> key e = Some k ->
  holds (<[i := mkEntry None (BOOL_VALUE true)]> es) k' v' <->
  k' <> k /\ holds es k' v'.
Proof.
  intros Hcap Hreach Hi Hk. split.
  - intros (j & Hj). destruct (decide (j = i)) as [->|Hne].
    + rewrite list_lookup_insert_eq in Hj by (by eapply lookup_lt_Some). done.
    + rewrite list_lookup_insert_ne in Hj by done.
      split; [|by exists j]. intros ->. apply Hne. eapply reach_distinct; eauto.
  - intros [Hne (j & Hj)]. exists j. rewrite list_lookup_insert_ne; [done|].
    intros ->. rewrite Hi in Hj. injection Hj as ->. simpl in Hk. congruence.
Qed.

Lemma reachable_store_tombstone es cap (i : nat) e :
  0 < cap -> all_reachable key_hash es cap ->
  es !! i = Some e ->
  all_reachable key_hash (<[i := mkEntry None (BOOL_VALUE true)]> es) cap.
Proof.
  intros Hcap Hreach Hi j e' k' Hj Hk'.
  assert (Hlt : (i < length es)%nat) by (by eapply lookup_lt_Some).
  destruct (decide (j = i)) as [->|Hne].
  - rewrite list_lookup_insert_eq in Hj by done. injection Hj as <-. done.
  - rewrite list_lookup_insert_ne in Hj by done.
    destruct (Hreach j e' k' Hj Hk') as (n & Hn & En & Hpath).
    exists n. split; [done|]. split; [done|].
    intros m Hm.
    destruct (decide (Z.of_nat i = probe (key_hash k') cap m)) as [E|E].
    + rewrite <- E. apply passes_store_here; done.
    + apply passes_store_other; [done| |by apply Hpath]. apply probe_range; lia.
Qed.

End store_facts.

(** ** The table operations under the invariant *)

Section table_ops.

Variable key_hash : ObjRef -> Z.

Lemma table_wf_init : table_wf key_hash init_table.
Proof.
  split; simpl; try done; try lia; intros i e k Hi; by destruct i.
Qed.

Lemma wf_used_lt t : table_wf key_hash t -> 0 < capacity t -> used (entries t) < capacity t.
Proof. intros [Hc Hn Hl _] Hp. rewrite <- Hn. lia. Qed.

Lemma entry_eta e k : key e = Some k -> e = mkEntry (Some k) (value e).
Proof. destruct e; simpl; intros ->; done. Qed.

Lemma table_get_spec t k :
  table_wf key_hash t ->
  exists o, table_get key_hash t k = Some o /\ forall v, o = Some v <-> binding t k v.
Proof.
  intros Hwf. pose proof Hwf as [Hc Hn Hl Hr]. unfold table_get.
  destruct (Z.eqb_spec (count t) 0) as [E|E].
  - exists None. split; [done|]. intros v; split; [done|].
    intros Hb. exfalso. eapply (used_zero_unbound (entries t) k); [lia|].
    apply bound_holds. eauto.
  - pose proof (used_nonneg (entries t)).
    assert (Hcap : 0 < capacity t) by lia.
    destruct (find_entry_spec key_hash (entries t) (capacity t) k)
      as (i & e & -> & Hi & He & _ & Hcase); [done|done|by apply wf_used_lt|done|].
    rewrite He. destruct Hcase as [Hk|[Hk Hnb]]; rewrite Hk.
    + exists (Some (value e)). split; [done|]. intros v; split.
      * intros [= <-]. exists (Z.to_nat i). rewrite <- (entry_eta e k Hk). done.
      * intros Hb. f_equal. eapply holds_functional; [done|done| |done].
        exists (Z.to_nat i). rewrite <- (entry_eta e k Hk). done.
    + exists None. split; [done|]. intros v; split; [done|].
      intros Hb. exfalso. apply Hnb, bound_holds. eauto.
Qed.

Lemma table_del_spec t k :
  table_wf key_hash t ->
  exists t' b, table_del key_hash t k = Some (t', b) /\ table_wf key_hash t' /\
    (b = true <-> bound (entries t) k) /\
    count t' = count t /\ capacity t' = capacity t /\
    (forall k' v', binding t' k' v' <-> k' <> k /\ binding t k' v').
Proof.
  intros Hwf. pose proof Hwf as [Hc Hn Hl Hr]. unfold table_del.
  destruct (Z.eqb_spec (count t) 0) as [E|E].
  - exists t, false. split; [done|]. split; [done|].
    assert (~ bound (entries t) k) by (apply used_zero_unbound; lia).
    split; [done|]. split; [done|]. split; [done|].
    intros k' v'. split; [|tauto]. intros Hb. split; [|done].
    intros ->. apply H, bound_holds. eauto.
  - pose proof (used_nonneg (entries t)).
    assert (Hcap : 0 < capacity t) by lia.
    destruct (find_entry_spec key_hash (entries t) (capacity t) k)
      as (i & e & -> & Hi & He & _ & Hcase); [done|done|by apply wf_used_lt|done|].
    rewrite He. destruct Hcase as [Hk|[Hk Hnb]]; rewrite Hk.
    + eexists _, true. split; [done|].
      assert (Hb : bound (entries t) k) by (exists (Z.to_nat i), e; done).
      split; [|split; [done|split; [done|split; [done|]]]].
      * split; simpl.
        -- unfold store. by rewrite length_insert.
        -- unfold store. rewrite (used_insert _ _ e) by done.
           unfold occupied, is_empty. rewrite Hk. simpl. lia.
        -- done.
        -- unfold store. by eapply reachable_store_tombstone.
      * intros k' v'. unfold binding, store. simpl.
        by eapply holds_store_tombstone.
    + exists t, false. split; [done|]. split; [done|]. split; [done|].
      split; [done|]. split; [done|].
      intros k' v'. split; [|tauto]. intros Hb. split; [|done].
      intros ->. apply Hnb, bound_holds. eauto.
Qed.

Lemma holds_cons_nokey e es k v :
  key e = None -> (holds (e :: es) k v <-> holds es k v).
Proof.
  intros Hk. split.
  - intros ([|i] & Hi); simpl in Hi; [|by exists i].
    injection Hi as ->. done.
  - intros (i & Hi). by exists (S i).
Qed.

Lemma holds_cons_key e es k0 k v :
  key e = Some k0 ->
  (holds (e :: es) k v <-> (k = k0 /\ v = value e) \/ holds es k v).
Proof.
  intros Hk. split.
  - intros ([|i] & Hi); simpl in Hi; [|right; by exists i].
    injection Hi as ->. simpl in *. left. split; congruence.
  - intros [[-> ->]|(i & Hi)]; [|by exists (S i)].
    exists 0%nat. simpl. by rewrite <- entry_eta.
Qed.

Lemma rehash_spec cap :
  0 < cap ->
  forall old es cnt,
    cap = Z.of_nat (length es) -> all_reachable key_hash es cap -> no_tombstone es ->
    cnt = used es -> used es + live old < cap -> keys_distinct old ->
    (forall k, bound old k -> ~ bound es k) ->
    exists es', rehash key_hash old es cap cnt = Some (es', used es') /\
      length es' = length es /\ all_reachable key_hash es' cap /\ no_tombstone es' /\
      used es' = used es + live old /\
      forall k v, holds es' k v <-> holds es k v \/ holds old k v.
Proof.
  intros Hcap. induction old as [|entry rest IH];
    intros es cnt Hlen Hreach Hnt Hcnt Hroom Hdist Hfresh; simpl in *.
  - exists es. subst cnt. repeat split; try done; try lia.
    + by left.
    + intros [?|(i & Hi)]; [done|]. by destruct i.
  - destruct Hdist as [Hhead Hdist].
    pose proof (live_nonneg rest) as Hlr.
    destruct (key entry) as [k0|] eqn:Ek.
    + destruct (find_entry_spec key_hash es cap k0)
        as (i & e & -> & Hi & He & Hri & Hcase); [done|done|lia|done|].
      assert (Hnb : ~ bound es k0).
      { apply Hfresh. exists 0%nat, entry. done. }
      destruct Hcase as [Hk|[Hk _]].
      { exfalso. apply Hnb. exists (Z.to_nat i), e. done. }
      assert (Hemp : is_empty e = true).
      { pose proof (Hnt _ _ He) as T. unfold is_tombstone, is_empty in *.
        rewrite Hk in *. by destruct (IS_NIL (value e)). }
      set (es1 := store es i (mkEntry (Some k0) (value entry))).
      assert (Hu1 : used es1 = used es + 1).
      { unfold es1, store. rewrite (used_insert _ _ e) by done.
        unfold occupied. rewrite Hemp. simpl. lia. }
      assert (Hh1 : forall k v, holds es1 k v <->
                 (k = k0 /\ v = value entry) \/ (k <> k0 /\ holds es k v)).
      { intros k v. unfold es1, store. eapply holds_store_live; eauto. }
      destruct (IH es1 (cnt + 1)) as (es' & Hes' & Hl' & Hr' & Hnt' & Hu' & Hh').
      * unfold es1, store. by rewrite length_insert.
      * unfold es1, store. eapply reachable_store_live; eauto.
        by rewrite Z2Nat.id by lia.
      * intros j x Hj. unfold es1, store in Hj.
        destruct (decide (j = Z.to_nat i)) as [->|Hne].
        -- rewrite list_lookup_insert_eq in Hj by (by eapply lookup_lt_Some).
           injection Hj as <-. done.
        -- rewrite list_lookup_insert_ne in Hj by done. eauto.
      * lia.
      * lia.
      * done.
      * intros k Hbk Hb1. apply bound_holds in Hb1 as [v Hv].
        apply Hh1 in Hv as [[-> _]|[_ Hv]].
        -- by apply (Hhead k0).
        -- apply (Hfresh k).
           ++ destruct Hbk as (j & x & ? & ?). exists (S j), x. done.
           ++ apply bound_holds. eauto.
      * exists es'. split; [done|]. split.
        { rewrite Hl'. unfold es1, store. by rewrite length_insert. }
        split; [done|]. split; [done|]. split; [lia|].
        intros k v. rewrite Hh', Hh1, (holds_cons_key entry rest k0 k v Ek).
        split.
        -- intros [[?|[_ ?]]|?]; tauto.
        -- intros [H|[H|H]]; [|tauto|tauto].
           left. right. split; [|done]. intros ->.
           apply Hnb, bound_holds. eauto.
    + destruct (IH es cnt) as (es' & Hes' & Hl' & Hr' & Hnt' & Hu' & Hh'); try done.
      * intros k (j & x & Hj & Hx). apply Hfresh. exists (S j), x. done.
      * exists es'. repeat split; try done.
        -- intros H. apply Hh' in H. rewrite holds_cons_nokey; done.
        -- intros H. apply Hh'. rewrite holds_cons_nokey in H; done.
Qed.

Lemma adjust_capacity_spec t cap :
  table_wf key_hash t -> 0 < cap -> live (entries t) < cap ->
  exists t1, adjust_capacity key_hash t cap = Some t1 /\
    capacity t1 = cap /\ cap = Z.of_nat (length (entries t1)) /\
    count t1 = used (entries t1) /\ used (entries t1) = live (entries t) /\
    all_reachable key_hash (entries t1) cap /\ no_tombstone (entries t1) /\
    forall k v, binding t1 k v <-> binding t k v.
Proof.
  intros Hwf Hcap Hlive. pose proof Hwf as [Hc Hn Hl Hr].
  unfold adjust_capacity.
  rewrite firstn_all2 by lia.
  set (fresh := replicate (Z.to_nat cap) (mkEntry None NIL_VALUE)).
  assert (Hfresh : forall (i : nat) e, fresh !! i = Some e -> e = mkEntry None NIL_VALUE).
  { intros i e Hi. apply lookup_replicate in Hi as [-> _]. done. }
  destruct (rehash_spec cap Hcap (entries t) fresh 0)
    as (es' & -> & Hl' & Hr' & Hnt' & Hu' & Hh').
  - unfold fresh. rewrite length_replicate. lia.
  - intros i e k Hi Hk. apply Hfresh in Hi as ->. done.
  - intros i e Hi. apply Hfresh in Hi as ->. done.
  - unfold fresh. by rewrite used_replicate.
  - unfold fresh. rewrite used_replicate. lia.
  - destruct (entries t) as [|x l] eqn:El; [done|].
    apply (reach_keys_distinct key_hash _ (capacity t)); [|done].
    rewrite Hc. simpl. lia.
  - intros k _ (i & e & Hi & Hk). apply Hfresh in Hi as ->. done.
  - eexists. split; [done|]. simpl.
    split; [done|]. split.
    { rewrite Hl'. unfold fresh. rewrite length_replicate. lia. }
    split; [done|]. split.
    { rewrite Hu'. unfold fresh. rewrite used_replicate. lia. }
    split; [done|]. split; [done|].
    intros k v. unfold binding. simpl. rewrite Hh'. split; [|tauto].
    intros [(i & Hi)|?]; [|done]. apply Hfresh in Hi. done.
Qed.

Lemma table_set_spec t k v :
  table_wf key_hash t ->
  exists t' b, table_set key_hash t k v = Some (t', b) /\ table_wf key_hash t' /\
    (b = true <-> ~ bound (entries t) k) /\
    (forall k' v', binding t' k' v' <-> (k' = k /\ v' = v) \/ (k' <> k /\ binding t k' v')).
Proof.
  intros Hwf. pose proof Hwf as [Hc Hn Hl Hr].
  pose proof (used_nonneg (entries t)) as Hu0.
  pose proof (live_le_used (entries t)) as Hlu.
  unfold table_set.
  assert (exists t1,
    (if over_load t
     then adjust_capacity key_hash t (GROW_CAPACITY (capacity t))
     else Some t) = Some t1 /\
    capacity t1 = Z.of_nat (length (entries t1)) /\
    count t1 = used (entries t1) /\
    4 * (count t1 + 1) <= 3 * capacity t1 /\
    all_reachable key_hash (entries t1) (capacity t1) /\
    forall k v, binding t1 k v <-> binding t k v) as
    (t1 & -> & Hc1 & Hn1 & Hl1 & Hr1 & Hb1).
  { unfold over_load. destruct (Z.ltb_spec (3 * capacity t) (4 * (count t + 1))) as [L|L].
    - assert (Hg : 0 < GROW_CAPACITY (capacity t) /\
                   4 * (live (entries t) + 1) <= 3 * GROW_CAPACITY (capacity t)).
      { unfold GROW_CAPACITY. destruct (Z.ltb_spec (capacity t) 8); lia. }
      destruct (adjust_capacity_spec t (GROW_CAPACITY (capacity t)))
        as (t1 & -> & E1 & E2 & E3 & E4 & E5 & _ & E6); [done|lia|lia|].
      exists t1. rewrite E1. repeat split; try done; try lia; by apply E6.
    - exists t. repeat split; try done; lia. }
  pose proof (used_nonneg (entries t1)) as Hu1.
  assert (Hcap : 0 < capacity t1) by lia.
  destruct (find_entry_spec key_hash (entries t1) (capacity t1) k)
    as (i & e & -> & Hi & He & Hri & Hcase); [done|done|lia|done|].
  rewrite He. eexists _, _. split; [done|].
  assert (Hused : used (store (entries t1) i (mkEntry (Some k) v))
                  = used (entries t1) - occupied e + 1).
  { unfold store. rewrite (used_insert _ _ e) by done. done. }
  split; [|split].
  - split; simpl.
    + unfold store. by rewrite length_insert.
    + rewrite Hused. unfold occupied, is_empty.
      destruct (key e); simpl; [lia|]. destruct (IS_NIL (value e)); simpl; lia.
    + destruct (match key e with Some _ => false | None => true end && IS_NIL (value e)); lia.
    + unfold store. eapply reachable_store_live; eauto. by rewrite Z2Nat.id by lia.
  - assert (Hbb : bound (entries t1) k <-> bound (entries t) k).
    { rewrite !bound_holds. split; intros [x Hx]; exists x; by apply Hb1. }
    rewrite <- Hbb. destruct Hcase as [Hk|[Hk Hnb]]; rewrite Hk.
    + split; [done|]. intros H. exfalso. apply H. exists (Z.to_nat i), e. done.
    + done.
  - intros k' v'. unfold binding at 1. simpl. unfold store.
    rewrite (holds_store_live key_hash (entries t1) (capacity t1) _ e k v k' v'
               Hcap Hr1 He Hcase).
    split; (intros [?|[? ?]]; [by left|right; split; [done|by apply Hb1]]).
Qed.

(** Two well-formed tables with the same bindings answer every lookup
    alike. *)
Lemma table_get_ext t t' k :
  table_wf key_hash t -> table_wf key_hash t' ->
  (forall v, binding t' k v <-> binding t k v) ->
  table_get key_hash t' k = table_get key_hash t k.
Proof.
  intros Hwf Hwf' Hb.
  destruct (table_get_spec t k Hwf) as (o & -> & Ho).
  destruct (table_get_spec t' k Hwf') as (o' & -> & Ho').
  f_equal. destruct o as [v|], o' as [v'|]; try done.
  - f_equal. assert (Some v = Some v') as [= ->]; [|done].
    apply Ho. apply Hb. by apply Ho'.
  - assert (@None Value = Some v) by (apply Ho', Hb; by apply Ho). done.
  - assert (@None Value = Some v') by (apply Ho, Hb; by apply Ho'). done.
Qed.

Lemma table_get_bound t k v :
  table_wf key_hash t -> binding t k v -> table_get key_hash t k = Some (Some v).
Proof.
  intros Hwf Hb. destruct (table_get_spec t k Hwf) as (o & -> & Ho).
  f_equal. by apply Ho.
Qed.

Lemma table_get_unbound t k :
  table_wf key_hash t -> ~ bound (entries t) k -> table_get key_hash t k = Some None.
Proof.
  intros Hwf Hb. destruct (table_get_spec t k Hwf) as (o & -> & Ho).
  f_equal. destruct o as [v|]; [|done].
  exfalso. apply Hb, bound_holds. exists v. by apply Ho.
Qed.

(** Deleting a key that is there: its slot becomes a tombstone. *)
Lemma table_del_present t k v :
  table_wf key_hash t -> binding t k v ->
  exists i : nat,
    entries t !! i = Some (mkEntry (Some k) v) /\
    table_del key_hash t k
    = Some (mkTable (count t) (capacity t)
              (<[i := mkEntry None (BOOL_VALUE true)]> (entries t)), true).
Proof.
  intros Hwf Hb. pose proof Hwf as [Hc Hn Hl Hr]. unfold table_del.
  destruct (Z.eqb_spec (count t) 0) as [E|E].
  { exfalso. eapply (used_zero_unbound (entries t) k); [lia|].
    apply bound_holds. eauto. }
  pose proof (used_nonneg (entries t)).
  assert (Hcap : 0 < capacity t) by lia.
  destruct (find_entry_spec key_hash (entries t) (capacity t) k)
    as (i & e & -> & Hi & He & _ & Hcase); [done|done|by apply wf_used_lt|done|].
  rewrite He. destruct Hcase as [Hk|[Hk Hnb]].
  - rewrite Hk. exists (Z.to_nat i). split; [|done].
    rewrite (entry_eta e k Hk) in He.
    assert (value e = v) as <-; [|done].
    eapply holds_functional; [exact Hcap|exact Hr| |exact Hb].
    by exists (Z.to_nat i).
  - exfalso. apply Hnb, bound_holds. eauto.
Qed.

(** A new key stored over a tombstone leaves [count] as it is. *)
Lemma table_set_over_tombstone t k v j e :
  over_load t = false ->
  find_entry key_hash (entries t) (capacity t) k = Some j ->
  entry_at (entries t) j = Some e ->
  is_tombstone e = true ->
  table_set key_hash t k v
  = Some (mkTable (count t) (capacity t) (store (entries t) j (mkEntry (Some k) v)), true).
Proof.
  intros Hl Hf He Ht. unfold table_set. rewrite Hl, Hf, He.
  unfold is_tombstone in Ht. destruct (key e); [done|].
  destruct (IS_NIL (value e)); [done|]. reflexivity.
Qed.

(** The search for an absent key returns the first tombstone on its probe
    sequence; here the tombstone is where the sequence starts. *)
Lemma find_entry_first_tombstone t k (i : nat) e :
  table_wf key_hash t -> 0 < capacity t ->
  entries t !! i = Some e -> is_tombstone e = true ->
  ~ bound (entries t) k ->
  key_hash k mod capacity t = Z.of_nat i ->
  find_entry key_hash (entries t) (capacity t) k = Some (Z.of_nat i).
Proof.
  intros Hwf Hcap Hi Ht Hnb Hh. pose proof Hwf as [Hc Hn Hl Hr].
  destruct (find_entry_spec_first key_hash (entries t) (capacity t) k)
    as (j & x & -> & Hj & Hx & _ & Hcase & Hfirst); [done|done|by apply wf_used_lt|done|].
  f_equal. destruct Hcase as [Hk|[Hk _]].
  { exfalso. apply Hnb. exists (Z.to_nat j), x. done. }
  destruct (Hfirst Hk) as (n & Hnr & -> & Hbefore).
  destruct (Z.eq_dec n 0) as [->|Hn0].
  - by rewrite probe_zero.
  - destruct (Hbefore 0) as (e' & He' & Hke'); [lia|].
    rewrite probe_zero, Hh, entry_at_nat, Hi in He'. injection He' as <-.
    unfold is_tombstone in Ht. by destruct (key e).
Qed.

End table_ops.

(** A table whose every key sits on the slot its hash names is reachable
    throughout. *)
Lemma all_reachable_home (key_hash : ObjRef -> Z) es cap :
  0 < cap ->
  (forall (i : nat) (e : Entry) (k : ObjRef),
     es !! i = Some e -> key e = Some k -> Z.of_nat i = key_hash k mod cap) ->
  all_reachable key_hash es cap.
Proof.
  intros Hcap Hhome i e k Hi Hk. exists 0. split; [lia|]. split.
  - unfold probe. rewrite Z.add_0_r. by eapply Hhome.
  - intros m Hm. lia.
Qed.

(** * Facts about the heap and the open upvalues *)

(** Reduce the field reads of an updated [VM]. *)
Ltac vm_simpl :=
  cbn [frame_count frames stack stack_top heap objects strings
    globals open_upvalues gray_stack init_string bytes_allocated next_gc printed fst snd
    reallocate stack_push stack_write reset_stack runtime_error
    set_frame_count set_frames set_stack set_stack_top set_heap set_objects
    set_strings set_globals set_open_upvalues set_gray_stack set_init_string
    set_bytes_allocated set_next_gc set_printed].
Ltac vm_simpl_in H :=
  cbn [frame_count frames stack stack_top heap objects strings
    globals open_upvalues gray_stack init_string bytes_allocated next_gc printed fst snd
    reallocate stack_push stack_write reset_stack runtime_error
    set_frame_count set_frames set_stack set_stack_top set_heap set_objects
    set_strings set_globals set_open_upvalues set_gray_stack set_init_string
    set_bytes_allocated set_next_gc set_printed] in H.

Lemma fresh_ref_None (h : gmap nat Object) : h !! fresh_ref h = None.
Proof. unfold fresh_ref. apply not_elem_of_dom, is_fresh. Qed.

Lemma fresh_ref_ne (h : gmap nat Object) r o : h !! r = Some o -> r <> fresh_ref h.
Proof. intros H ->. rewrite fresh_ref_None in H. done. Qed.

Lemma AS_UPVALUE_insert_ne (h : gmap nat Object) r o u :
  r <> u -> AS_UPVALUE (<[r := o]> h) u = AS_UPVALUE h u.
Proof. intros. unfold AS_UPVALUE. by rewrite lookup_insert_ne. Qed.

Lemma AS_UPVALUE_Some_lookup h u uv :
  AS_UPVALUE h u = Some uv -> exists m, h !! u = Some (mkObject m (OBJECT_UPVALUE uv)).
Proof.
  unfold AS_UPVALUE. destruct (h !! u) as [[m []]|]; try done.
  intros [= ->]. eauto.
Qed.

Lemma open_slot_Some h u l :
  open_slot h u = Some l -> exists v, AS_UPVALUE h u = Some (mkUpvalue (StackSlot l) v).
Proof.
  unfold open_slot. destruct (AS_UPVALUE h u) as [[[l'|] v]|]; try done.
  intros [= ->]. eauto.
Qed.

Lemma open_slot_insert_ne (h : gmap nat Object) r o u :
  r <> u -> open_slot (<[r := o]> h) u = open_slot h u.
Proof. intros. unfold open_slot. by rewrite AS_UPVALUE_insert_ne. Qed.


Lemma open_slots_frame h h' open ls :
  (forall u, u ∈ open -> open_slot h' u = open_slot h u) ->
  open_slots h open ls -> open_slots h' open ls.
Proof.
  intros Hf H. induction H as [|u l open ls Hu H IH]; [constructor|].
  constructor.
  - rewrite Hf; [done|]. by left.
  - apply IH. intros u' Hu'. apply Hf. by right.
Qed.

Section vm_facts.

Variable sz : Sizeof.

(** *** [capture_upvalue] *)





(** *** [close_upvalues] *)

Lemma open_slots_lookup h open ls u :
  open_slots h open ls -> u ∈ open -> exists l, l ∈ ls /\ open_slot h u = Some l.
Proof.
  intros H Hu. apply list_elem_of_lookup in Hu as [i Hi].
  destruct (Forall2_lookup_l _ _ _ _ _ H Hi) as (l & Hl & Hs).
  exists l. split; [|done]. by eapply list_elem_of_lookup_2.
Qed.

Lemma close_upvalues_loop_spec stk last open ls :
  forall h, open_slots h open ls -> StronglySorted Z.gt ls ->
  exists h' kept lk,
    close_upvalues_loop stk h open last = Some (h', kept) /\
    open_slots h' kept lk /\ StronglySorted Z.gt lk /\
    (forall u, u ∈ kept -> u ∈ open) /\
    (forall u l, u ∈ open -> open_slot h u = Some l ->
       (last <= l ->
          closed_with h' u (match stk !! l with Some v => v | None => NIL_VALUE end) /\
          u ∉ kept) /\
       (l < last -> u ∈ kept /\ open_slot h' u = Some l)) /\
    (forall r, r ∉ open -> h' !! r = h !! r).
Proof.
  revert ls. induction open as [|u open IH]; intros ls h Hls Hs; simpl.
  - exists h, [], []. repeat split; try done; try constructor; set_solver.
  - inversion Hls as [|? l ? ls' Hu Hrest]; subst.
    apply StronglySorted_inv in Hs as [Hs Hall].
    apply open_slot_Some in Hu as Hu'. destruct Hu' as [v Hv]. rewrite Hv.
    assert (Hlt : forall u' l', u' ∈ open -> open_slot h u' = Some l' -> l' < l).
    { intros u' l' Hin Hl'.
      destruct (open_slots_lookup _ _ _ _ Hrest Hin) as (l2 & Hl2 & E).
      assert (l2 = l') by congruence. subst.
      rewrite Forall_forall in Hall. specialize (Hall _ Hl2). lia. }
    assert (Hnotin : u ∉ open).
    { intros Hin. specialize (Hlt _ _ Hin Hu). lia. }
    destruct (Z.geb_spec l last) as [G|G].
    + apply AS_UPVALUE_Some_lookup in Hv as Hlook. destruct Hlook as [m Hm].
      unfold set_payload. rewrite Hm. simpl.
      set (c := mkObject m (OBJECT_UPVALUE
               (mkUpvalue ClosedField (match stk !! l with Some v => v | None => NIL_VALUE end)))).
      assert (Hfr : forall u', u' ∈ open -> open_slot (<[u := c]> h) u' = open_slot h u').
      { intros u' Hin. apply open_slot_insert_ne. intros ->. done. }
      destruct (IH ls' (<[u := c]> h)) as (h' & kept & lk & -> & Hk & Hsk & Hsub & Hel & Hother).
      { eapply open_slots_frame; [|exact Hrest]. done. }
      { done. }
      exists h', kept, lk. split; [done|]. split; [done|]. split; [done|].
      split; [intros; right; auto|]. split.
      * intros u' l' Hin Hl'. apply elem_of_cons in Hin as [->|Hin].
        -- assert (l' = l) by congruence. subst l'. split; [|lia].
           intros _. split.
           ++ unfold closed_with, AS_UPVALUE. rewrite Hother by done.
              by rewrite lookup_insert_eq.
           ++ intros Hk'. apply Hnotin. auto.
        -- apply Hel; [done|]. by rewrite Hfr.
      * intros r Hr. rewrite Hother by set_solver.
        apply lookup_insert_ne. set_solver.
    + exists h, (u :: open), (l :: ls'). split; [done|]. split; [done|].
      split; [by constructor|]. split; [done|]. split; [|done].
      intros u' l' Hin Hl'. split; [|done].
      intros Hge. exfalso. apply elem_of_cons in Hin as [->|Hin].
      * assert (l' = l) by congruence. lia.
      * specialize (Hlt _ _ Hin Hl'). lia.
Qed.

Lemma close_upvalues_spec vm last :
  open_upvalues_sorted vm ->
  exists vm',
    close_upvalues vm last = Some vm' /\
    open_upvalues_sorted vm' /\
    (forall u, u ∈ open_upvalues vm' -> u ∈ open_upvalues vm) /\
    (forall u l, u ∈ open_upvalues vm -> open_slot (heap vm) u = Some l ->
       (last <= l -> closed_with (heap vm') u (stack_read vm l) /\
                     u ∉ open_upvalues vm') /\
       (l < last -> u ∈ open_upvalues vm' /\ open_slot (heap vm') u = Some l)) /\
    (forall r, r ∉ open_upvalues vm -> heap vm' !! r = heap vm !! r) /\
    stack vm' = stack vm /\ stack_top vm' = stack_top vm /\
    frames vm' = frames vm /\ frame_count vm' = frame_count vm /\
    globals vm' = globals vm /\ strings vm' = strings vm /\
    objects vm' = objects vm /\ bytes_allocated vm' = bytes_allocated vm.
Proof.
  intros (ls & Hls & Hs). unfold close_upvalues.
  destruct (close_upvalues_loop_spec (stack vm) last _ _ _ Hls Hs)
    as (h' & kept & lk & -> & Hk & Hsk & Hsub & Hel & Hother).
  eexists. split; [done|]. unfold open_upvalues_sorted. vm_simpl.
  split; [by exists lk|]. repeat split; try done; by apply (Hel u l).
Qed.

End vm_facts.

(** * Facts about the dispatch loop *)

(** Take apart a hypothesis [H : ... = Some _] built from binds of the
    option monad, matches and pairs. *)
Ltac opt_step H :=
  first
    [ discriminate H
    | match type of H with
      | context [mbind _ ?m] =>
          lazymatch m with
          | context [mbind] => fail
          | Some _ => fail
          | None => fail
          | _ => idtac
          end;
          let E := fresh "E" in
          destruct m eqn:E; cbn [mbind option_bind] in H
      end
    | match type of H with
      | context [mbind _ (Some _)] => cbn [mbind option_bind] in H
      | context [mbind _ None] => cbn [mbind option_bind] in H
      end
    | match type of H with
      | context [let '(_, _) := ?p in _] => destruct p
      end
    | match type of H with
      | context [if ?b then _ else _] =>
          let E := fresh "E" in destruct b eqn:E
      end ].
Ltac opt_inv H := repeat opt_step H.

Lemma READ_BYTE_spec vm frame vm1 b :
  READ_BYTE vm frame = Some (vm1, b) ->
  exists fr, frames vm !! frame = Some fr /\
    vm1 = set_frames vm (<[frame := mkCallFrame (closure fr) (ip fr + 1) (slots fr)]> (frames vm)).
Proof.
  unfold READ_BYTE, frame_function, set_ip. intros H.
  opt_inv H. injection H as <- <-. eexists. split; done.
Qed.

Lemma only_frames_refl vm : only_frames vm vm.
Proof. exists (frames vm). by destruct vm. Qed.

Lemma only_frames_trans vm1 vm2 vm3 :
  only_frames vm1 vm2 -> only_frames vm2 vm3 -> only_frames vm1 vm3.
Proof. intros [f ->] [g ->]. by exists g. Qed.

Lemma READ_BYTE_only_frames vm frame vm1 b :
  READ_BYTE vm frame = Some (vm1, b) -> only_frames vm vm1.
Proof. intros H. apply READ_BYTE_spec in H as (fr & _ & ->). by eexists. Qed.

Lemma READ_CONSTANT_only_frames vm frame vm1 v :
  READ_CONSTANT vm frame = Some (vm1, v) -> only_frames vm vm1.
Proof.
  unfold READ_CONSTANT. intros H.
  destruct (READ_BYTE vm frame) as [[vm2 i]|] eqn:E; cbn [mbind option_bind] in H; [|done].
  apply READ_BYTE_only_frames in E.
  opt_inv H. by injection H as <- <-.
Qed.

Lemma READ_STRING_only_frames vm frame vm1 r :
  READ_STRING vm frame = Some (vm1, r) -> only_frames vm vm1.
Proof.
  unfold READ_STRING. intros H.
  destruct (READ_CONSTANT vm frame) as [[vm2 v]|] eqn:E; cbn [mbind option_bind] in H; [|done].
  apply READ_CONSTANT_only_frames in E.
  opt_inv H. by injection H as <- <-.
Qed.

Lemma sorted_same_heap vm vm' :
  heap vm' = heap vm -> open_upvalues vm' = open_upvalues vm ->
  open_upvalues_sorted vm -> open_upvalues_sorted vm'.
Proof. unfold open_upvalues_sorted. by intros -> ->. Qed.

Section run_facts.

Variable sz : Sizeof.
Variable native_call : NativeFn -> Z -> list Value -> Value.

Lemma run_loop_return fuel vm frame vm' result :
  dispatch sz native_call vm frame = Some (Return vm' result) ->
  run_loop sz native_call (S fuel) vm frame = Some (vm', result).
Proof. intros H. simpl. by rewrite H. Qed.

Lemma run_loop_continue fuel vm frame vm' frame' :
  dispatch sz native_call vm frame = Some (Continue vm' frame') ->
  run_loop sz native_call (S fuel) vm frame = run_loop sz native_call fuel vm' frame'.
Proof. intros H. simpl. by rewrite H. Qed.

(** A result reached after some turns is the result of the whole loop. *)
Lemma run_loop_steps vm frame vm1 frame1 :
  steps sz native_call vm frame vm1 frame1 ->
  forall fuel res, run_loop sz native_call fuel vm1 frame1 = Some res ->
  exists fuel', run_loop sz native_call fuel' vm frame = Some res.
Proof.
  induction 1 as [|vm frame vm1 frame1 vm2 frame2 Hd Hs IH]; intros fuel res Hr.
  - eauto.
  - destruct (IH fuel res Hr) as [fuel' Hf].
    exists (S fuel'). by rewrite (run_loop_continue _ _ _ _ _ Hd).
Qed.

(** [call_value] on a class that has no method, with arguments: the
    error is reported and [true] is returned. *)
Lemma call_value_class_no_methods vm r m k arg_count :
  heap vm !! r = Some (mkObject m (OBJECT_CLASS k)) ->
  count (methods k) = 0 ->
  arg_count <> 0 ->
  exists vm',
    call_value sz native_call vm (OBJECT_VALUE r) arg_count = Some (vm', true) /\
    frame_count vm' = 0 /\ stack_top vm' = 0 /\ open_upvalues vm' = [] /\
    frames vm' = frames vm.
Proof.
  intros Hr Hc Hne. unfold call_value. rewrite Hr. cbn [payload].
  unfold new_instance, allocate_object.
  cbv beta iota zeta.
  unfold table_get_init, table_get. rewrite Hc. cbn [Z.eqb].
  destruct (Z.eqb_spec arg_count 0) as [?|_]; [done|]. cbn [negb].
  destruct (init_string _); eexists; (split; [reflexivity|]); repeat split; reflexivity.
Qed.

Lemma call_closure_arity vm r c f arg_count :
  AS_CLOSURE (heap vm) r = Some c ->
  AS_FUNCTION (heap vm) (function c) = Some f ->
  arg_count <> arity f ->
  call_value sz native_call vm (OBJECT_VALUE r) arg_count
  = Some (runtime_error vm, false).
Proof.
  intros Hc Hf Hne. unfold call_value.
  unfold AS_CLOSURE in Hc.
  destruct (heap vm !! r) as [[m []]|] eqn:Eh; try done. injection Hc as ->.
  cbn [payload]. unfold call, AS_CLOSURE. rewrite Eh, Hf.
  destruct (Z.eqb_spec arg_count (arity f)) as [?|_]; [done|]. reflexivity.
Qed.

(** *** [OP_CLOSURE] *)








Lemma dispatch_OP_RETURN vm frame vm1 :
  READ_BYTE vm frame = Some (vm1, byte_of_opcode OP_RETURN) ->
  dispatch sz native_call vm frame = op_return vm1 frame.
Proof. intros H. unfold dispatch. rewrite H. reflexivity. Qed.

Lemma dispatch_OP_CALL vm frame vm1 :
  READ_BYTE vm frame = Some (vm1, byte_of_opcode OP_CALL) ->
  dispatch sz native_call vm frame = op_call sz native_call vm1 frame.
Proof. intros H. unfold dispatch. rewrite H. reflexivity. Qed.

Lemma dispatch_OP_SET_GLOBAL vm frame vm1 :
  READ_BYTE vm frame = Some (vm1, byte_of_opcode OP_SET_GLOBAL) ->
  dispatch sz native_call vm frame = op_set_global sz vm1 frame.
Proof. intros H. unfold dispatch. rewrite H. reflexivity. Qed.


End run_facts.

(** * Facts about the string pool *)

(** The invariant of a table reads the hash of the keys it holds only. *)
Lemma reachable_ext (f g : ObjRef -> Z) es cap k i :
  f k = g k -> reachable f es cap k i -> reachable g es cap k i.
Proof.
  intros E (n & Hn & Hi & Hp). exists n. rewrite <- E. done.
Qed.

Lemma table_wf_ext (f g : ObjRef -> Z) t :
  (forall k, bound (entries t) k -> f k = g k) ->
  table_wf f t -> table_wf g t.
Proof.
  intros E [Hc Hn Hl Hr]. split; try done.
  intros i e k Hi Hk. eapply reachable_ext; [|by eapply Hr].
  apply E. exists i, e. done.
Qed.

Lemma AS_STRING_lookup h r s :
  AS_STRING h r = Some s -> exists m, h !! r = Some (mkObject m (OBJECT_STRING s)).
Proof.
  unfold AS_STRING. destruct (h !! r) as [[m []]|]; try done. intros [= ->]. eauto.
Qed.

Lemma AS_STRING_insert_ne (h : gmap nat Object) r o k :
  r <> k -> AS_STRING (<[r := o]> h) k = AS_STRING h k.
Proof. intros. unfold AS_STRING. by rewrite lookup_insert_ne. Qed.

Lemma string_hash_insert_ne (h : gmap nat Object) r o k :
  r <> k -> string_hash (<[r := o]> h) k = string_hash h k.
Proof. intros. unfold string_hash. by rewrite AS_STRING_insert_ne. Qed.

Lemma interned_unique vm chars r1 r2 :
  strings_inv vm -> interned vm chars r1 -> interned vm chars r2 -> r1 = r2.
Proof. intros [_ _ Hu]. apply Hu. Qed.

(** The three tests of [table_find_string] on a key of the pool. *)
Lemma string_matches s chars :
  string_consistent s ->
  (str_length s =? strlen chars) && (str_hash s =? hash_string chars)
    && String.eqb (str_chars s) chars = true
  <-> str_chars s = chars.
Proof.
  intros [Hh Hl]. split.
  - intros H. apply andb_prop in H as [_ H]. by apply String.eqb_eq.
  - intros <-. rewrite Hh, Hl, !Z.eqb_refl. simpl. apply String.eqb_refl.
Qed.

Section find_string.

Variable h : gmap nat Object.
Variable es : list Entry.
Variable cap : Z.
Variable chars : String.string.

Local Abbreviation skips := (skips h es chars).

Lemma table_find_string_loop_found hash :
  0 < cap ->
  forall (d : nat) fuel n k,
    (d < fuel)%nat -> 0 <= n ->
    (forall m, n <= m < n + Z.of_nat d -> skips (probe hash cap m)) ->
    (exists e s, entry_at es (probe hash cap (n + Z.of_nat d)) = Some e /\
                 key e = Some k /\ AS_STRING h k = Some s /\
                 string_consistent s /\ str_chars s = chars) ->
    table_find_string_loop fuel h es cap chars (strlen chars) (hash_string chars)
      (probe hash cap n) = Some (Some k).
Proof.
  intros Hcap. induction d as [|d IH]; intros fuel n k Hf Hn Hskip Hkey;
    (destruct fuel as [|fuel]; [lia|]); simpl.
  - rewrite Z.add_0_r in *. destruct Hkey as (e & s & -> & -> & -> & Hs & Hc).
    apply (string_matches s chars Hs) in Hc. by rewrite Hc.
  - destruct (Hskip n) as (e & He & Hcase); [lia|]. rewrite He.
    replace (n + Z.of_nat (S d)) with ((n + 1) + Z.of_nat d) in * by lia.
    rewrite probe_step by done.
    destruct (key e) as [k'|].
    + destruct Hcase as (s & -> & Hs & Hc).
      destruct ((str_length s =? strlen chars) && (str_hash s =? hash_string chars)
                && String.eqb (str_chars s) chars) eqn:E.
      { exfalso. apply Hc. by apply (string_matches s chars Hs). }
      apply IH; [lia|lia| |done]. intros m Hm; apply Hskip; lia.
    + rewrite Hcase. apply IH; [lia|lia| |done]. intros m Hm; apply Hskip; lia.
Qed.

Lemma table_find_string_loop_empty hash :
  0 < cap ->
  forall (d : nat) fuel n,
    (d < fuel)%nat -> 0 <= n ->
    (forall m, n <= m < n + Z.of_nat d -> skips (probe hash cap m)) ->
    (exists e, entry_at es (probe hash cap (n + Z.of_nat d)) = Some e /\
               is_empty e = true) ->
    table_find_string_loop fuel h es cap chars (strlen chars) (hash_string chars)
      (probe hash cap n) = Some None.
Proof.
  intros Hcap. induction d as [|d IH]; intros fuel n Hf Hn Hskip Hemp;
    (destruct fuel as [|fuel]; [lia|]); simpl.
  - rewrite Z.add_0_r in *. destruct Hemp as (e & -> & Hem).
    unfold is_empty in Hem. destruct (key e); [done|]. by rewrite Hem.
  - destruct (Hskip n) as (e & He & Hcase); [lia|]. rewrite He.
    replace (n + Z.of_nat (S d)) with ((n + 1) + Z.of_nat d) in * by lia.
    rewrite probe_step by done.
    destruct (key e) as [k'|].
    + destruct Hcase as (s & -> & Hs & Hc).
      destruct ((str_length s =? strlen chars) && (str_hash s =? hash_string chars)
                && String.eqb (str_chars s) chars) eqn:E.
      { exfalso. apply Hc. by apply (string_matches s chars Hs). }
      apply IH; [lia|lia| |done]. intros m Hm; apply Hskip; lia.
    + rewrite Hcase. apply IH; [lia|lia| |done]. intros m Hm; apply Hskip; lia.
Qed.

End find_string.

Lemma string_hash_consistent h k s :
  AS_STRING h k = Some s -> string_consistent s ->
  string_hash h k = hash_string (str_chars s).
Proof. intros Hs [Hh _]. unfold string_hash. by rewrite Hs. Qed.

(** The search of the pool returns, and finds the bytes exactly when some
    key holds them. *)
Lemma table_find_string_spec vm chars :
  strings_inv vm ->
  exists o,
    table_find_string (heap vm) (strings vm) chars (strlen chars) (hash_string chars)
    = Some o /\
    forall r, o = Some r <-> interned vm chars r.
Proof.
  intros [Hwf Hkeys Huniq]. pose proof Hwf as [Hc Hn Hl Hr].
  unfold table_find_string.
  destruct (Z.eqb_spec (count (strings vm)) 0) as [E|E].
  { exists None. split; [done|]. intros r; split; [done|].
    intros [Hb _]. exfalso. eapply used_zero_unbound; [|exact Hb]. lia. }
  pose proof (used_nonneg (entries (strings vm))).
  set (es := entries (strings vm)) in *. set (cap := capacity (strings vm)) in *.
  set (H0 := hash_string chars).
  assert (Hcap : 0 < cap) by lia.
  destruct (exists_empty es) as (j & ej & Hj & Hej); [lia|].
  assert (Hjr : 0 <= Z.of_nat j < cap) by (apply lookup_lt_Some in Hj; lia).
  destruct (probe_surj H0 cap _ Hjr) as (nj & Hnj & Enj).
  set (P := fun n => exists e, entry_at es (probe H0 cap n) = Some e /\
                       (is_empty e = true \/
                        exists k s, key e = Some k /\ AS_STRING (heap vm) k = Some s /\
                                    str_chars s = chars)).
  assert (dec : forall n, {P n} + {~ P n}).
  { intros n. unfold P.
    destruct (entry_at es (probe H0 cap n)) as [e|]; [|right; intros (?&?&?); done].
    destruct (is_empty e) eqn:E1; [left; eauto|].
    destruct (key e) as [k|] eqn:Ek.
    - destruct (AS_STRING (heap vm) k) as [s|] eqn:Es.
      + destruct (String.string_dec (str_chars s) chars) as [Y|N].
        * left. exists e. split; [done|]. right. exists k, s. done.
        * right. intros (e' & [= <-] & [?|(k' & s' & Hk' & Hs' & Hc')]); [congruence|].
          rewrite Ek in Hk'. injection Hk' as <-. congruence.
      + right. intros (e' & [= <-] & [?|(k' & s' & Hk' & Hs' & Hc')]); [congruence|].
        rewrite Ek in Hk'. injection Hk' as <-. congruence.
    - right. intros (e' & [= <-] & [?|(k' & s' & Hk' & _)]); congruence. }
  destruct (least_witness P dec nj) as (n0 & Hn0 & HP0 & Hmin); [lia| |].
  { exists ej. rewrite Enj, entry_at_nat. eauto. }
  assert (Hskip : forall m, 0 <= m < n0 -> skips (heap vm) es chars (probe H0 cap m)).
  { intros m Hm.
    destruct (entry_in_range es cap (probe H0 cap m)) as [e He];
      [done|by apply probe_range|].
    exists e. split; [done|].
    destruct (key e) as [k|] eqn:Ek.
    - destruct (Hkeys k) as (s & Hs & Hcons).
      { exists (Z.to_nat (probe H0 cap m)), e. done. }
      exists s. split; [done|]. split; [done|].
      intros Hch. apply (Hmin m Hm). exists e. split; [done|]. right. exists k, s. done.
    - destruct (IS_NIL (value e)) eqn:En; [|done].
      exfalso. apply (Hmin m Hm). exists e. split; [done|]. left.
      unfold is_empty. by rewrite Ek. }
  destruct HP0 as (e0 & He0 & Hcase).
  rewrite <- (probe_zero H0 cap).
  destruct (is_empty e0) eqn:Eemp.
  - exists None. split.
    + apply (table_find_string_loop_empty (heap vm) es cap chars H0 Hcap (Z.to_nat n0));
        [lia|lia| |].
      * intros m Hm. apply Hskip. lia.
      * exists e0. rewrite Z.add_0_l, Z2Nat.id by lia. done.
    + intros r. split; [done|]. intros [(i' & e' & Hi' & Hk') (s & Hs & Hch)]. exfalso.
      destruct (Hkeys r) as (s' & Hs' & Hcons); [by exists i', e'|].
      assert (s' = s) by congruence. subst s'.
      destruct (Hr i' e' r Hi' Hk') as (n' & Hn' & En' & Hpath).
      rewrite (string_hash_consistent _ _ _ Hs Hcons), Hch in En', Hpath. fold H0 in En', Hpath.
      rewrite <- entry_at_nat, En' in Hi'. fold es in Hi'.
      destruct (Z.lt_trichotomy n' n0) as [L|[Eq|G]].
      * apply (Hmin n'); [lia|]. exists e'. split; [done|]. right. exists r, s. done.
      * subst n'. assert (e' = e0) by congruence. subst.
        unfold is_empty in Eemp. by rewrite Hk' in Eemp.
      * destruct (Hpath n0) as (x & Hx & Hxe & _); [lia|]. congruence.
  - destruct Hcase as [?|(k0 & s0 & Hk0 & Hs0 & Hc0)]; [congruence|].
    destruct (Hkeys k0) as (s' & Hs' & Hcons).
    { exists (Z.to_nat (probe H0 cap n0)), e0. done. }
    assert (s' = s0) by congruence. subst s'.
    assert (Hint : interned vm chars k0).
    { split; [exists (Z.to_nat (probe H0 cap n0)), e0; done|]. exists s0. done. }
    exists (Some k0). split.
    + apply (table_find_string_loop_found (heap vm) es cap chars H0 Hcap (Z.to_nat n0));
        [lia|lia| |].
      * intros m Hm. apply Hskip. lia.
      * exists e0, s0. rewrite Z.add_0_l, Z2Nat.id by lia. done.
    + intros r. split; [by intros [= <-]|].
      intros Hr'. f_equal. by apply (Huniq k0 r chars).
Qed.

Lemma interned_same vm vm' chars r :
  heap vm' = heap vm -> strings vm' = strings vm ->
  interned vm chars r -> interned vm' chars r.
Proof. unfold interned. by intros -> ->. Qed.

Lemma strings_inv_same vm vm' :
  heap vm' = heap vm -> strings vm' = strings vm ->
  strings_inv vm -> strings_inv vm'.
Proof.
  intros Hh Hs [H1 H2 H3]. split.
  - by rewrite Hh, Hs.
  - by rewrite Hh, Hs.
  - intros k1 k2 chars Hk1 Hk2. apply (H3 k1 k2 chars).
    + eapply interned_same; [| |exact Hk1]; congruence.
    + eapply interned_same; [| |exact Hk2]; congruence.
Qed.

Lemma strings_inv_init vm :
  strings vm = init_table -> strings_inv vm.
Proof.
  intros E. split.
  - rewrite E. apply table_wf_init.
  - rewrite E. intros k (i & e & Hi & _). by destruct i.
  - unfold interned. rewrite E. intros k1 k2 chars [(i & e & Hi & _) _]. by destruct i.
Qed.

Section pool_facts.

Variable sz : Sizeof.

Lemma allocate_string_spec vm chars :
  strings_inv vm ->
  (forall r, ~ interned vm chars r) ->
  exists vm' r,
    allocate_string sz vm chars (strlen chars) (hash_string chars) = Some (vm', r) /\
    strings_inv vm' /\
    interned vm' chars r /\
    heap vm !! r = None /\
    (forall c r', interned vm c r' -> interned vm' c r') /\
    (forall r' o, heap vm !! r' = Some o -> heap vm' !! r' = Some o) /\
    stack_top vm' = stack_top vm /\ globals vm' = globals vm /\
    open_upvalues vm' = open_upvalues vm /\ frames vm' = frames vm /\
    frame_count vm' = frame_count vm.
Proof.
  intros Hinv Hnew. pose proof Hinv as [Hwf Hkeys Huniq].
  unfold allocate_string, allocate_object. vm_simpl.
  set (r := fresh_ref (heap vm)).
  set (o := mkObject false (OBJECT_STRING (mkString (strlen chars) chars (hash_string chars)))).
  set (h1 := <[r := o]> (heap vm)).
  assert (Hfresh : heap vm !! r = None) by apply fresh_ref_None.
  assert (Hold : forall k, bound (entries (strings vm)) k -> k <> r).
  { intros k Hb ->. destruct (Hkeys _ Hb) as (s & Hs & _).
    apply AS_STRING_lookup in Hs as [m Hs]. congruence. }
  assert (Hwf1 : table_wf (string_hash h1) (strings vm)).
  { eapply table_wf_ext; [|exact Hwf]. intros k Hb.
    symmetry. apply string_hash_insert_ne. intros E. by apply (Hold k). }
  unfold vm_table_set. vm_simpl. fold h1.
  destruct (table_set_spec (string_hash h1) (strings vm) r NIL_VALUE Hwf1)
    as (t' & b & -> & Hwf' & _ & Hbind).
  unfold stack_pop. vm_simpl.
  eexists _, r. split; [reflexivity|]. vm_simpl.
  assert (Hbound : forall k, bound (entries t') k <-> k = r \/ bound (entries (strings vm)) k).
  { intros k. rewrite !bound_holds. split.
    - intros [v Hv]. apply Hbind in Hv as [[-> _]|[_ Hv]]; [by left|right; eauto].
    - intros [->|[v Hv]].
      + exists NIL_VALUE. apply Hbind. by left.
      + exists v. apply Hbind. right. split; [|done].
        apply Hold, bound_holds. eauto. }
  assert (Hr : AS_STRING h1 r = Some (mkString (strlen chars) chars (hash_string chars))).
  { unfold AS_STRING, h1. by rewrite lookup_insert_eq. }
  assert (Hkeep : forall k, k <> r -> AS_STRING h1 k = AS_STRING (heap vm) k).
  { intros k Hk. unfold h1. by apply AS_STRING_insert_ne. }
  assert (Hint_new : forall c k,
            interned (mkVM (frame_count vm) (frames vm)
                        (<[stack_top vm := OBJECT_VALUE r]> (stack vm)) (stack_top vm + 1 - 1)
                        h1 (r :: objects vm) t' (globals vm) (open_upvalues vm)
                        (gray_stack vm) (init_string vm)
                        (bytes_allocated vm + (sizeof_ObjectString sz - 0)
                         + (table_bytes sz t' - table_bytes sz (strings vm)))
                        (next_gc vm) (printed vm)) c k <->
            (k = r /\ c = chars) \/ interned vm c k).
  { intros c k. unfold interned. vm_simpl. rewrite Hbound. split.
    - intros [[->|Hb] (s & Hs & Hc)].
      + left. rewrite Hr in Hs. injection Hs as <-. done.
      + right. split; [done|]. exists s. rewrite <- Hkeep; [done|]. by apply Hold.
    - intros [[-> ->]|[Hb (s & Hs & Hc)]].
      + split; [by left|]. eexists. split; [exact Hr|done].
      + split; [by right|]. exists s. rewrite Hkeep; [done|]. by apply Hold. }
  split; [|split; [|split; [done|split; [|split]]]].
  - split; vm_simpl.
    + done.
    + intros k Hb. apply Hbound in Hb as [->|Hb].
      * eexists. split; [exact Hr|]. split; reflexivity.
      * destruct (Hkeys k Hb) as (s & Hs & Hc). exists s. split; [|done].
        rewrite Hkeep; [done|]. by apply Hold.
    + intros k1 k2 c H1 H2. apply Hint_new in H1, H2.
      destruct H1 as [[-> ->]|H1], H2 as [[-> E2]|H2]; try done.
      * exfalso. by apply (Hnew k2).
      * exfalso. subst c. by apply (Hnew k1).
      * by apply (Huniq k1 k2 c).
  - apply Hint_new. by left.
  - intros c r' Hi. apply Hint_new. by right.
  - intros r' o' Hr'. unfold h1. rewrite lookup_insert_ne; [done|]. congruence.
  - repeat split; try done. lia.
Qed.

Lemma copy_string_spec vm chars :
  strings_inv vm ->
  exists vm' r,
    copy_string sz vm chars = Some (vm', r) /\
    strings_inv vm' /\
    interned vm' chars r /\
    (forall c r', interned vm c r' -> interned vm' c r') /\
    (forall r' o, heap vm !! r' = Some o -> heap vm' !! r' = Some o) /\
    (interned vm chars r -> heap vm' = heap vm /\ strings vm' = strings vm) /\
    stack_top vm' = stack_top vm /\ globals vm' = globals vm /\
    open_upvalues vm' = open_upvalues vm /\ frames vm' = frames vm /\
    frame_count vm' = frame_count vm.
Proof.
  intros Hinv. unfold copy_string.
  destruct (table_find_string_spec vm chars Hinv) as (o & -> & Ho).
  destruct o as [r|].
  - exists vm, r. split; [done|]. split; [done|]. split; [by apply Ho|]. done.
  - set (vm1 := reallocate vm 0 (strlen chars + 1)).
    assert (Hinv1 : strings_inv vm1) by (by apply (strings_inv_same vm)).
    destruct (allocate_string_spec vm1 chars Hinv1)
      as (vm' & r & -> & Hinv' & Hint & Hfresh & Hkeep & Hheap & Hrest).
    { intros r Hr. apply (interned_same vm1 vm) in Hr; [|done|done].
      apply Ho in Hr. done. }
    exists vm', r. split; [done|]. split; [done|]. split; [done|].
    split; [intros c r' Hi; apply Hkeep; by apply (interned_same vm)|].
    split; [done|]. split; [|done].
    intros Hi. apply Ho in Hi. done.
Qed.

Lemma take_string_spec vm chars :
  strings_inv vm ->
  exists vm' r,
    take_string sz vm chars = Some (vm', r) /\
    strings_inv vm' /\
    interned vm' chars r /\
    (forall c r', interned vm c r' -> interned vm' c r') /\
    (forall r' o, heap vm !! r' = Some o -> heap vm' !! r' = Some o) /\
    (interned vm chars r -> heap vm' = heap vm /\ strings vm' = strings vm) /\
    stack_top vm' = stack_top vm /\ globals vm' = globals vm /\
    open_upvalues vm' = open_upvalues vm /\ frames vm' = frames vm /\
    frame_count vm' = frame_count vm.
Proof.
  intros Hinv. unfold take_string.
  destruct (table_find_string_spec vm chars Hinv) as (o & -> & Ho).
  destruct o as [r|].
  - eexists _, r. split; [done|].
    split; [by apply (strings_inv_same vm)|].
    split; [apply (interned_same vm); [done|done|by apply Ho]|].
    split; [intros c r' Hi; by apply (interned_same vm)|]. done.
  - destruct (allocate_string_spec vm chars Hinv)
      as (vm' & r & -> & Hinv' & Hint & Hfresh & Hkeep & Hheap & Hrest).
    { intros r Hr. apply Ho in Hr. done. }
    exists vm', r. split; [done|]. split; [done|]. split; [done|].
    split; [done|]. split; [done|]. split; [|done].
    intros Hi. apply Ho in Hi. done.
Qed.

End pool_facts.

(** * Facts about the collector *)

Lemma marks_only_refl vm : marks_only vm vm.
Proof. split; done. Qed.

Lemma marks_only_trans vm1 vm2 vm3 :
  marks_only vm1 vm2 -> marks_only vm2 vm3 -> marks_only vm1 vm3.
Proof.
  intros [A1 A2 A3 A4 A5 A6 A7] [B1 B2 B3 B4 B5 B6 B7]. split.
  - intros r. by rewrite B1.
  - intros r Hr. auto.
  - congruence.
  - congruence.
  - congruence.
  - congruence.
  - destruct A7 as (?&?&?&?&?&?), B7 as (?&?&?&?&?&?). repeat split; congruence.
Qed.

Lemma marking_refl vm : marking vm vm.
Proof. split; [apply marks_only_refl|done]. Qed.

Lemma marking_trans vm1 vm2 vm3 : marking vm1 vm2 -> marking vm2 vm3 -> marking vm1 vm3.
Proof.
  intros [A P] [B Q]. split; [by eapply marks_only_trans|congruence].
Qed.

Lemma unmarked_count_mark (h : gmap nat Object) r o :
  h !! r = Some o -> is_marked o = false ->
  S (unmarked_count (<[r := mkObject true (payload o)]> h)) = unmarked_count h.
Proof.
  intros Hr Hm. unfold unmarked_count.
  rewrite map_filter_insert_False by (simpl; congruence).
  rewrite map_filter_delete.
  assert (Hf : filter (fun p : nat * Object => is_marked (snd p) = false) h !! r = Some o).
  { by apply map_lookup_filter_Some_2. }
  rewrite map_size_delete, Hf.
  assert (size (filter (fun p : nat * Object => is_marked (snd p) = false) h) <> 0%nat).
  { apply (map_size_ne_0_lookup_2 _ r). eauto. }
  lia.
Qed.

Lemma unmarked_count_le (h : gmap nat Object) : (unmarked_count h <= size h)%nat.
Proof. apply map_subseteq_size, map_filter_subseteq. Qed.

Lemma mark_object_marking vm o : marking vm (mark_object vm o).
Proof.
  unfold mark_object. destruct o as [r|]; [|apply marking_refl].
  destruct (heap vm !! r) as [o|] eqn:Hr; [|apply marking_refl].
  destruct (is_marked o) eqn:Hm; [apply marking_refl|].
  split; [split|]; vm_simpl; try done.
  - intros r'. destruct (decide (r' = r)) as [->|Hne].
    + by rewrite lookup_insert_eq, Hr.
    + by rewrite lookup_insert_ne.
  - intros r'. unfold marked_in. destruct (decide (r' = r)) as [->|Hne].
    + by rewrite lookup_insert_eq.
    + by rewrite lookup_insert_ne.
  - unfold gray_potential. vm_simpl. simpl.
    rewrite <- (unmarked_count_mark (heap vm) r o Hr Hm). lia.
Qed.

Lemma mark_value_marking vm v : marking vm (mark_value vm v).
Proof. destruct v; try apply marking_refl. apply mark_object_marking. Qed.

Lemma fold_left_marking {A} (f : VM -> A -> VM) (l : list A) :
  (forall vm x, marking vm (f vm x)) ->
  forall vm, marking vm (fold_left f l vm).
Proof.
  intros Hf. induction l as [|x l IH]; intros vm; simpl; [apply marking_refl|].
  eapply marking_trans; [apply Hf|apply IH].
Qed.

Lemma mark_entry_marking vm e : marking vm (mark_entry vm e).
Proof.
  unfold mark_entry.
  eapply marking_trans; [apply mark_object_marking|apply mark_value_marking].
Qed.

Lemma mark_table_marking vm t : marking vm (mark_table vm t).
Proof. apply fold_left_marking, mark_entry_marking. Qed.

Lemma mark_array_marking vm a : marking vm (mark_array vm a).
Proof. apply fold_left_marking, mark_value_marking. Qed.

Lemma mark_roots_marking vm current : marking vm (mark_roots vm current).
Proof.
  unfold mark_roots, mark_compiler_roots. cbv zeta.
  eapply marking_trans; [|apply mark_object_marking].
  eapply marking_trans;
    [|apply (fold_left_marking mark_object); apply mark_object_marking].
  eapply marking_trans; [|apply mark_table_marking].
  eapply marking_trans;
    [|apply (fold_left_marking (fun vm u => mark_object vm (Some u)));
      intros; apply mark_object_marking].
  eapply marking_trans.
  - apply (fold_left_marking (fun vm slot => mark_value vm (stack_read vm slot))).
    intros; apply mark_value_marking.
  - apply (fold_left_marking mark_frame). intros vm' i. unfold mark_frame.
    destruct (frames vm' !! i); [apply mark_object_marking|apply marking_refl].
Qed.

Lemma blacken_object_marking vm r : marking vm (blacken_object vm r).
Proof.
  unfold blacken_object. destruct (heap vm !! r) as [o|]; [|apply marking_refl].
  destruct (payload o).
  - eapply marking_trans; [apply mark_object_marking|apply mark_table_marking].
  - apply marking_refl.
  - apply marking_refl.
  - eapply marking_trans; [apply mark_object_marking|apply mark_array_marking].
  - eapply marking_trans; [apply mark_object_marking|apply mark_table_marking].
  - eapply marking_trans; [apply mark_object_marking|].
    apply (fold_left_marking mark_object), mark_object_marking.
  - apply mark_value_marking.
  - eapply marking_trans; [apply mark_value_marking|apply mark_object_marking].
Qed.

(** [trace_references] empties the gray stack within the fuel that the
    unmarked and the gray objects give. *)
Lemma trace_references_total fuel :
  forall vm,
    (gray_potential vm <= fuel)%nat ->
    exists vm', trace_references fuel vm = Some vm' /\ marks_only vm vm' /\
                gray_stack vm' = [].
Proof.
  induction fuel as [|fuel IH]; intros vm Hp.
  - unfold gray_potential in Hp. destruct (gray_stack vm) eqn:Eg; simpl in Hp; [|lia].
    exists vm. simpl. rewrite Eg. split; [done|]. split; [apply marks_only_refl|done].
  - simpl. destruct (gray_stack vm) as [|object rest] eqn:Eg.
    + exists vm. split; [done|]. split; [apply marks_only_refl|done].
    + set (vm1 := set_gray_stack vm rest).
      destruct (blacken_object_marking vm1 object) as [Hmo Hpot].
      destruct (IH (blacken_object vm1 object)) as (vm' & Ht & Hm & Hg).
      { rewrite Hpot. unfold gray_potential in *. unfold vm1. vm_simpl.
        rewrite Eg in Hp. simpl in Hp. lia. }
      exists vm'. split; [done|]. split; [|done].
      eapply marks_only_trans; [|exact Hm].
      eapply marks_only_trans; [|exact Hmo].
      unfold vm1. split; done.
Qed.

Lemma mark_phase_total vm current :
  exists vm', mark_phase vm current = Some vm' /\ marks_only vm vm' /\ gray_stack vm' = [].
Proof.
  unfold mark_phase.
  destruct (mark_roots_marking vm current) as [Hmo _].
  destruct (trace_references_total
              (size (heap (mark_roots vm current))
               + length (gray_stack (mark_roots vm current)))
              (mark_roots vm current)) as (vm' & Ht & Hm & Hg).
  { unfold gray_potential. pose proof (unmarked_count_le (heap (mark_roots vm current))). lia. }
  exists vm'. split; [done|]. split; [|done]. by eapply marks_only_trans.
Qed.

(** *** [table_remove_white] *)

Lemma whiten_live h e k v : whiten h e = mkEntry (Some k) v <-> e = mkEntry (Some k) v /\ marked_in h k = true.
Proof.
  unfold whiten. destruct e as [[k'|] v']; simpl.
  - destruct (marked_in h k') eqn:Em; split.
    + intros [= -> ->]. done.
    + intros [[= -> ->] _]. done.
    + done.
    + intros [[= -> ->] ?]. congruence.
  - split; [done|]. intros [? _]. done.
Qed.

Lemma holds_whiten h es k v :
  holds (map (whiten h) es) k v <-> holds es k v /\ marked_in h k = true.
Proof.
  unfold holds. split.
  - intros (i & Hi). rewrite list_lookup_fmap in Hi.
    destruct (es !! i) as [e|] eqn:He; [|done]. simpl in Hi. injection Hi as Hi.
    apply whiten_live in Hi as [-> Hm]. split; [by exists i|done].
  - intros [(i & Hi) Hm]. exists i. rewrite list_lookup_fmap, Hi. simpl. f_equal.
    apply whiten_live. done.
Qed.

Lemma table_remove_white_loop_spec h :
  forall n (i : nat) t,
    table_wf (string_hash h) t ->
    (i + n = length (entries t))%nat ->
    (forall k, bound (entries t) k -> is_Some (h !! k)) ->
    exists t',
      table_remove_white_loop h n (Z.of_nat i) t = Some t' /\
      table_wf (string_hash h) t' /\
      count t' = count t /\ capacity t' = capacity t /\
      entries t' = take i (entries t) ++ map (whiten h) (drop i (entries t)).
Proof.
  induction n as [|n IH]; intros i t Hwf Hlen Hheap.
  - exists t. simpl. split; [done|]. split; [done|]. split; [done|]. split; [done|].
    rewrite take_ge, drop_ge by lia. by rewrite app_nil_r.
  - simpl. rewrite entry_at_nat.
    destruct (lookup_lt_is_Some_2 (entries t) i) as [e He]; [lia|]. rewrite He.
    assert (Hsplit : forall e', whiten h e = e' ->
              forall es1, length es1 = length (entries t) ->
              take (S i) es1 = take i (entries t) ++ [e'] ->
              drop (S i) es1 = drop (S i) (entries t) ->
              take (S i) es1 ++ map (whiten h) (drop (S i) es1)
              = take i (entries t) ++ map (whiten h) (drop i (entries t))).
    { intros e' He' es1 Hl1 Ht Hd. rewrite Ht, Hd, (drop_S _ _ _ He). simpl.
      rewrite He'. by rewrite <- app_assoc. }
    assert (Hsame : exists t',
              table_remove_white_loop h n (Z.of_nat i + 1) t = Some t' /\
              table_wf (string_hash h) t' /\
              count t' = count t /\ capacity t' = capacity t /\
              entries t' = take (S i) (entries t) ++ map (whiten h) (drop (S i) (entries t))).
    { replace (Z.of_nat i + 1) with (Z.of_nat (S i)) by lia. apply IH; [done|lia|done]. }
    destruct (key e) as [k|] eqn:Ek.
    + assert (Hb : bound (entries t) k) by (by exists i, e).
      destruct (Hheap k Hb) as [o Ho]. unfold object_is_marked. rewrite Ho.
      destruct (is_marked o) eqn:Em.
      * destruct Hsame as (t' & -> & ? & ? & ? & Hent). exists t'.
        split; [done|]. split; [done|]. split; [done|]. split; [done|].
        rewrite Hent. apply (Hsplit e); try done.
        -- unfold whiten, marked_in. by rewrite Ek, Ho, Em.
        -- by apply take_S_r.
      * rewrite (entry_eta e k Ek) in He.
        destruct (table_del_present (string_hash h) t k (value e) Hwf) as (i' & Hi' & ->).
        { by exists i. }
        assert (i' = i).
        { destruct Hwf as [Hc _ _ Hr].
          eapply (reach_distinct (string_hash h) _ (capacity t)); eauto.
          apply lookup_lt_Some in He. lia. }
        subst i'.
        destruct (table_del_spec (string_hash h) t k Hwf) as (t1 & b & Hdel & Hwf1 & _).
        pose proof (table_del_present (string_hash h) t k (value e) Hwf) as Hdp.
        set (t1' := mkTable (count t) (capacity t)
                      (<[i := mkEntry None (BOOL_VALUE true)]> (entries t))).
        assert (Hwf1' : table_wf (string_hash h) t1').
        { destruct Hdp as (i2 & Hi2 & Hd2); [by exists i|].
          assert (i2 = i).
          { destruct Hwf as [Hc _ _ Hr].
            eapply (reach_distinct (string_hash h) _ (capacity t)); eauto.
            apply lookup_lt_Some in He. lia. }
          subst i2. rewrite Hd2 in Hdel. injection Hdel as <- _. done. }
        replace (Z.of_nat i + 1) with (Z.of_nat (S i)) by lia.
        destruct (IH (S i) t1' Hwf1') as (t' & -> & Hwf' & Hc' & Hcap' & Hent).
        { simpl. rewrite length_insert. lia. }
        { intros k' (j & x & Hj & Hx). simpl in Hj. apply Hheap.
          destruct (decide (j = i)) as [->|Hne].
          - rewrite list_lookup_insert_eq in Hj by (by eapply lookup_lt_Some).
            injection Hj as <-. done.
          - rewrite list_lookup_insert_ne in Hj by done. by exists j, x. }
        exists t'. split; [done|]. split; [done|]. split; [done|]. split; [done|].
        rewrite Hent. simpl. apply (Hsplit (mkEntry None (BOOL_VALUE true))).
        -- unfold whiten, marked_in. by rewrite Ek, Ho, Em.
        -- by rewrite length_insert.
        -- rewrite take_insert_lt by lia.
           rewrite (take_S_r _ _ _ He).
           rewrite insert_app_r_alt by (rewrite length_take; lia).
           rewrite length_take. replace (i - i `min` length (entries t))%nat with 0%nat by lia.
           done.
        -- by rewrite drop_insert_lt by lia.
    + destruct Hsame as (t' & -> & ? & ? & ? & Hent). exists t'.
      split; [done|]. split; [done|]. split; [done|]. split; [done|].
      rewrite Hent. apply (Hsplit e); try done.
      * unfold whiten. by rewrite Ek.
      * by apply take_S_r.
Qed.

Lemma table_remove_white_spec h t :
  table_wf (string_hash h) t ->
  (forall k, bound (entries t) k -> is_Some (h !! k)) ->
  exists t',
    table_remove_white h t = Some t' /\
    table_wf (string_hash h) t' /\
    count t' = count t /\ capacity t' = capacity t /\
    entries t' = map (whiten h) (entries t) /\
    (forall k v, binding t' k v <-> binding t k v /\ marked_in h k = true).
Proof.
  intros Hwf Hheap. unfold table_remove_white.
  destruct (table_remove_white_loop_spec h (Z.to_nat (capacity t)) 0 t Hwf)
    as (t' & Ht & Hwf' & Hc & Hcap & Hent); [|done|].
  { destruct Hwf as [Hc _ _ _]. lia. }
  exists t'. split; [exact Ht|]. split; [done|]. split; [done|]. split; [done|].
  rewrite take_0, drop_0 in Hent. simpl in Hent. split; [done|].
  intros k v. unfold binding. rewrite Hent. apply holds_whiten.
Qed.

(** *** [sweep] *)

Section sweep_facts.

Variable sz : Sizeof.

Lemma free_object_spec vm r o :
  heap vm !! r = Some o ->
  exists vm',
    free_object sz vm r = Some vm' /\
    heap vm' = delete r (heap vm) /\
    bytes_allocated vm' = bytes_allocated vm - object_bytes sz o /\
    objects vm' = objects vm /\ strings vm' = strings vm /\ globals vm' = globals vm /\
    stack vm' = stack vm /\ stack_top vm' = stack_top vm /\ frames vm' = frames vm /\
    frame_count vm' = frame_count vm /\ open_upvalues vm' = open_upvalues vm /\
    init_string vm' = init_string vm /\ gray_stack vm' = gray_stack vm /\
    next_gc vm' = next_gc vm /\ printed vm' = printed vm.
Proof.
  intros Hr. unfold free_object. rewrite Hr. eexists. split; [reflexivity|].
  unfold object_bytes, free_table, free_chunk.
  destruct (payload o); vm_simpl; repeat split; try done; lia.
Qed.

Lemma live_bytes_ext (h h' : gmap nat Object) objs :
  (forall r, r ∈ objs ->
     (object_bytes sz <$> h' !! r) = (object_bytes sz <$> h !! r)) ->
  live_bytes sz h' objs = live_bytes sz h objs.
Proof.
  induction objs as [|r objs IH]; intros He; simpl; [done|].
  rewrite IH by (intros; apply He; by right).
  specialize (He r (list_elem_of_here _ _)).
  destruct (h' !! r), (h !! r); simpl in He; try done; injection He; lia.
Qed.

Lemma live_bytes_cons (h : gmap nat Object) r objs o :
  h !! r = Some o ->
  live_bytes sz h (r :: objs) = object_bytes sz o + live_bytes sz h objs.
Proof. intros Hr. simpl. by rewrite Hr. Qed.

Lemma filter_marked_ext (h h' : gmap nat Object) (objs : list nat) :
  (forall r, r ∈ objs -> marked_in h' r = marked_in h r) ->
  filter (fun r => marked_in h' r = true) objs
  = filter (fun r => marked_in h r = true) objs.
Proof.
  induction objs as [|r objs IH]; intros He; [done|].
  rewrite !filter_cons. rewrite IH by (intros; apply He; by right).
  rewrite (He r) by (by left). done.
Qed.

Lemma sweep_loop_spec :
  forall objs vm,
    NoDup objs ->
    (forall r, r ∈ objs -> is_Some (heap vm !! r)) ->
    exists vm' kept,
      sweep_loop sz vm objs = Some (vm', kept) /\
      kept = filter (fun r => marked_in (heap vm) r = true) objs /\
      (forall r o, r ∈ objs -> heap vm !! r = Some o ->
         heap vm' !! r
         = if is_marked o then Some (mkObject false (payload o)) else None) /\
      (forall r, r ∉ objs -> heap vm' !! r = heap vm !! r) /\
      bytes_allocated vm' + live_bytes sz (heap vm) objs
      = bytes_allocated vm + live_bytes sz (heap vm') kept /\
      objects vm' = objects vm /\ strings vm' = strings vm /\ globals vm' = globals vm /\
      stack vm' = stack vm /\ stack_top vm' = stack_top vm /\ frames vm' = frames vm /\
      frame_count vm' = frame_count vm /\ open_upvalues vm' = open_upvalues vm /\
      init_string vm' = init_string vm.
Proof.
  induction objs as [|r objs IH]; intros vm Hnd Hin.
  - exists vm, []. simpl. repeat split; try done. intros r o Hr. by apply elem_of_nil in Hr.
  - apply NoDup_cons in Hnd as [Hnotin Hnd].
    destruct (Hin r) as [o Ho]; [by left|]. simpl. rewrite Ho.
    destruct (is_marked o) eqn:Em.
    + set (vm1 := set_heap vm (<[r := mkObject false (payload o)]> (heap vm))).
      destruct (IH vm1 Hnd) as (vm' & kept & -> & Hk & Hh & Hother & Hb & Hrest).
      { intros r' Hr'. unfold vm1. vm_simpl.
        rewrite lookup_insert_ne by (intros ->; done). apply Hin. by right. }
      assert (Hm1 : forall r', r' ∈ objs -> marked_in (heap vm1) r' = marked_in (heap vm) r').
      { intros r' Hr'. unfold marked_in, vm1. vm_simpl.
        rewrite lookup_insert_ne by (intros ->; done). done. }
      exists vm', (r :: kept). split; [done|]. split.
      { rewrite filter_cons_True by (unfold marked_in; by rewrite Ho).
        f_equal. rewrite Hk. by apply filter_marked_ext. }
      assert (Hr' : heap vm' !! r = Some (mkObject false (payload o))).
      { rewrite Hother by done. unfold vm1. vm_simpl. by rewrite lookup_insert_eq. }
      split; [|split; [|split; [|done]]].
      * intros r' o' Hr0 Ho'. apply elem_of_cons in Hr0 as [->|Hr0].
        -- assert (o' = o) by congruence. subst. by rewrite Em.
        -- apply Hh; [done|]. unfold vm1. vm_simpl.
           rewrite lookup_insert_ne by (intros ->; done). done.
      * intros r' Hr0. rewrite Hother by set_solver. unfold vm1. vm_simpl.
        apply lookup_insert_ne. set_solver.
      * rewrite (live_bytes_cons _ _ _ _ Hr').
        change (object_bytes sz (mkObject false (payload o))) with (object_bytes sz o).
        rewrite (live_bytes_ext (heap vm) (heap vm1) objs) in Hb.
        2:{ intros r' Hr0. unfold vm1. vm_simpl.
            rewrite lookup_insert_ne by (intros ->; done). done. }
        unfold vm1 in Hb. vm_simpl_in Hb. lia.
    + destruct (free_object_spec vm r o Ho)
        as (vm1 & -> & Hh1 & Hb1 & Ho1 & Hs1 & Hg1 & Hst1 & Hrest1).
      destruct (IH vm1 Hnd) as (vm' & kept & -> & Hk & Hh & Hother & Hb & Hrest).
      { intros r' Hr'. rewrite Hh1. rewrite lookup_delete_ne by (intros ->; done).
        apply Hin. by right. }
      exists vm', kept. split; [done|]. split.
      { rewrite filter_cons_False by (unfold marked_in; rewrite Ho, Em; done).
        rewrite Hk. apply filter_marked_ext. intros r' Hr'. unfold marked_in.
        rewrite Hh1, lookup_delete_ne by (intros ->; done). done. }
      split; [|split; [|split]].
      * intros r' o' Hr0 Ho'. apply elem_of_cons in Hr0 as [->|Hr0].
        -- assert (o' = o) by congruence. subst. rewrite Em.
           rewrite Hother by done. rewrite Hh1. apply lookup_delete_eq.
        -- apply Hh; [done|]. rewrite Hh1, lookup_delete_ne by (intros ->; done). done.
      * intros r' Hr0. rewrite Hother by set_solver. rewrite Hh1.
        apply lookup_delete_ne. set_solver.
      * rewrite (live_bytes_ext (heap vm) (heap vm1) objs) in Hb.
        2:{ intros r' Hr0. rewrite Hh1, lookup_delete_ne by (intros ->; done). done. }
        lia.
      * destruct Hrest as (?&?&?&?&?&?&?&?&?).
        destruct Hrest1 as (?&?&?&?&?&?&?&?).
        repeat split; congruence.
Qed.

End sweep_facts.

(** *** [collect_garbage] *)

Lemma AS_STRING_payload (h h' : gmap nat Object) r :
  payload <$> h' !! r = payload <$> h !! r -> AS_STRING h' r = AS_STRING h r.
Proof.
  unfold AS_STRING. intros E.
  destruct (h' !! r) as [[m' p']|], (h !! r) as [[m p]|]; simpl in E; try done.
  injection E as ->. done.
Qed.

Lemma string_hash_payload (h h' : gmap nat Object) r :
  payload <$> h' !! r = payload <$> h !! r -> string_hash h' r = string_hash h r.
Proof. intros E. unfold string_hash. by rewrite (AS_STRING_payload h h' r E). Qed.

Lemma payload_is_Some (h h' : gmap nat Object) r :
  payload <$> h' !! r = payload <$> h !! r -> is_Some (h !! r) -> is_Some (h' !! r).
Proof.
  intros E [o Ho]. rewrite Ho in E. destruct (h' !! r); [by eexists|done].
Qed.

Section collect_facts.

Variable sz : Sizeof.

(** What a collection does, in terms of the state [vmt] that the marking
    phase leaves. *)
Lemma collect_garbage_spec vm current :
  heap_wf vm ->
  table_wf (string_hash (heap vm)) (strings vm) ->
  (forall k, bound (entries (strings vm)) k -> is_Some (heap vm !! k)) ->
  exists vmt vm',
    mark_phase vm current = Some vmt /\ marks_only vm vmt /\
    collect_garbage sz vm current = Some vm' /\
    objects vm' = filter (fun r => marked_in (heap vmt) r = true) (objects vm) /\
    (forall r o, heap vmt !! r = Some o ->
       heap vm' !! r
       = if is_marked o then Some (mkObject false (payload o)) else None) /\
    (forall r, heap vmt !! r = None -> heap vm' !! r = None) /\
    table_wf (string_hash (heap vmt)) (strings vm') /\
    count (strings vm') = count (strings vm) /\
    capacity (strings vm') = capacity (strings vm) /\
    entries (strings vm') = map (whiten (heap vmt)) (entries (strings vm)) /\
    (forall k v, binding (strings vm') k v
                 <-> binding (strings vm) k v /\ marked_in (heap vmt) k = true) /\
    bytes_allocated vm' + heap_bytes sz vm = bytes_allocated vm + heap_bytes sz vm' /\
    next_gc vm' = bytes_allocated vm' * GC_HEAP_GROW_FACTOR /\
    globals vm' = globals vm /\ stack vm' = stack vm /\ stack_top vm' = stack_top vm /\
    frames vm' = frames vm /\ frame_count vm' = frame_count vm /\
    open_upvalues vm' = open_upvalues vm /\ init_string vm' = init_string vm.
Proof.
  intros [Hnd Hdom] Hwf Hkeys.
  destruct (mark_phase_total vm current) as (vmt & Hmp & Hmo & Hg).
  destruct Hmo as [Hpay Hmk Hobj Hstr Hglob Hbytes (Hst & Htop & Hfr & Hfc & Hou & His)].
  destruct (table_remove_white_spec (heap vmt) (strings vm))
    as (t & Ht & Hwft & Hcnt & Hcap & Hent & Hbind).
  { eapply table_wf_ext; [|exact Hwf]. intros k _. symmetry. by apply string_hash_payload. }
  { intros k Hk. eapply payload_is_Some; [apply Hpay|]. by apply Hkeys. }
  set (vm2 := set_strings vmt t).
  destruct (sweep_loop_spec sz (objects vm) vm2 Hnd)
    as (vm3 & kept & Hsw & Hk & Hh & Hother & Hb & Ho3 & Hs3 & Hg3 & Hst3 & Htop3 & Hfr3
        & Hfc3 & Hou3 & His3).
  { intros r Hr. unfold vm2. vm_simpl. eapply payload_is_Some; [apply Hpay|]. by apply Hdom. }
  exists vmt, (set_next_gc (set_objects vm3 kept) (bytes_allocated vm3 * GC_HEAP_GROW_FACTOR)).
  split; [done|]. split; [by split|]. split.
  { unfold collect_garbage. rewrite Hmp. rewrite Hstr, Ht. fold vm2. unfold sweep.
    replace (objects vm2) with (objects vm) by (unfold vm2; vm_simpl; done).
    rewrite Hsw. done. }
  unfold vm2 in *. vm_simpl. vm_simpl_in Hh. vm_simpl_in Hother. vm_simpl_in Hb.
  vm_simpl_in Hk. vm_simpl_in Hs3. vm_simpl_in Hg3. vm_simpl_in Hst3. vm_simpl_in Htop3.
  vm_simpl_in Hfr3. vm_simpl_in Hfc3. vm_simpl_in Hou3. vm_simpl_in His3.
  split; [done|]. split.
  { intros r o Ho. apply Hh; [|done]. apply Hdom. specialize (Hpay r). rewrite Ho in Hpay.
    destruct (heap vm !! r); [by eexists|done]. }
  split.
  { intros r Hr. rewrite Hother; [done|]. intros Hin. apply Hdom in Hin as [o Ho].
    specialize (Hpay r). rewrite Ho, Hr in Hpay. done. }
  rewrite Hs3. split; [done|]. split; [done|]. split; [done|]. split; [done|].
  split; [done|]. split.
  { unfold heap_bytes. vm_simpl.
    rewrite (live_bytes_ext sz (heap vmt) (heap vm) (objects vm)).
    - lia.
    - intros r _. specialize (Hpay r). unfold object_bytes.
      destruct (heap vm !! r) as [[m p]|], (heap vmt !! r) as [[m' p']|];
        simpl in *; try done. by injection Hpay as ->. }
  split; [done|]. repeat split; congruence.
Qed.

(** The invariants of the heap and of the pool hold again after a
    collection. *)
Lemma collect_garbage_inv vm current vm' :
  gc_inv vm -> collect_garbage sz vm current = Some vm' -> gc_inv vm'.
Proof.
  intros [Hinv Hwf] Hc.
  destruct (collect_garbage_spec vm current Hwf (pool_wf _ Hinv))
    as (vmt & vm'' & Hmp & Hmo & Hc' & Hobj & Hh & Hnone & Hwft & Hcnt & Hcap & Hent & Hbind
        & _).
  { intros k Hk. destruct (pool_keys _ Hinv k Hk) as (s & Hs & _).
    apply AS_STRING_lookup in Hs as [m Hs]. by eexists. }
  rewrite Hc in Hc'. injection Hc' as <-.
  destruct Hwf as [Hnd Hdom]. destruct Hmo as [Hpay Hmk Hobjs _ _ _ _].
  assert (Hsurv : forall r, is_Some (heap vm' !! r) <-> marked_in (heap vmt) r = true).
  { intros r. unfold marked_in. destruct (heap vmt !! r) as [o|] eqn:Eo.
    - rewrite (Hh r o Eo). destruct (is_marked o); split; intros H; try done.
    - rewrite (Hnone r Eo). split; intros H; try done. }
  assert (Hstr : forall k, marked_in (heap vmt) k = true ->
                   AS_STRING (heap vm') k = AS_STRING (heap vm) k).
  { intros k Hk. rewrite <- (AS_STRING_payload (heap vm) (heap vmt) k (Hpay k)).
    unfold marked_in in Hk. unfold AS_STRING.
    destruct (heap vmt !! k) as [o|] eqn:Eo; [|done].
    rewrite (Hh k o Eo), Hk. by destruct o. }
  assert (Hbound : forall k, bound (entries (strings vm')) k ->
                     bound (entries (strings vm)) k /\ marked_in (heap vmt) k = true).
  { intros k (i & e & Hi & Hk). destruct e as [ek ev]. simpl in Hk. subst ek.
    destruct (Hbind k ev) as [Hb _]. destruct Hb as [(j & Hj) Hm]; [by exists i|].
    split; [|done]. exists j, (mkEntry (Some k) ev). done. }
  split; [split|].
  - eapply table_wf_ext; [|exact Hwft]. intros k Hk. apply Hbound in Hk as [_ Hm].
    unfold string_hash. rewrite (Hstr k Hm).
    by rewrite (AS_STRING_payload (heap vm) (heap vmt) k (Hpay k)).
  - intros k Hk. apply Hbound in Hk as [Hb Hm]. rewrite (Hstr k Hm).
    by apply (pool_keys _ Hinv).
  - intros k1 k2 chars [Hb1 (s1 & Hs1 & Hc1)] [Hb2 (s2 & Hs2 & Hc2)].
    apply Hbound in Hb1 as [Hb1 Hm1]. apply Hbound in Hb2 as [Hb2 Hm2].
    rewrite (Hstr k1 Hm1) in Hs1. rewrite (Hstr k2 Hm2) in Hs2.
    apply (pool_unique _ Hinv k1 k2 chars); (split; [done|]); eauto.
  - split.
    + rewrite Hobj. by apply NoDup_filter.
    + intros r. rewrite Hobj, list_elem_of_filter, Hsurv. split; [tauto|].
      intros Hm. split; [done|]. apply Hdom. unfold marked_in in Hm.
      specialize (Hpay r). destruct (heap vmt !! r); [|done].
      destruct (heap vm !! r); [by eexists|done].
Qed.

End collect_facts.

(** *** The object list under allocation *)

Lemma heap_wf_same vm vm' :
  heap vm' = heap vm -> objects vm' = objects vm -> heap_wf vm -> heap_wf vm'.
Proof. unfold heap_wf. by intros -> ->. Qed.

Section alloc_facts.

Variable sz : Sizeof.

Lemma allocate_object_heap_wf vm size p :
  heap_wf vm -> heap_wf (fst (allocate_object vm size p)).
Proof.
  intros [Hnd Hdom]. unfold allocate_object, heap_wf. vm_simpl.
  pose proof (fresh_ref_None (heap vm)) as Hfresh. split.
  - apply NoDup_cons. split; [|done]. intros Hin. apply Hdom in Hin as [o Ho]. congruence.
  - intros r. rewrite elem_of_cons, Hdom.
    destruct (decide (r = fresh_ref (heap vm))) as [->|Hne].
    + rewrite lookup_insert_eq. split; [by eexists|by left].
    + rewrite lookup_insert_ne by done. split; [by intros [?|?]|by right].
Qed.

Lemma allocate_string_heap_wf vm chars len hash vm' r :
  heap_wf vm -> allocate_string sz vm chars len hash = Some (vm', r) -> heap_wf vm'.
Proof.
  intros Hwf Ha. unfold allocate_string in Ha.
  pose proof (allocate_object_heap_wf vm (sizeof_ObjectString sz)
                (OBJECT_STRING (mkString len chars hash)) Hwf) as Hwf1.
  destruct (allocate_object vm _ _) as [vm1 s]. simpl in Hwf1.
  unfold vm_table_set in Ha.
  destruct (table_set _ _ _ _) as [[t' b]|]; [|done].
  injection Ha as <- <-. revert Hwf1. unfold heap_wf, stack_pop. vm_simpl. done.
Qed.

Lemma intern_heap_wf vm q vm' r :
  heap_wf vm -> intern sz vm q = Some (vm', r) -> heap_wf vm'.
Proof.
  intros Hwf Hi. unfold intern, take_string, copy_string in Hi.
  destruct (takes_buffer q);
    destruct (table_find_string _ _ _ _ _) as [[k|]|]; try done.
  - injection Hi as <- <-. by apply (heap_wf_same vm).
  - by eapply allocate_string_heap_wf.
  - by injection Hi as <- <-.
  - eapply allocate_string_heap_wf; [|exact Hi]. by apply (heap_wf_same vm).
Qed.

End alloc_facts.

(** * The invariants of the heap along the life of the VM *)

(** The pool invariant reads the heap at the keys of the table only. *)
Lemma strings_inv_heap_ext vm vm' :
  strings vm' = strings vm ->
  (forall k, bound (entries (strings vm)) k -> AS_STRING (heap vm') k = AS_STRING (heap vm) k) ->
  strings_inv vm -> strings_inv vm'.
Proof.
  intros Hs Hk [Hwf Hkeys Huniq]. split.
  - rewrite Hs. eapply table_wf_ext; [|exact Hwf].
    intros k Hb. unfold string_hash. by rewrite (Hk k Hb).
  - rewrite Hs. intros k Hb. rewrite (Hk k Hb). by apply Hkeys.
  - intros k1 k2 chars [Hb1 (s1 & Hs1 & Hc1)] [Hb2 (s2 & Hs2 & Hc2)].
    rewrite Hs in Hb1, Hb2. rewrite (Hk k1 Hb1) in Hs1. rewrite (Hk k2 Hb2) in Hs2.
    apply (Huniq k1 k2 chars); (split; [done|]); eauto.
Qed.

Lemma strings_inv_alloc vm size p :
  strings_inv vm -> strings_inv (fst (allocate_object vm size p)).
Proof.
  intros Hinv. apply (strings_inv_heap_ext vm); [done| |done].
  intros k Hb. unfold allocate_object. vm_simpl. apply AS_STRING_insert_ne.
  intros E. destruct (pool_keys _ Hinv _ Hb) as (s & Hs & _).
  apply AS_STRING_lookup in Hs as [m Hs]. rewrite <- E in Hs. by rewrite fresh_ref_None in Hs.
Qed.

Lemma gc_inv_empty vm :
  strings vm = init_table -> heap vm = ∅ -> objects vm = [] -> gc_inv vm.
Proof.
  intros Hs Hh Ho. split; [by apply strings_inv_init|]. unfold heap_wf. rewrite Hh, Ho.
  split; [apply NoDup_nil_2|]. intros r. rewrite lookup_empty.
  split; [by intros ?%elem_of_nil|]. by intros [? ?].
Qed.

Section init_facts.

Variable sz : Sizeof.

Lemma gc_inv_intern vm q vm' r :
  gc_inv vm -> intern sz vm q = Some (vm', r) -> gc_inv vm'.
Proof.
  intros [Hinv Hwf] Hi. split; [|by eapply intern_heap_wf].
  unfold intern in Hi. destruct (takes_buffer q).
  - destruct (take_string_spec sz vm (bytes q) Hinv) as (vm1 & r1 & E & H1 & _).
    congruence.
  - destruct (copy_string_spec sz vm (bytes q) Hinv) as (vm1 & r1 & E & H1 & _).
    congruence.
Qed.

Lemma gc_inv_copy_string vm chars vm' r :
  gc_inv vm -> copy_string sz vm chars = Some (vm', r) -> gc_inv vm'.
Proof. intros Hinv Hc. by apply (gc_inv_intern vm (mkIntern false chars) vm' r). Qed.

Lemma define_native_gc_inv vm name f vm' :
  gc_inv vm -> define_native sz vm name f = Some vm' -> gc_inv vm'.
Proof.
  intros Hinv Hd. unfold define_native in Hd.
  destruct (copy_string sz vm name) as [[vm1 s]|] eqn:Ec; [|done].
  apply (gc_inv_copy_string vm name) in Ec; [|done].
  destruct Ec as [Hs1 Hw1].
  set (vm2 := stack_push vm1 (OBJECT_VALUE s)) in *.
  assert (Hs2 : strings_inv vm2) by (by apply (strings_inv_same vm1)).
  assert (Hw2 : heap_wf vm2) by (by apply (heap_wf_same vm1)).
  pose proof (strings_inv_alloc vm2 (sizeof_ObjectNative sz)
                (OBJECT_NATIVE (mkNative f)) Hs2) as Hs3.
  pose proof (allocate_object_heap_wf vm2 (sizeof_ObjectNative sz)
                (OBJECT_NATIVE (mkNative f)) Hw2) as Hw3.
  unfold new_native in Hd.
  destruct (allocate_object vm2 _ _) as [vm3 n]. simpl in Hs3, Hw3.
  destruct (AS_OBJECT _) as [k|]; [|done].
  unfold vm_table_set in Hd. destruct (table_set _ _ _ _) as [[t b]|]; [|done].
  injection Hd as <-. split.
  - by apply (strings_inv_same vm3).
  - by apply (heap_wf_same vm3).
Qed.

(** The invariants hold when [init_vm] returns. *)
Lemma init_vm_gc_inv vm : init_vm sz = Some vm -> gc_inv vm.
Proof.
  unfold init_vm. intros Hi.
  match type of Hi with
  | (copy_string _ ?v _ ≫= _) = _ => set (vm0 := v) in *
  end.
  assert (H0 : gc_inv vm0) by (apply gc_inv_empty; reflexivity).
  clearbody vm0.
  destruct (copy_string sz vm0 "init"%string) as [[vm1 s]|] eqn:Ec; [|done].
  cbn [mbind option_bind] in Hi.
  apply (gc_inv_copy_string vm0 "init"%string) in Ec; [|done].
  eapply define_native_gc_inv; [|exact Hi]. destruct Ec as [Hs1 Hw1]. split.
  - by apply (strings_inv_same vm1).
  - by apply (heap_wf_same vm1).
Qed.

End init_facts.

(** *** The open upvalues *)




(** *** Requests to the pool *)

Section intern_facts.

Variable sz : Sizeof.




End intern_facts.

(** * Tracing reaches what the roots reach *)

Lemma grows_refl vm : grows vm vm.
Proof. split; [apply marks_only_refl|]. split; [done|]. intros r Hr. by left. Qed.

Lemma grows_trans vm1 vm2 vm3 : grows vm1 vm2 -> grows vm2 vm3 -> grows vm1 vm3.
Proof.
  intros (A1 & A2 & A3) (B1 & B2 & B3). split; [by eapply marks_only_trans|].
  split; [auto|]. intros r Hr. destruct (B3 r Hr) as [Hm|Hg]; [|by right].
  destruct (A3 r Hm) as [Hm'|Hg]; [by left|right; auto].
Qed.

Lemma payload_same (h h' : gmap nat Object) r o :
  payload <$> h' !! r = payload <$> h !! r -> h !! r = Some o ->
  exists o', h' !! r = Some o' /\ payload o' = payload o.
Proof.
  intros E Ho. rewrite Ho in E. destruct (h' !! r) as [o'|]; [|done].
  exists o'. split; [done|]. simpl in E. congruence.
Qed.

Lemma references_payload o o' : payload o' = payload o -> references o' = references o.
Proof. unfold references. by intros ->. Qed.

Lemma marked_or_absent_mono vm vm' c :
  marks_only vm vm' -> marked_or_absent (heap vm) c -> marked_or_absent (heap vm') c.
Proof.
  intros Hmo [Hm|Ha]; [left; by apply (mo_marked _ _ Hmo)|right].
  pose proof (mo_payload _ _ Hmo c) as E. rewrite Ha in E.
  destruct (heap vm' !! c); [done|done].
Qed.

Lemma grows_tricolor vm vm' : grows vm vm' -> tricolor vm -> tricolor vm'.
Proof.
  intros (Hmo & Hg & Hnew) Ht r o' Ho' Hm'.
  destruct (Hnew r) as [Hm|Hgr]; [unfold marked_in; by rewrite Ho'| |by left].
  unfold marked_in in Hm. destruct (heap vm !! r) as [o|] eqn:Ho; [|done].
  destruct (payload_same (heap vm) (heap vm') r o (mo_payload _ _ Hmo r) Ho)
    as (o2 & Ho2 & Hp).
  assert (o2 = o') by congruence. subst o2.
  destruct (Ht r o Ho Hm) as [Hgr|Hch]; [left; auto|right].
  intros c Hc. rewrite (references_payload o o' Hp) in Hc.
  eapply marked_or_absent_mono; [exact Hmo|]. by apply Hch.
Qed.

Lemma mark_object_grows vm o :
  grows vm (mark_object vm o) /\
  forall r, o = Some r -> marked_or_absent (heap (mark_object vm o)) r.
Proof.
  destruct (mark_object_marking vm o) as [Hmo _].
  unfold mark_object in *. destruct o as [r|]; [|split; [apply grows_refl|done]].
  destruct (heap vm !! r) as [ob|] eqn:Hr.
  - destruct (is_marked ob) eqn:Hm.
    + split; [apply grows_refl|]. intros r' [= <-]. left. unfold marked_in. by rewrite Hr.
    + split.
      * split; [done|]. vm_simpl. split; [intros r' Hr'; by right|].
        intros r' Hr'. unfold marked_in in *.
        destruct (decide (r' = r)) as [->|Hne]; [right; by left|].
        rewrite lookup_insert_ne in Hr' by done. by left.
      * intros r' [= <-]. left. unfold marked_in. vm_simpl. by rewrite lookup_insert_eq.
  - split; [apply grows_refl|]. intros r' [= <-]. by right.
Qed.

Lemma mark_value_grows vm v :
  grows vm (mark_value vm v) /\
  forall r, r ∈ value_refs v -> marked_or_absent (heap (mark_value vm v)) r.
Proof.
  unfold mark_value, value_refs. destruct v as [| | |r];
    try (split; [apply grows_refl|intros r Hr; by apply elem_of_nil in Hr]).
  destruct (mark_object_grows vm (Some r)) as [Hg Hm]. split; [done|].
  intros r' Hr'. apply list_elem_of_singleton in Hr' as ->. by apply Hm.
Qed.

(** A loop of marking steps, each on what [refs] names for its element. *)
Lemma fold_grows {A} (f : VM -> A -> VM) (refs : VM -> A -> list ObjRef) :
  (forall vm x, grows vm (f vm x)) ->
  (forall vm x c, c ∈ refs vm x -> marked_or_absent (heap (f vm x)) c) ->
  (forall vm vm' x, marks_only vm vm' -> refs vm' x = refs vm x) ->
  forall l vm,
    grows vm (fold_left f l vm) /\
    forall c, c ∈ flat_map (refs vm) l -> marked_or_absent (heap (fold_left f l vm)) c.
Proof.
  intros Hg Hm Hinv. induction l as [|x l IH]; intros vm; simpl.
  - split; [apply grows_refl|]. intros c Hc. by apply elem_of_nil in Hc.
  - destruct (IH (f vm x)) as [Hg' Hm']. split; [eapply grows_trans; [apply Hg|done]|].
    intros c Hc. apply elem_of_app in Hc as [Hc|Hc].
    + eapply marked_or_absent_mono; [apply Hg'|]. by apply Hm.
    + apply Hm'. clear -Hc Hinv Hg.
      induction l as [|y l IHl]; simpl in *; [done|].
      apply elem_of_app in Hc as [Hc|Hc]; apply elem_of_app; [left|right; by apply IHl].
      rewrite (Hinv vm (f vm x) y); [done|]. apply Hg.
Qed.

Lemma mark_entry_grows vm e :
  grows vm (mark_entry vm e) /\
  forall r, r ∈ entry_refs e -> marked_or_absent (heap (mark_entry vm e)) r.
Proof.
  unfold mark_entry, entry_refs.
  destruct (mark_object_grows vm (key e)) as [G1 M1].
  destruct (mark_value_grows (mark_object vm (key e)) (value e)) as [G2 M2].
  split; [by eapply grows_trans|]. intros r Hr. apply elem_of_app in Hr as [Hr|Hr].
  - eapply marked_or_absent_mono; [apply G2|]. apply M1.
    unfold object_refs in Hr. destruct (key e); [|by apply elem_of_nil in Hr].
    by apply list_elem_of_singleton in Hr as ->.
  - by apply M2.
Qed.

Lemma mark_table_grows vm t :
  grows vm (mark_table vm t) /\
  forall r, r ∈ table_refs t -> marked_or_absent (heap (mark_table vm t)) r.
Proof.
  unfold mark_table, table_refs.
  apply (fold_grows mark_entry (fun _ e => entry_refs e)).
  - intros vm' e. apply mark_entry_grows.
  - intros vm' e c Hc. by apply mark_entry_grows.
  - done.
Qed.

Lemma mark_array_grows vm a :
  grows vm (mark_array vm a) /\
  forall r, r ∈ flat_map value_refs (va_values a) ->
    marked_or_absent (heap (mark_array vm a)) r.
Proof.
  unfold mark_array.
  apply (fold_grows mark_value (fun _ v => value_refs v)).
  - intros vm' v. apply mark_value_grows.
  - intros vm' v c Hc. by apply mark_value_grows.
  - done.
Qed.

Lemma mark_objects_grows vm (l : list (option ObjRef)) :
  grows vm (fold_left mark_object l vm) /\
  forall r, r ∈ flat_map object_refs l ->
    marked_or_absent (heap (fold_left mark_object l vm)) r.
Proof.
  apply (fold_grows mark_object (fun _ o => object_refs o)).
  - intros vm' o. apply mark_object_grows.
  - intros vm' o c Hc. apply mark_object_grows.
    unfold object_refs in Hc. destruct o; [|by apply elem_of_nil in Hc].
    by apply list_elem_of_singleton in Hc as ->.
  - done.
Qed.

Lemma mark_roots_grows vm current :
  grows vm (mark_roots vm current) /\
  forall r, r ∈ roots vm current -> marked_or_absent (heap (mark_roots vm current)) r.
Proof.
  unfold mark_roots, roots.
  set (f1 := fun (vm : VM) (slot : Z) => mark_value vm (stack_read vm slot)).
  destruct (fold_grows f1 (fun vm slot => value_refs (stack_read vm slot))
              ltac:(intros; apply mark_value_grows)
              ltac:(intros v x c Hc; cbv beta in Hc; by apply mark_value_grows)
              ltac:(intros v v' x Hmo; cbv beta; unfold stack_read;
                    destruct (mo_stack _ _ Hmo) as (-> & _); done)
              (seqZ 0 (stack_top vm)) vm) as [G1 M1].
  set (vm1 := fold_left f1 (seqZ 0 (stack_top vm)) vm) in *.
  destruct G1 as (Hmo1 & Hg1 & Hn1).
  pose proof (mo_stack _ _ Hmo1) as (Es1 & Et1 & Ef1 & Ec1 & Eo1 & Ei1).
  destruct (fold_grows mark_frame
              (fun vm i => match frames vm !! i with Some fr => [closure fr] | None => [] end)
              ltac:(intros v i; unfold mark_frame; destruct (frames v !! i);
                    [apply mark_object_grows|apply grows_refl])
              ltac:(intros v i c Hc; cbv beta in Hc; unfold mark_frame; destruct (frames v !! i);
                    [apply list_elem_of_singleton in Hc as ->; by apply mark_object_grows
                    |by apply elem_of_nil in Hc])
              ltac:(intros v v' x Hmo; cbv beta;
                    destruct (mo_stack _ _ Hmo) as (_ & _ & -> & _); done)
              (seqZ 0 (frame_count vm1)) vm1) as [G2 M2].
  set (vm2 := fold_left mark_frame (seqZ 0 (frame_count vm1)) vm1) in *.
  destruct G2 as (Hmo2 & Hg2 & Hn2).
  pose proof (mo_stack _ _ Hmo2) as (Es2 & Et2 & Ef2 & Ec2 & Eo2 & Ei2).
  destruct (fold_grows (fun vm u => mark_object vm (Some u)) (fun _ u => [u])
              ltac:(intros; apply mark_object_grows)
              ltac:(intros v u c Hc; cbv beta in Hc; apply list_elem_of_singleton in Hc as ->;
                    by apply mark_object_grows)
              ltac:(done)
              (open_upvalues vm2) vm2) as [G3 M3].
  set (vm3 := fold_left (fun vm u => mark_object vm (Some u)) (open_upvalues vm2) vm2) in *.
  destruct G3 as (Hmo3 & Hg3 & Hn3).
  pose proof (mo_stack _ _ Hmo3) as (Es3 & Et3 & Ef3 & Ec3 & Eo3 & Ei3).
  destruct (mark_table_grows vm3 (globals vm3)) as [G4 M4].
  set (vm4 := mark_table vm3 (globals vm3)) in *.
  destruct G4 as (Hmo4 & Hg4 & Hn4).
  pose proof (mo_stack _ _ Hmo4) as (Es4 & Et4 & Ef4 & Ec4 & Eo4 & Ei4).
  unfold mark_compiler_roots.
  destruct (mark_objects_grows vm4 current) as [G5 M5].
  set (vm5 := fold_left mark_object current vm4) in *.
  destruct G5 as (Hmo5 & Hg5 & Hn5).
  pose proof (mo_stack _ _ Hmo5) as (Es5 & Et5 & Ef5 & Ec5 & Eo5 & Ei5).
  destruct (mark_object_grows vm5 (init_string vm5)) as [G6 M6].
  assert (G01 : grows vm vm1) by done.
  assert (G12 : grows vm1 vm2) by done.
  assert (G23 : grows vm2 vm3) by done.
  assert (G34 : grows vm3 vm4) by done.
  assert (G45 : grows vm4 vm5) by done.
  assert (G02 : grows vm vm2) by (by eapply grows_trans).
  assert (G03 : grows vm vm3) by (by eapply grows_trans).
  assert (G04 : grows vm vm4) by (by eapply grows_trans).
  assert (G05 : grows vm vm5) by (by eapply grows_trans).
  assert (G56 := G6).
  split; [by eapply grows_trans|].
  assert (G16 : marks_only vm1 (mark_object vm5 (init_string vm5))).
  { eapply marks_only_trans; [exact Hmo2|]. eapply marks_only_trans; [exact Hmo3|].
    eapply marks_only_trans; [exact Hmo4|]. eapply marks_only_trans; [exact Hmo5|].
    apply G6. }
  assert (G26 : marks_only vm2 (mark_object vm5 (init_string vm5))).
  { eapply marks_only_trans; [exact Hmo3|].
    eapply marks_only_trans; [exact Hmo4|]. eapply marks_only_trans; [exact Hmo5|].
    apply G6. }
  assert (G36 : marks_only vm3 (mark_object vm5 (init_string vm5))).
  { eapply marks_only_trans; [exact Hmo4|]. eapply marks_only_trans; [exact Hmo5|].
    apply G6. }
  assert (G46 : marks_only vm4 (mark_object vm5 (init_string vm5))).
  { eapply marks_only_trans; [exact Hmo5|]. apply G6. }
  intros r Hr.
  apply elem_of_app in Hr as [Hr|Hr];
    [eapply marked_or_absent_mono; [exact G16|]; by apply M1|].
  apply elem_of_app in Hr as [Hr|Hr].
  { eapply marked_or_absent_mono; [exact G26|]. apply M2.
    rewrite Ec1. clear -Hr Ef1. induction (seqZ 0 (frame_count vm)) as [|i l IH];
      simpl in *; [done|].
    apply elem_of_app in Hr as [Hr|Hr]; apply elem_of_app; [left|right; by apply IH].
    by rewrite Ef1. }
  apply elem_of_app in Hr as [Hr|Hr].
  { eapply marked_or_absent_mono; [exact G36|]. apply M3.
    rewrite Eo2, Eo1. clear -Hr. induction (open_upvalues vm) as [|u l IH]; simpl; [done|].
    apply elem_of_cons in Hr as [->|Hr]; [by left|right; by apply IH]. }
  apply elem_of_app in Hr as [Hr|Hr].
  { eapply marked_or_absent_mono; [exact G46|]. apply M4.
    by rewrite (mo_globals _ _ (proj1 G03)). }
  apply elem_of_app in Hr as [Hr|Hr].
  { eapply marked_or_absent_mono; [apply G6|]. by apply M5. }
  apply M6. unfold object_refs in Hr. rewrite Ei5, Ei4, Ei3, Ei2, Ei1.
  destruct (init_string vm); [|by apply elem_of_nil in Hr].
  by apply list_elem_of_singleton in Hr as ->.
Qed.

Lemma blacken_object_grows vm r o :
  heap vm !! r = Some o ->
  grows vm (blacken_object vm r) /\
  forall c, c ∈ references o -> marked_or_absent (heap (blacken_object vm r)) c.
Proof.
  intros Hr. unfold blacken_object, references. rewrite Hr.
  destruct (payload o) as [k|s|n|f|i|c|u|b].
  - destruct (mark_object_grows vm (Some (class_name k))) as [G1 M1].
    destruct (mark_table_grows (mark_object vm (Some (class_name k))) (methods k))
      as [G2 M2].
    split; [by eapply grows_trans|]. intros x Hx. apply elem_of_cons in Hx as [->|Hx].
    + eapply marked_or_absent_mono; [apply G2|]. by apply M1.
    + by apply M2.
  - split; [apply grows_refl|]. intros x Hx. by apply elem_of_nil in Hx.
  - split; [apply grows_refl|]. intros x Hx. by apply elem_of_nil in Hx.
  - destruct (mark_object_grows vm (fn_name f)) as [G1 M1].
    destruct (mark_array_grows (mark_object vm (fn_name f)) (ch_constants (chunk f)))
      as [G2 M2].
    split; [by eapply grows_trans|]. intros x Hx. apply elem_of_app in Hx as [Hx|Hx].
    + eapply marked_or_absent_mono; [apply G2|]. apply M1.
      unfold object_refs in Hx. destruct (fn_name f); [|by apply elem_of_nil in Hx].
      by apply list_elem_of_singleton in Hx as ->.
    + by apply M2.
  - destruct (mark_object_grows vm (Some (klass i))) as [G1 M1].
    destruct (mark_table_grows (mark_object vm (Some (klass i))) (fields i)) as [G2 M2].
    split; [by eapply grows_trans|]. intros x Hx. apply elem_of_cons in Hx as [->|Hx].
    + eapply marked_or_absent_mono; [apply G2|]. by apply M1.
    + by apply M2.
  - destruct (mark_object_grows vm (Some (function c))) as [G1 M1].
    destruct (mark_objects_grows (mark_object vm (Some (function c)))
                (firstn (Z.to_nat (upvalue_count c)) (upvalues c))) as [G2 M2].
    split; [by eapply grows_trans|]. intros x Hx. apply elem_of_cons in Hx as [->|Hx].
    + eapply marked_or_absent_mono; [apply G2|]. by apply M1.
    + by apply M2.
  - apply mark_value_grows.
  - destruct (mark_value_grows vm (reciever b)) as [G1 M1].
    destruct (mark_object_grows (mark_value vm (reciever b)) (Some (method b))) as [G2 M2].
    split; [by eapply grows_trans|]. intros x Hx. apply elem_of_app in Hx as [Hx|Hx].
    + eapply marked_or_absent_mono; [apply G2|]. by apply M1.
    + apply list_elem_of_singleton in Hx as ->. by apply M2.
Qed.

(** One turn of [trace_references] keeps the invariant. *)
Lemma trace_turn_tricolor vm object rest :
  gray_stack vm = object :: rest ->
  tricolor vm ->
  tricolor (blacken_object (set_gray_stack vm rest) object).
Proof.
  intros Eg Ht. set (vm1 := set_gray_stack vm rest).
  destruct (heap vm !! object) as [ob|] eqn:Hob.
  - destruct (blacken_object_grows vm1 object ob Hob) as [(Hmo & Hg & Hnew) Hch].
    intros r o' Ho' Hm'.
    destruct (Hnew r) as [Hm|Hgr]; [unfold marked_in; by rewrite Ho'| |by left].
    change (heap vm1) with (heap vm) in Hm.
    unfold marked_in in Hm. destruct (heap vm !! r) as [o|] eqn:Ho; [|done].
    destruct (payload_same (heap vm1) _ r o (mo_payload _ _ Hmo r) Ho) as (o2 & Ho2 & Hp).
    assert (o2 = o') by congruence. subst o2.
    destruct (Ht r o Ho Hm) as [Hgr|Hc].
    + rewrite Eg in Hgr. apply elem_of_cons in Hgr as [->|Hgr].
      * right. intros c Hc. rewrite (references_payload o o' Hp) in Hc.
        assert (ob = o) by congruence. subst ob. by apply Hch.
      * left. by apply Hg.
    + right. intros c Hc'. rewrite (references_payload o o' Hp) in Hc'.
      eapply marked_or_absent_mono; [exact Hmo|]. by apply Hc.
  - unfold blacken_object. change (heap vm1) with (heap vm). rewrite Hob.
    intros r o Ho Hm. change (heap vm1) with (heap vm) in *.
    destruct (Ht r o Ho Hm) as [Hgr|Hc]; [|by right].
    rewrite Eg in Hgr. apply elem_of_cons in Hgr as [->|Hgr]; [congruence|by left].
Qed.

Lemma trace_references_tricolor fuel :
  forall vm vm', tricolor vm -> trace_references fuel vm = Some vm' -> tricolor vm'.
Proof.
  induction fuel as [|fuel IH]; intros vm vm' Ht Hr; simpl in Hr.
  - destruct (gray_stack vm); [by injection Hr as <-|done].
  - destruct (gray_stack vm) as [|object rest] eqn:Eg; [by injection Hr as <-|].
    eapply IH; [|exact Hr]. by apply trace_turn_tricolor.
Qed.

Lemma all_white_tricolor vm : all_white vm -> tricolor vm.
Proof.
  intros [Hw _] r o Ho Hm. specialize (Hw r). unfold marked_in in Hw.
  rewrite Ho in Hw. congruence.
Qed.

(** After the marking phase every object that the roots reach is marked. *)
Lemma mark_phase_reaches vm current vmt r :
  all_white vm ->
  mark_phase vm current = Some vmt ->
  reachable_from (heap vm) (roots vm current) r ->
  marked_or_absent (heap vmt) r.
Proof.
  intros Hw Hmp Hreach.
  destruct (mark_phase_total vm current) as (vmt' & Hmp' & Hmo & Hgray).
  rewrite Hmp in Hmp'. injection Hmp' as <-.
  unfold mark_phase in Hmp.
  destruct (mark_roots_grows vm current) as [Gr Mr].
  pose proof (grows_tricolor _ _ Gr (all_white_tricolor vm Hw)) as Ht1.
  pose proof (trace_references_tricolor _ _ _ Ht1 Hmp) as Ht.
  destruct (trace_references_total
              (size (heap (mark_roots vm current))
               + length (gray_stack (mark_roots vm current)))
              (mark_roots vm current)) as (vmt' & Htr & Hmo2 & _).
  { unfold gray_potential. pose proof (unmarked_count_le (heap (mark_roots vm current))). lia. }
  rewrite Hmp in Htr. injection Htr as <-.
  induction Hreach as [r Hr|r o c Hreach IH Ho Hc].
  - eapply marked_or_absent_mono; [exact Hmo2|]. by apply Mr.
  - destruct (payload_same (heap vm) (heap vmt) r o (mo_payload _ _ Hmo r) Ho)
      as (o' & Ho' & Hp).
    destruct IH as [Hm|Ha]; [|congruence].
    unfold marked_in in Hm. rewrite Ho' in Hm.
    destruct (Ht r o' Ho' Hm) as [Hg|Hch]; [rewrite Hgray in Hg; by apply elem_of_nil in Hg|].
    apply Hch. by rewrite (references_payload o o' Hp).
Qed.

Section gray_facts.

Variable sz : Sizeof.

Lemma sweep_loop_gray objs :
  forall vm vm' kept,
    sweep_loop sz vm objs = Some (vm', kept) -> gray_stack vm' = gray_stack vm.
Proof.
  induction objs as [|r objs IH]; intros vm vm' kept Hs; simpl in Hs.
  - by injection Hs as <- <-.
  - destruct (heap vm !! r) as [o|] eqn:Ho; [|done].
    destruct (is_marked o).
    + destruct (sweep_loop sz _ objs) as [[vm1 k1]|] eqn:E; [|done].
      injection Hs as <- <-. by rewrite (IH _ _ _ E).
    + destruct (free_object_spec sz vm r o Ho)
        as (vm1 & E1 & _ & _ & _ & _ & _ & _ & _ & _ & _ & _ & _ & Hg & _).
      rewrite E1 in Hs. by rewrite (IH _ _ _ Hs).
Qed.

Lemma collect_garbage_gray vm current vm' :
  collect_garbage sz vm current = Some vm' -> gray_stack vm' = [].
Proof.
  intros Hc. unfold collect_garbage in Hc.
  destruct (mark_phase_total vm current) as (vmt & Hmp & _ & Hg).
  rewrite Hmp in Hc. destruct (table_remove_white _ _) as [t|]; [|done].
  unfold sweep in Hc.
  destruct (sweep_loop sz _ _) as [[vm3 kept]|] eqn:Es; [|done].
  injection Hc as <-. vm_simpl. by rewrite (sweep_loop_gray _ _ _ _ Es).
Qed.

End gray_facts.

(** * The allocation counter *)

Section counter_facts.

Variable sz : Sizeof.

Lemma heap_bytes_alloc vm size p :
  heap_wf vm ->
  heap_bytes sz (fst (allocate_object vm size p))
  = heap_bytes sz vm + object_bytes sz (mkObject false p).
Proof.
  intros [Hnd Hdom]. unfold allocate_object, heap_bytes. vm_simpl.
  rewrite (live_bytes_cons sz _ _ _ (mkObject false p)) by apply lookup_insert_eq.
  rewrite (live_bytes_ext sz (heap vm) _ (objects vm)); [lia|].
  intros r Hr. rewrite lookup_insert_ne; [done|]. intros <-.
  apply Hdom in Hr as [o Ho]. by rewrite fresh_ref_None in Ho.
Qed.

Lemma slack_alloc vm size p :
  heap_wf vm ->
  size = object_bytes sz (mkObject false p) ->
  slack sz (fst (allocate_object vm size p)) = slack sz vm.
Proof.
  intros Hwf ->. unfold slack. rewrite (heap_bytes_alloc vm _ p Hwf).
  unfold allocate_object. vm_simpl. lia.
Qed.

(** [allocate_string] takes over the buffer of the characters. *)
Lemma allocate_string_slack vm chars len hash vm' r :
  heap_wf vm ->
  allocate_string sz vm chars len hash = Some (vm', r) ->
  slack sz vm' = slack sz vm - (len + 1).
Proof.
  intros Hwf Ha. unfold allocate_string in Ha.
  pose proof (heap_bytes_alloc vm (sizeof_ObjectString sz)
                (OBJECT_STRING (mkString len chars hash)) Hwf) as Hb.
  assert (Hba : bytes_allocated (fst (allocate_object vm (sizeof_ObjectString sz)
                                        (OBJECT_STRING (mkString len chars hash))))
                = bytes_allocated vm + sizeof_ObjectString sz)
    by (unfold allocate_object; vm_simpl; lia).
  assert (Hgl : globals (fst (allocate_object vm (sizeof_ObjectString sz)
                                (OBJECT_STRING (mkString len chars hash))))
                = globals vm) by done.
  assert (Hst : strings (fst (allocate_object vm (sizeof_ObjectString sz)
                                (OBJECT_STRING (mkString len chars hash))))
                = strings vm) by done.
  destruct (allocate_object vm _ _) as [vm1 s]. simpl in Hb, Hba, Hgl, Hst.
  unfold vm_table_set in Ha.
  destruct (table_set _ _ _ _) as [[t' b]|]; [|done].
  injection Ha as <- <-. unfold slack, heap_bytes in *. revert Hb Hba Hgl Hst.
  unfold stack_pop, table_bytes, object_bytes. vm_simpl. simpl.
  intros Hb Hba -> ->. lia.
Qed.

Lemma copy_string_slack vm chars vm' r :
  heap_wf vm ->
  copy_string sz vm chars = Some (vm', r) ->
  slack sz vm' = slack sz vm.
Proof.
  intros Hwf Hc. unfold copy_string in Hc.
  destruct (table_find_string _ _ _ _ _) as [[k|]|]; try done.
  - by injection Hc as <- <-.
  - apply allocate_string_slack in Hc; [|by apply (heap_wf_same vm)].
    rewrite Hc. unfold slack, heap_bytes. vm_simpl. lia.
Qed.

Lemma take_string_slack vm chars vm' r :
  heap_wf vm ->
  take_string sz vm chars = Some (vm', r) ->
  slack sz vm' = slack sz vm - (strlen chars + 1).
Proof.
  intros Hwf Hc. unfold take_string in Hc.
  destruct (table_find_string _ _ _ _ _) as [[k|]|]; try done.
  - injection Hc as <- <-. unfold slack, heap_bytes. vm_simpl. lia.
  - by apply allocate_string_slack in Hc.
Qed.

Lemma define_native_slack vm name f vm' :
  heap_wf vm -> define_native sz vm name f = Some vm' -> slack sz vm' = slack sz vm.
Proof.
  intros Hwf Hd. unfold define_native in Hd.
  destruct (copy_string sz vm name) as [[vm1 s]|] eqn:Ec; [|done].
  pose proof (copy_string_slack _ _ _ _ Hwf Ec) as Hs1.
  assert (Hw1 : heap_wf vm1).
  { apply (intern_heap_wf sz vm (mkIntern false name) vm1 s Hwf Ec). }
  set (vm2 := stack_push vm1 (OBJECT_VALUE s)) in *.
  assert (Hw2 : heap_wf vm2) by (by apply (heap_wf_same vm1)).
  assert (Hs2 : slack sz vm2 = slack sz vm1) by done.
  pose proof (slack_alloc vm2 (sizeof_ObjectNative sz) (OBJECT_NATIVE (mkNative f))
                Hw2 eq_refl) as Hs3.
  assert (Hg3 : globals (fst (allocate_object vm2 (sizeof_ObjectNative sz)
                                (OBJECT_NATIVE (mkNative f)))) = globals vm2) by done.
  assert (Hb3 : forall x, heap_bytes sz (set_stack_top (stack_write x 0 NIL_VALUE) 0)
                          = heap_bytes sz x) by done.
  unfold new_native in Hd.
  destruct (allocate_object vm2 _ _) as [vm3 n]. simpl in Hs3, Hg3.
  destruct (AS_OBJECT _) as [k|]; [|done].
  unfold vm_table_set in Hd. destruct (table_set _ _ _ _) as [[t b]|]; [|done].
  injection Hd as <-. rewrite <- Hs1, <- Hs2, <- Hs3.
  unfold slack, heap_bytes, stack_pop, table_bytes. vm_simpl. lia.
Qed.

Lemma init_vm_accounted vm : init_vm sz = Some vm -> accounted sz vm.
Proof.
  unfold init_vm. intros Hi.
  match type of Hi with
  | (copy_string _ ?v _ ≫= _) = _ => set (vm0 := v) in *
  end.
  assert (H0 : gc_inv vm0) by (apply gc_inv_empty; reflexivity).
  assert (Hs0 : slack sz vm0 = 0).
  { unfold slack, heap_bytes. change (objects vm0) with (@nil nat).
    change (bytes_allocated vm0) with 0. change (globals vm0) with init_table.
    change (strings vm0) with init_table. simpl. lia. }
  clearbody vm0.
  destruct (copy_string sz vm0 "init"%string) as [[vm1 s]|] eqn:Ec; [|done].
  cbn [mbind option_bind] in Hi.
  pose proof (copy_string_slack _ _ _ _ (proj2 H0) Ec) as Hs1.
  apply (gc_inv_copy_string sz vm0 "init"%string) in Ec; [|done].
  apply define_native_slack in Hi; [|by apply (heap_wf_same vm1); [| |apply Ec]].
  unfold accounted. rewrite Hi. unfold slack, heap_bytes in *. vm_simpl. lia.
Qed.

Lemma collect_garbage_slack vm current vm' :
  gc_inv vm -> collect_garbage sz vm current = Some vm' -> slack sz vm' = slack sz vm.
Proof.
  intros [Hpool Hwf] Hc.
  destruct (collect_garbage_spec sz vm current Hwf (pool_wf _ Hpool))
    as (vmt & vm2 & _ & _ & Hc' & _ & _ & _ & _ & _ & Hcap & _ & _ & Hb & _ & Hg & _).
  { intros k Hk. destruct (pool_keys _ Hpool k Hk) as (s & Hs & _).
    apply AS_STRING_lookup in Hs as [m Hs]. by eexists. }
  rewrite Hc in Hc'. injection Hc' as <-. unfold slack. rewrite Hcap, Hg. lia.
Qed.

Lemma free_objects_loop_spec objs :
  forall vm,
    NoDup objs ->
    (forall r, r ∈ objs -> is_Some (heap vm !! r)) ->
    exists vm',
      free_objects_loop sz vm objs = Some vm' /\
      bytes_allocated vm' = bytes_allocated vm - live_bytes sz (heap vm) objs /\
      (forall r, heap vm' !! r = if decide (r ∈ objs) then None else heap vm !! r) /\
      globals vm' = globals vm /\ strings vm' = strings vm /\
      init_string vm' = init_string vm /\ objects vm' = objects vm.
Proof.
  induction objs as [|r objs IH]; intros vm Hnd Hin.
  - exists vm. simpl. split; [done|]. split; [lia|]. repeat split; try done.
  - apply NoDup_cons in Hnd as [Hnotin Hnd].
    destruct (Hin r) as [o Ho]; [by left|].
    destruct (free_object_spec sz vm r o Ho)
      as (vm1 & E1 & Hh1 & Hb1 & Ho1 & Hs1 & Hg1 & _ & _ & _ & _ & _ & Hi1 & _).
    destruct (IH vm1 Hnd) as (vm' & E & Hb & Hh & Hg & Hs & Hi & Ho').
    { intros r' Hr'. rewrite Hh1, lookup_delete_ne by (intros ->; done).
      apply Hin. by right. }
    exists vm'. simpl. rewrite E1. split; [done|]. split.
    { rewrite Hb, Hb1, Ho.
      rewrite (live_bytes_ext sz (heap vm) (heap vm1) objs); [lia|].
      intros r' Hr'. rewrite Hh1, lookup_delete_ne by (intros ->; done). done. }
    split; [|repeat split; congruence].
    intros r'. rewrite Hh, Hh1. destruct (decide (r' = r)) as [->|Hne].
    + rewrite lookup_delete_eq.
      destruct (decide (r ∈ r :: objs)) as [_|n]; [|exfalso; apply n; left].
      by destruct (decide (r ∈ objs)).
    + rewrite lookup_delete_ne by done.
      destruct (decide (r' ∈ objs)) as [Hi'|Hi'];
        destruct (decide (r' ∈ r :: objs)) as [Hj|Hj]; try done.
      * exfalso. apply Hj. by right.
      * exfalso. apply elem_of_cons in Hj as [?|?]; done.
Qed.

End counter_facts.

(** * The claims of the specification *)

Section claims_table.

Variable key_hash : ObjRef -> Z.

(** C9.  [table_del] of a key that is in the table turns its entry into a
    tombstone (key [NULL], value [true]) and leaves [count] and [capacity]
    as they are.  A later [table_set] of a new key whose search returns a
    tombstone stores the key there without adding to [count]; the
    tombstone left by the deletion is returned to a new key whose probe
    sequence starts on it.  [find_entry] walks over tombstones: every
    other key of the table is still found after the deletion. *)
Theorem C9_tombstones (t : Table) (k : ObjRef) (v : Value) :
  table_wf key_hash t ->
  binding t k v ->
  exists (i : nat) (t' : Table),
    entries t !! i = Some (mkEntry (Some k) v) /\
    table_del key_hash t k = Some (t', true) /\
    entries t' = <[i := mkEntry None (BOOL_VALUE true)]> (entries t) /\
    count t' = count t /\
    capacity t' = capacity t /\
    table_wf key_hash t' /\
    (forall k' v' j e,
       over_load t' = false ->
       find_entry key_hash (entries t') (capacity t') k' = Some j ->
       entry_at (entries t') j = Some e ->
       is_tombstone e = true ->
       exists t'',
         table_set key_hash t' k' v' = Some (t'', true) /\
         entries t'' = store (entries t') j (mkEntry (Some k') v') /\
         count t'' = count t') /\
    (forall k' v',
       ~ bound (entries t') k' ->
       over_load t' = false ->
       key_hash k' mod capacity t' = Z.of_nat i ->
       exists t'',
         table_set key_hash t' k' v' = Some (t'', true) /\
         entries t'' = <[i := mkEntry (Some k') v']> (entries t') /\
         count t'' = count t') /\
    (forall k' v',
       k' <> k -> binding t k' v' -> table_get key_hash t' k' = Some (Some v')).
Proof.
  intros Hwf Hb.
  destruct (table_del_present key_hash t k v Hwf Hb) as (i & Hi & Hdel).
  destruct (table_del_spec key_hash t k Hwf)
    as (t' & b & Hdel' & Hwf' & _ & Hcount & Hcap & Hbind).
  rewrite Hdel in Hdel'. injection Hdel' as <- <-.
  eexists i, _. split; [done|]. split; [exact Hdel|]. simpl.
  split; [done|]. split; [done|]. split; [done|]. split; [done|].
  split; [|split].
  - intros k' v' j e Hl Hf He Ht.
    eexists. split; [by eapply table_set_over_tombstone|]. done.
  - intros k' v' Hnb Hl Hh.
    set (t' := mkTable _ _ _) in *.
    assert (Hlt : (i < length (entries t))%nat) by (by eapply lookup_lt_Some).
    assert (Hcap' : 0 < capacity t').
    { destruct Hwf as [Hc _ _ _]. simpl. lia. }
    assert (Hti : entries t' !! i = Some (mkEntry None (BOOL_VALUE true))).
    { simpl. by apply list_lookup_insert_eq. }
    pose proof (find_entry_first_tombstone key_hash t' k' i _ Hwf' Hcap' Hti eq_refl Hnb Hh)
      as Hf.
    assert (Hti' : entry_at (entries t') (Z.of_nat i)
                   = Some (mkEntry None (BOOL_VALUE true))) by (by rewrite entry_at_nat).
    pose proof (table_set_over_tombstone key_hash t' k' v' (Z.of_nat i) _ Hl Hf Hti' eq_refl)
      as Hset.
    eexists. split; [exact Hset|]. simpl. unfold store. by rewrite Nat2Z.id.
  - intros k' v' Hne Hb'. apply table_get_bound; [done|]. apply Hbind. done.
Qed.

End claims_table.

Lemma colliding_wf : table_wf Examples.key_hash Examples.colliding.
Proof.
  unfold Examples.colliding.
  destruct (table_set_spec Examples.key_hash init_table 1%nat (BOOL_VALUE false)
              (table_wf_init _)) as (t1 & b1 & -> & Hwf1 & _).
  destruct (table_set_spec Examples.key_hash t1 9%nat NIL_VALUE Hwf1)
    as (t2 & b2 & -> & Hwf2 & _).
  done.
Qed.

(** C9 on the table with the keys 1 and 9, which both hash to slot 1 of 8:
    deleting 1 leaves a tombstone in slot 1 and the count at 2, and 9, one
    slot further, is still found. *)
Lemma C9_tombstones_witness :
  table_wf Examples.key_hash Examples.colliding /\
  binding Examples.colliding 1%nat (BOOL_VALUE false) /\
  exists t',
    table_del Examples.key_hash Examples.colliding 1%nat = Some (t', true) /\
    entries t' !! 1%nat = Some (mkEntry None (BOOL_VALUE true)) /\
    count t' = 2 /\
    table_get Examples.key_hash t' 9%nat = Some (Some NIL_VALUE).
Proof.
  assert (Hb : binding Examples.colliding 1%nat (BOOL_VALUE false))
    by (exists 1%nat; vm_compute; reflexivity).
  split; [exact colliding_wf|]. split; [exact Hb|].
  destruct (C9_tombstones Examples.key_hash Examples.colliding 1%nat (BOOL_VALUE false)
              colliding_wf Hb)
    as (i & t' & Hi & Hdel & Hent & Hc & Hcap & Hwf & _ & _ & Hget).
  exists t'. split; [exact Hdel|].
  assert (Hdel' : table_del Examples.key_hash Examples.colliding 1%nat
                  = Some (mkTable 2 8 (<[1%nat := mkEntry None (BOOL_VALUE true)]>
                                          (entries Examples.colliding)), true))
    by (vm_compute; reflexivity).
  rewrite Hdel' in Hdel. injection Hdel as <-.
  split; [vm_compute; reflexivity|]. split; [reflexivity|].
  apply Hget; [discriminate|]. exists 2%nat. vm_compute. reflexivity.
Defined.

Section claims_run.

Variable sz : Sizeof.
Variable native_call : NativeFn -> Z -> list Value -> Value.

(** C6. [OP_RETURN].  In a frame that is not the base frame: the return
    value is popped, every open upvalue at or above the frame's base slot
    is closed over the value its slot holds and leaves the open list (the
    ones below stay open), the frame count goes down by one, the stack top
    is the frame base plus the pushed return value, the other frames are
    untouched, and the loop goes on in the caller's frame.  In the base
    frame [run] ends with [INTERPRET_OK]. *)
Theorem C6_op_return (fuel : nat) (vm vm1 : VM) (frame : Z) :
  open_upvalues_sorted vm ->
  frame = frame_count vm - 1 ->
  READ_BYTE vm frame = Some (vm1, byte_of_opcode OP_RETURN) ->
  exists fr,
    frames vm !! frame = Some fr /\
    (frame_count vm <> 1 ->
     exists vm',
       dispatch sz native_call vm frame = Some (Continue vm' (frame - 1)) /\
       run_loop sz native_call (S fuel) vm frame
       = run_loop sz native_call fuel vm' (frame - 1) /\
       frame_count vm' = frame_count vm - 1 /\
       stack_top vm' = slots fr + 1 /\
       peek vm' 0 = peek vm 0 /\
       (forall i, i <> frame -> frames vm' !! i = frames vm !! i) /\
       open_upvalues_sorted vm' /\
       (forall u l, u ∈ open_upvalues vm -> open_slot (heap vm) u = Some l ->
          (slots fr <= l ->
             closed_with (heap vm') u (stack_read vm l) /\ u ∉ open_upvalues vm') /\
          (l < slots fr ->
             u ∈ open_upvalues vm' /\ open_slot (heap vm') u = Some l))) /\
    (frame_count vm = 1 ->
     exists vm',
       dispatch sz native_call vm frame = Some (Return vm' INTERPRET_OK) /\
       run_loop sz native_call (S fuel) vm frame = Some (vm', INTERPRET_OK) /\
       frame_count vm' = 0).
Proof.
  intros Hsorted Hframe Hread.
  pose proof (dispatch_OP_RETURN sz native_call _ _ _ Hread) as Hd.
  apply READ_BYTE_spec in Hread as (fr & Hfr & ->).
  exists fr. split; [done|].
  set (vm1 := set_frames vm _) in *.
  set (vm2 := fst (stack_pop vm1)).
  assert (Hs2 : open_upvalues_sorted vm2) by (by apply (sorted_same_heap vm)).
  destruct (close_upvalues_spec vm2 (slots fr) Hs2)
    as (vm3 & Hclose & Hs3 & Hsub & Hel & _ & Hst & Htop & Hfrm & Hfc & _).
  assert (Hop : op_return vm1 frame =
            if frame_count vm - 1 =? 0
            then Some (Return (fst (stack_pop (set_frame_count vm3 (frame_count vm - 1))))
                         INTERPRET_OK)
            else Some (Continue
                         (stack_push (set_stack_top (set_frame_count vm3 (frame_count vm - 1))
                                        (slots fr)) (peek vm 0))
                         (frame_count vm - 1 - 1))).
  { unfold op_return. unfold stack_pop at 1. fold vm2.
    replace (frames (set_stack_top vm1 (stack_top vm1 - 1)) !! frame)
      with (Some (mkCallFrame (closure fr) (ip fr + 1) (slots fr)))
      by (unfold vm1; vm_simpl; by rewrite lookup_insert_eq).
    cbn [mbind option_bind slots].
    change (set_stack_top vm1 (stack_top vm1 - 1)) with vm2.
    rewrite Hclose. cbn [mbind option_bind].
    rewrite Hfc. unfold vm2, vm1. vm_simpl. unfold stack_pop. vm_simpl.
    unfold peek, stack_read. vm_simpl. rewrite Z.sub_0_r.
    destruct (frame_count vm - 1 =? 0); reflexivity. }
  rewrite Hop in Hd. split.
  - intros Hne. destruct (Z.eqb_spec (frame_count vm - 1) 0) as [?|_]; [lia|].
    eexists. subst frame. split; [exact Hd|]. split; [by apply run_loop_continue|].
    vm_simpl. split; [done|]. split; [done|]. split.
    { unfold peek, stack_read. vm_simpl.
      replace (slots fr + 1 - 1 - 0) with (slots fr) by lia.
      by rewrite lookup_insert_eq. }
    split.
    { intros i Hi. rewrite Hfrm. unfold vm2, vm1, stack_pop. vm_simpl.
      by rewrite lookup_insert_ne. }
    split.
    { destruct Hs3 as (ls & H1 & H2). by exists ls. }
    intros u l Hu Hl. specialize (Hel u l Hu Hl). split.
    + intros Hle. destruct Hel as [[Hc Hn] _]; [done|]. split; [|done].
      unfold closed_with in *. vm_simpl. done.
    + intros Hlt. destruct Hel as [_ [Hin Ho]]; [done|]. split; [done|].
      vm_simpl. done.
  - intros Heq. destruct (Z.eqb_spec (frame_count vm - 1) 0) as [_|?]; [|lia].
    eexists. split; [exact Hd|]. split; [by apply run_loop_return|].
    unfold stack_pop. vm_simpl. lia.
Qed.

(** C8 (amended).  [OP_SET_GLOBAL] with a name that has no binding in the
    globals table: [run] returns [INTERPRET_RUNTIME_ERROR], the table is
    left without a binding for the name and with every other binding as it
    was (each lookup answers as before).  With a name that has a binding:
    no error, the loop goes on, the name is bound to the value on top of
    the stack and the other bindings are as before. *)
Theorem C8_op_set_global (fuel : nat) (vm vm1 vm2 : VM) (frame : Z) (name : ObjRef) :
  table_wf (string_hash (heap vm)) (globals vm) ->
  READ_BYTE vm frame = Some (vm1, byte_of_opcode OP_SET_GLOBAL) ->
  READ_STRING vm1 frame = Some (vm2, name) ->
  (~ bound (entries (globals vm)) name ->
     exists vm',
       run_loop sz native_call (S fuel) vm frame = Some (vm', INTERPRET_RUNTIME_ERROR) /\
       table_wf (string_hash (heap vm')) (globals vm') /\
       ~ bound (entries (globals vm')) name /\
       table_get (string_hash (heap vm')) (globals vm') name = Some None /\
       (forall k v, binding (globals vm') k v <-> binding (globals vm) k v) /\
       (forall k, table_get (string_hash (heap vm')) (globals vm') k
                  = table_get (string_hash (heap vm)) (globals vm) k)) /\
  (bound (entries (globals vm)) name ->
     exists vm',
       dispatch sz native_call vm frame = Some (Continue vm' frame) /\
       run_loop sz native_call (S fuel) vm frame = run_loop sz native_call fuel vm' frame /\
       table_wf (string_hash (heap vm')) (globals vm') /\
       table_get (string_hash (heap vm')) (globals vm') name = Some (Some (peek vm 0)) /\
       (forall k, k <> name ->
          table_get (string_hash (heap vm')) (globals vm') k
          = table_get (string_hash (heap vm)) (globals vm) k)).
Proof.
  intros Hwf Hread Hname.
  pose proof (dispatch_OP_SET_GLOBAL sz native_call _ _ _ Hread) as Hd.
  apply READ_BYTE_only_frames in Hread as [f1 ->].
  pose proof (READ_STRING_only_frames _ _ _ _ Hname) as [f2 E2].
  unfold op_set_global in Hd. rewrite Hname in Hd. cbn [mbind option_bind] in Hd.
  subst vm2. unfold vm_table_set in Hd. revert Hd. vm_simpl.
  change (peek _ 0) with (peek vm 0).
  destruct (table_set_spec (string_hash (heap vm)) (globals vm) name (peek vm 0) Hwf)
    as (t' & b & -> & Hwf' & Hb & Hbind).
  cbn [mbind option_bind]. intros Hd. vm_simpl_in Hd. split.
  - intros Hnb. assert (b = true) as -> by (by apply Hb).
    destruct (table_del_spec (string_hash (heap vm)) t' name Hwf')
      as (t2 & b2 & Hdel & Hwf2 & _ & _ & _ & Hbind2).
    rewrite Hdel in Hd.
    eexists. split; [by apply run_loop_return|]. vm_simpl.
    assert (Hsame : forall k v, binding t2 k v <-> binding (globals vm) k v).
    { intros k v. rewrite Hbind2, Hbind. split.
      - intros [Hne [[? _]|[_ ?]]]; done.
      - intros Hbk. assert (k <> name).
        { intros ->. apply Hnb, bound_holds. eauto. }
        split; [done|]. by right. }
    assert (Hnb2 : ~ bound (entries t2) name).
    { intros Hb2. apply bound_holds in Hb2 as [v Hv].
      apply Hnb, bound_holds. exists v. by apply Hsame. }
    split; [done|]. split; [done|]. split; [by apply table_get_unbound|].
    split; [done|]. intros k. apply table_get_ext; first [done | intros v; apply Hsame].
  - intros Hbd. assert (b = false) as ->.
    { destruct b; [|done]. exfalso. by apply Hb. }
    eexists. split; [exact Hd|]. split; [by apply run_loop_continue|]. vm_simpl.
    split; [done|]. split.
    + apply table_get_bound; [done|]. apply Hbind. by left.
    + intros k Hk. apply table_get_ext; [done|done|]. intros v. rewrite Hbind.
      split; [intros [[? _]|[_ ?]]; done|]. intros; by right.
Qed.

(** C2.  What [interpret] does between [compile] and [run], on a VM whose
    value stack is empty and for a compiled script (arity 0): it pops from
    the empty stack, so the stack pointer goes below the stack base, and
    the base frame it pushes has its [slots] at index -1, outside
    [vm.stack]; the closure sits in that cell. *)
Theorem C2_interpret_setup (vm : VM) (fn : ObjRef) (f : ObjectFunction) :
  AS_FUNCTION (heap vm) fn = Some f ->
  arity f = 0 ->
  frame_count vm = 0 ->
  stack_top vm = 0 ->
  exists vm' cl,
    interpret_setup sz native_call vm fn = Some vm' /\
    stack_top (fst (stack_pop vm)) = -1 /\
    frame_count vm' = 1 /\
    frames vm' !! 0 = Some (mkCallFrame cl 0 (-1)) /\
    ~ in_stack_array (-1) /\
    stack_top vm' = 0 /\
    stack_read vm' (-1) = OBJECT_VALUE cl /\
    (exists c, AS_CLOSURE (heap vm') cl = Some c /\ function c = fn).
Proof.
  intros Hf Har Hfc Htop.
  unfold interpret_setup, new_closure. rewrite Hf. cbn [mbind option_bind].
  unfold allocate_object. vm_simpl.
  set (c := mkClosure fn _ _).
  set (cl := fresh_ref (heap vm)).
  unfold stack_pop. vm_simpl.
  unfold call_value. vm_simpl. rewrite lookup_insert_eq. cbn [payload].
  unfold call, AS_CLOSURE, AS_FUNCTION. vm_simpl. rewrite lookup_insert_eq.
  change (function c) with fn.
  assert (Hne : cl <> fn).
  { intros E. unfold AS_FUNCTION in Hf. rewrite <- E in Hf.
    unfold cl in Hf. by rewrite fresh_ref_None in Hf. }
  rewrite lookup_insert_ne by done.
  unfold AS_FUNCTION in Hf.
  destruct (heap vm !! fn) as [[m []]|] eqn:Eh; try done.
  injection Hf as ->. rewrite Har, Hfc, Htop. cbn [mbind option_bind negb Z.eqb].
  change (0 =? FRAMES_MAX) with false. cbn [mbind option_bind].
  eexists _, cl. split; [done|]. vm_simpl.
  split; [lia|]. split; [done|]. split; [by rewrite lookup_insert_eq|].
  split; [unfold in_stack_array; lia|]. split; [done|]. split.
  - unfold stack_read. vm_simpl. by rewrite lookup_insert_eq.
  - exists c. by rewrite lookup_insert_eq.
Qed.

(** C3.  [OP_CALL] with an argument count that does not match.  For a
    closure the call fails and [run] returns [INTERPRET_RUNTIME_ERROR].
    For a class without methods called with arguments, [call_value]
    reports the error, which resets the stack and the frames, and then
    returns [true]: the loop goes on with [frame_count] 0 and the frame
    pointer at [vm.frames[-1]], and no result is ever returned. *)
Theorem C3_op_call_arity (vm vm1 vm2 : VM) (frame arg_count : Z) (r : ObjRef) :
  READ_BYTE vm frame = Some (vm1, byte_of_opcode OP_CALL) ->
  READ_BYTE vm1 frame = Some (vm2, arg_count) ->
  peek vm arg_count = OBJECT_VALUE r ->
  0 <= frame ->
  frames vm !! (-1) = None ->
  (forall c f,
     AS_CLOSURE (heap vm) r = Some c ->
     AS_FUNCTION (heap vm) (function c) = Some f ->
     arg_count <> arity f ->
     exists vm', forall fuel,
       run_loop sz native_call (S fuel) vm frame = Some (vm', INTERPRET_RUNTIME_ERROR)) /\
  (forall k,
     AS_CLASS (heap vm) r = Some k ->
     count (methods k) = 0 ->
     arg_count <> 0 ->
     exists vm',
       dispatch sz native_call vm frame = Some (Continue vm' (-1)) /\
       frame_count vm' = 0 /\ stack_top vm' = 0 /\
       forall fuel, run_loop sz native_call fuel vm frame = None).
Proof.
  intros Hread Hargs Hpeek Hframe Hneg.
  pose proof (dispatch_OP_CALL sz native_call _ _ _ Hread) as Hd.
  apply READ_BYTE_spec in Hread as (fr & Hfr & ->).
  pose proof Hargs as Hargs'.
  apply READ_BYTE_spec in Hargs' as (fr1 & Hfr1 & E2).
  unfold op_call in Hd. rewrite Hargs in Hd. cbn [mbind option_bind] in Hd.
  assert (Hp2 : peek vm2 arg_count = OBJECT_VALUE r) by (by subst vm2).
  assert (Hh2 : heap vm2 = heap vm) by (by subst vm2).
  assert (Hf2 : frames vm2 !! (-1) = None).
  { subst vm2. vm_simpl. by rewrite !lookup_insert_ne by lia. }
  rewrite Hp2 in Hd. clear E2 Hargs.
  split.
  - intros c f Hc Hf Hne. rewrite <- Hh2 in Hc, Hf.
    rewrite (call_closure_arity sz native_call vm2 r c f arg_count Hc Hf Hne) in Hd.
    cbn [mbind option_bind negb] in Hd.
    eexists. intros fuel. by apply run_loop_return.
  - intros k Hk Hcount Hne.
    unfold AS_CLASS in Hk. rewrite <- Hh2 in Hk.
    destruct (heap vm2 !! r) as [[m []]|] eqn:Eh; try done. injection Hk as ->.
    destruct (call_value_class_no_methods sz native_call vm2 r m k arg_count Eh Hcount Hne)
      as (vm' & Hcv & Hfc & Htop & _ & Hfrm).
    rewrite Hcv in Hd. cbn [mbind option_bind negb] in Hd. rewrite Hfc in Hd.
    change (0 - 1) with (-1) in Hd.
    exists vm'. split; [exact Hd|]. split; [done|]. split; [done|].
    intros [|fuel]; [done|]. rewrite (run_loop_continue _ _ _ _ _ _ _ Hd).
    destruct fuel as [|fuel]; [done|].
    cbn [run_loop]. unfold dispatch, READ_BYTE, frame_function.
    rewrite Hfrm, Hf2. reflexivity.
Qed.


End claims_run.

(** The globals of the example states hold the native [clock] only, on the
    slot of its hash. *)
Lemma at_set_global_wf :
  table_wf (string_hash (heap (Examples.at_set_global "x"%string)))
           (globals (Examples.at_set_global "x"%string)).
Proof.
  split.
  - vm_compute. reflexivity.
  - vm_compute. reflexivity.
  - vm_compute. discriminate.
  - apply all_reachable_home; [vm_compute; reflexivity|].
    intros i e k Hi Hk.
    assert (Hes : entries (globals (Examples.at_set_global "x"%string))
                  = replicate 5 (mkEntry None NIL_VALUE)
                    ++ [mkEntry (Some 1%nat) (OBJECT_VALUE 2)]
                    ++ replicate 2 (mkEntry None NIL_VALUE))
      by (vm_compute; reflexivity).
    rewrite Hes in Hi. clear Hes.
    do 8 (destruct i as [|i];
          [injection Hi as <-;
           first [discriminate Hk | injection Hk as <-; vm_compute; reflexivity]|]).
    discriminate Hi.
Qed.

(** C6 on the return of [outer], whose local is captured: the upvalue is
    closed over [true], the frame is dropped and the loop goes on in the
    script. *)
Lemma C6_op_return_witness :
  open_upvalues_sorted Examples.at_return /\
  READ_BYTE Examples.at_return 1
  = Some (Examples.read Examples.at_return 1, byte_of_opcode OP_RETURN) /\
  exists vm',
    dispatch Examples.sz Examples.native_call Examples.at_return 1 = Some (Continue vm' 0) /\
    frame_count vm' = 1 /\
    closed_with (heap vm') 9%nat (BOOL_VALUE true) /\
    open_upvalues_sorted vm'.
Proof.
  assert (Hs : open_upvalues_sorted Examples.at_return).
  { exists [1]. split; [|repeat constructor]. vm_compute.
    constructor; [reflexivity|constructor]. }
  assert (Hr : READ_BYTE Examples.at_return 1
               = Some (Examples.read Examples.at_return 1, byte_of_opcode OP_RETURN))
    by (vm_compute; reflexivity).
  assert (Hf : 1 = frame_count Examples.at_return - 1) by (vm_compute; reflexivity).
  split; [exact Hs|]. split; [exact Hr|].
  destruct (C6_op_return Examples.sz Examples.native_call 0 Examples.at_return
              (Examples.read Examples.at_return 1) 1 Hs Hf Hr)
    as (fr & Hfr & Hcont & _).
  assert (Hfr' : frames Examples.at_return !! 1 = Some (mkCallFrame 7 5 0))
    by (vm_compute; reflexivity).
  rewrite Hfr' in Hfr. injection Hfr as <-.
  destruct Hcont as (vm' & Hd & _ & Hfc & _ & _ & _ & Hsorted & Hcl);
    [vm_compute; discriminate|].
  exists vm'. split; [exact Hd|]. split; [rewrite Hfc; vm_compute; reflexivity|].
  split; [|exact Hsorted].
  assert (Hin : 9%nat ∈ open_upvalues Examples.at_return)
    by (vm_compute; apply list_elem_of_here).
  assert (Ho : open_slot (heap Examples.at_return) 9%nat = Some 1)
    by (vm_compute; reflexivity).
  destruct (Hcl 9%nat 1 Hin Ho) as [Hge _].
  destruct Hge as [Hc _]; [vm_compute; discriminate|].
  assert (Hv : stack_read Examples.at_return 1 = BOOL_VALUE true)
    by (vm_compute; reflexivity).
  rewrite Hv in Hc. exact Hc.
Defined.

(** The claim C8 as stated fails on [x = nil;] with no global [x]: the run
    ends with a runtime error, and the globals table is not the table it
    was. *)
Lemma C8_table_changed :
  exists vm',
    run_loop Examples.sz Examples.native_call 1 (Examples.at_set_global "x"%string) 0
    = Some (vm', INTERPRET_RUNTIME_ERROR) /\
    count (globals (Examples.at_set_global "x"%string)) = 1 /\
    count (globals vm') = 2 /\
    globals vm' <> globals (Examples.at_set_global "x"%string).
Proof.
  eexists. split; [vm_compute; reflexivity|].
  split; [vm_compute; reflexivity|]. split; [vm_compute; reflexivity|].
  vm_compute. discriminate.
Defined.

(** C8 on the same state: the error is returned, [x] is not bound
    afterwards and [clock] is bound as before. *)
Lemma C8_op_set_global_witness :
  table_wf (string_hash (heap (Examples.at_set_global "x"%string)))
           (globals (Examples.at_set_global "x"%string)) /\
  ~ bound (entries (globals (Examples.at_set_global "x"%string))) 3%nat /\
  exists vm',
    run_loop Examples.sz Examples.native_call 1 (Examples.at_set_global "x"%string) 0
    = Some (vm', INTERPRET_RUNTIME_ERROR) /\
    ~ bound (entries (globals vm')) 3%nat /\
    table_get (string_hash (heap vm')) (globals vm') 1%nat = Some (Some (OBJECT_VALUE 2)).
Proof.
  pose proof at_set_global_wf as Hwf.
  assert (Hnb : ~ bound (entries (globals (Examples.at_set_global "x"%string))) 3%nat).
  { intros Hb. apply bound_holds in Hb as [v Hv].
    pose proof (table_get_bound _ _ _ _ Hwf Hv) as Hg.
    vm_compute in Hg. discriminate Hg. }
  split; [exact Hwf|]. split; [exact Hnb|].
  assert (Hr1 : READ_BYTE (Examples.at_set_global "x"%string) 0
                = Some (Examples.read (Examples.at_set_global "x"%string) 0,
                        byte_of_opcode OP_SET_GLOBAL))
    by (vm_compute; reflexivity).
  assert (Hr2 : READ_STRING (Examples.read (Examples.at_set_global "x"%string) 0) 0
                = Some (Examples.read (Examples.read (Examples.at_set_global "x"%string) 0) 0,
                        3%nat))
    by (vm_compute; reflexivity).
  destruct (C8_op_set_global Examples.sz Examples.native_call 0
              (Examples.at_set_global "x"%string)
              (Examples.read (Examples.at_set_global "x"%string) 0)
              (Examples.read (Examples.read (Examples.at_set_global "x"%string) 0) 0)
              0 3%nat Hwf Hr1 Hr2) as [Hnew _].
  destruct (Hnew Hnb) as (vm' & Hrun & _ & Hnb' & _ & _ & Hget).
  exists vm'. split; [exact Hrun|]. split; [exact Hnb'|].
  rewrite Hget. vm_compute. reflexivity.
Defined.

(** C2 on the script of the closures example: the base frame has its slots
    at index -1. *)
Lemma C2_interpret_setup_witness :
  exists vm' cl,
    interpret_setup Examples.sz Examples.native_call
      (fst Examples.closures_loaded) (snd Examples.closures_loaded) = Some vm' /\
    stack_top (fst (stack_pop (fst Examples.closures_loaded))) = -1 /\
    frames vm' !! 0 = Some (mkCallFrame cl 0 (-1)) /\
    ~ in_stack_array (-1).
Proof.
  assert (Hf : AS_FUNCTION (heap (fst Examples.closures_loaded))
                 (snd Examples.closures_loaded)
               = Some (mkFunction 0 0 (Examples.closures_chunk 4) None))
    by (vm_compute; reflexivity).
  assert (Hfc : frame_count (fst Examples.closures_loaded) = 0) by (vm_compute; reflexivity).
  assert (Htop : stack_top (fst Examples.closures_loaded) = 0) by (vm_compute; reflexivity).
  destruct (C2_interpret_setup Examples.sz Examples.native_call
              (fst Examples.closures_loaded) (snd Examples.closures_loaded)
              (mkFunction 0 0 (Examples.closures_chunk 4) None)
              Hf eq_refl Hfc Htop)
    as (vm' & cl & Hi & Hpop & _ & Hfr & Hout & _).
  exists vm', cl. split; [exact Hi|]. split; [exact Hpop|]. split; [exact Hfr|exact Hout].
Defined.

(** C3 on [A(nil)] for a class [A] without methods: the turn of [OP_CALL]
    goes on with no frame, and [run] returns no result. *)
Lemma C3_op_call_arity_witness :
  peek Examples.at_call 1 = OBJECT_VALUE 6 /\
  (exists vm',
     dispatch Examples.sz Examples.native_call Examples.at_call 0
     = Some (Continue vm' (-1)) /\ frame_count vm' = 0) /\
  forall fuel, run_loop Examples.sz Examples.native_call fuel Examples.at_call 0 = None.
Proof.
  assert (Hr1 : READ_BYTE Examples.at_call 0
                = Some (Examples.read Examples.at_call 0, byte_of_opcode OP_CALL))
    by (vm_compute; reflexivity).
  assert (Hr2 : READ_BYTE (Examples.read Examples.at_call 0) 0
                = Some (Examples.read (Examples.read Examples.at_call 0) 0, 1))
    by (vm_compute; reflexivity).
  assert (Hp : peek Examples.at_call 1 = OBJECT_VALUE 6) by (vm_compute; reflexivity).
  assert (Hn : frames Examples.at_call !! (-1) = None) by (vm_compute; reflexivity).
  destruct (C3_op_call_arity Examples.sz Examples.native_call Examples.at_call
              (Examples.read Examples.at_call 0)
              (Examples.read (Examples.read Examples.at_call 0) 0) 0 1
              6%nat Hr1 Hr2 Hp (Z.le_refl 0) Hn) as [_ Hclass].
  assert (Hk : AS_CLASS (heap Examples.at_call) 6%nat = Some (mkClass 3 init_table))
    by (vm_compute; reflexivity).
  assert (Hne : 1 <> 0) by discriminate.
  destruct (Hclass (mkClass 3 init_table) Hk eq_refl Hne) as (vm' & Hd & Hfc & _ & Hrun).
  split; [exact Hp|]. split; [|exact Hrun].
  exists vm'. split; [exact Hd|exact Hfc].
Defined.



Section claims_heap.

Variable sz : Sizeof.

(** C10 (amended).  A collection of a heap whose object list and string
    pool are well formed returns.  Every object still linked in
    [vm.objects] has its mark bit clear and the payload it had; every
    object that tracing left unmarked is unlinked and freed; the string
    table keeps the entries whose key tracing marked, and only those;
    [bytes_allocated] has gone down by the payload of the freed objects,
    so what it counts besides the linked objects (the tables of the VM,
    buffers not yet owned by an object) is as before; [next_gc] is twice
    [bytes_allocated]; the heap and the pool are well formed again. *)
Theorem C10_collect_garbage (vm : VM) (current : list (option ObjRef)) :
  gc_inv vm ->
  exists vmt vm',
    mark_phase vm current = Some vmt /\
    collect_garbage sz vm current = Some vm' /\
    (forall r, r ∈ objects vm' ->
       exists o, heap vm' !! r = Some o /\ is_marked o = false) /\
    (forall r, r ∈ objects vm -> marked_in (heap vmt) r = false ->
       (r ∉ objects vm') /\ heap vm' !! r = None) /\
    (forall r, r ∈ objects vm -> marked_in (heap vmt) r = true ->
       r ∈ objects vm' /\ payload <$> heap vm' !! r = payload <$> heap vm !! r) /\
    (forall k, bound (entries (strings vm')) k <->
               bound (entries (strings vm)) k /\ marked_in (heap vmt) k = true) /\
    bytes_allocated vm' - heap_bytes sz vm' = bytes_allocated vm - heap_bytes sz vm /\
    next_gc vm' = 2 * bytes_allocated vm' /\
    gc_inv vm'.
Proof.
  intros Hinv. pose proof Hinv as [Hpool Hwf].
  destruct (collect_garbage_spec sz vm current Hwf (pool_wf _ Hpool))
    as (vmt & vm' & Hmp & Hmo & Hc & Hobj & Hh & Hnone & _ & _ & _ & _ & Hbind & Hb
        & Hgc & _).
  { intros k Hk. destruct (pool_keys _ Hpool k Hk) as (s & Hs & _).
    apply AS_STRING_lookup in Hs as [m Hs]. by eexists. }
  exists vmt, vm'. split; [done|]. split; [done|].
  destruct Hmo as [Hpay _ _ _ _ _ _].
  split; [|split; [|split; [|split; [|split; [|split]]]]].
  - intros r Hr. rewrite Hobj in Hr. apply list_elem_of_filter in Hr as [Hm _].
    unfold marked_in in Hm. destruct (heap vmt !! r) as [o|] eqn:Eo; [|done].
    rewrite (Hh r o Eo), Hm. by eexists.
  - intros r Hr Hm. split.
    + rewrite Hobj. intros Hin. apply list_elem_of_filter in Hin as [Hm' _]. congruence.
    + unfold marked_in in Hm. destruct (heap vmt !! r) as [o|] eqn:Eo.
      * by rewrite (Hh r o Eo), Hm.
      * by apply Hnone.
  - intros r Hr Hm. split.
    + rewrite Hobj. by apply list_elem_of_filter.
    + rewrite <- Hpay. unfold marked_in in Hm.
      destruct (heap vmt !! r) as [o|] eqn:Eo; [|done].
      by rewrite (Hh r o Eo), Hm.
  - intros k. rewrite !bound_holds. split.
    + intros [v Hv]. apply Hbind in Hv as [Hv Hm]. split; [by exists v|done].
    + intros [[v Hv] Hm]. exists v. apply Hbind. done.
  - lia.
  - rewrite Hgc. unfold GC_HEAP_GROW_FACTOR. lia.
  - by apply (collect_garbage_inv sz vm current).
Qed.

End claims_heap.

Lemma started_gc_inv : gc_inv Examples.started.
Proof.
  apply (init_vm_gc_inv Examples.sz). vm_compute. reflexivity.
Qed.

Lemma with_garbage_gc_inv : gc_inv Examples.with_garbage.
Proof.
  apply (gc_inv_copy_string Examples.sz Examples.started "garbage"%string
           Examples.with_garbage 3%nat started_gc_inv).
  vm_compute. reflexivity.
Qed.

(** The claim C10 as stated fails on the VM that [init_vm] leaves: every
    object is reachable, and after the collection [bytes_allocated] is 499
    while the surviving objects take 115 bytes; the rest is the storage of
    the two tables of the VM. *)
Lemma C10_bytes_not_payload :
  exists vm',
    collect_garbage Examples.sz Examples.started [] = Some vm' /\
    objects vm' = objects Examples.started /\
    bytes_allocated vm' = 499 /\
    heap_bytes Examples.sz vm' = 115 /\
    bytes_allocated vm' <> heap_bytes Examples.sz vm'.
Proof.
  eexists. split; [vm_compute; reflexivity|].
  split; [vm_compute; reflexivity|]. split; [vm_compute; reflexivity|].
  split; [vm_compute; reflexivity|]. vm_compute. discriminate.
Defined.

(** C10 on the VM with one string that nothing refers to: the string is
    unlinked and freed, its entry leaves the pool, and what
    [bytes_allocated] counts besides the objects stays at 384. *)
Lemma C10_collect_garbage_witness :
  gc_inv Examples.with_garbage /\
  exists vm',
    collect_garbage Examples.sz Examples.with_garbage [] = Some vm' /\
    3%nat ∈ objects Examples.with_garbage /\
    (3%nat ∉ objects vm') /\
    heap vm' !! 3%nat = None /\
    ~ bound (entries (strings vm')) 3%nat /\
    bytes_allocated vm' - heap_bytes Examples.sz vm' = 384.
Proof.
  split; [exact with_garbage_gc_inv|].
  destruct (C10_collect_garbage Examples.sz Examples.with_garbage [] with_garbage_gc_inv)
    as (vmt & vm' & Hmp & Hc & _ & Hfree & _ & Hpool & Hbytes & _).
  assert (Hin : 3%nat ∈ objects Examples.with_garbage)
    by (vm_compute; apply list_elem_of_here).
  assert (Hm : marked_in (heap vmt) 3%nat = false).
  { vm_compute in Hmp. injection Hmp as <-. vm_compute. reflexivity. }
  destruct (Hfree 3%nat Hin Hm) as [Hnotin Hnone].
  exists vm'. split; [exact Hc|]. split; [exact Hin|]. split; [exact Hnotin|].
  split; [exact Hnone|]. split.
  - intros Hb. apply Hpool in Hb as [_ Hm']. rewrite Hm in Hm'. discriminate Hm'.
  - rewrite Hbytes. vm_compute. reflexivity.
Defined.

Section claims_pool.

Variable sz : Sizeof.



End claims_pool.

Lemma started_init_interned : interned Examples.started "init"%string 0%nat.
Proof.
  split.
  - exists 3%nat, (mkEntry (Some 0%nat) NIL_VALUE). split; vm_compute; reflexivity.
  - exists (mkString 4 "init"%string 380752755). split; vm_compute; reflexivity.
Qed.



(** C1.  The code on [true and false;].  The rule of [TOKEN_AND] has no
    infix function and the lowest precedence, and [and_] is the infix
    function of [TOKEN_NUMBER]: the expression statement ends before [and],
    the compiler reports "Expected ';' after expression." there, [compile]
    returns [NULL] and [interpret] returns [INTERPRET_COMPILE_ERROR]; no
    jump is compiled.  Where [and_] does run, after a number token ([true 0
    false;]), the offset that [emit_jump] returns is one past the operand
    of the jump: the operand that [OP_JUMP_IF_FALSE] reads stays [0xff00],
    and the low byte of the offset replaces the [OP_POP] behind it. *)
Theorem C1_and_rule :
  compiler.get_rule compiler.TOKEN_AND = compiler.mkRule None None compiler.PREC_NONE /\
  compiler.get_rule compiler.TOKEN_NUMBER
  = compiler.mkRule (Some compiler.fn_number) (Some compiler.fn_and_) compiler.PREC_AND /\
  (exists st,
     compiler.compile Examples.sz Examples.strtod 20 Examples.started Examples.and_source
     = Some (None, st) /\
     compiler.stderr st
     = [compiler.mkDiagnostic 1 " at 'and'" "Expected ';' after expression.";
        compiler.mkDiagnostic 1 " at ';'" "Expected expression."]) /\
  (exists vm,
     interpret Examples.sz Examples.native_call Examples.strtod 20 20 Examples.started
       Examples.and_source
     = Some (vm, INTERPRET_COMPILE_ERROR) /\ printed vm = []) /\
  Examples.compiled_code
    (compiler.compile Examples.sz Examples.strtod 20 Examples.started Examples.number_source)
  = Some [byte_of_opcode OP_TRUE; byte_of_opcode OP_JUMP_IF_FALSE; 255; 0; 1;
          byte_of_opcode OP_FALSE; byte_of_opcode OP_POP;
          byte_of_opcode OP_NIL; byte_of_opcode OP_RETURN].
Proof.
  split; [reflexivity|]. split; [reflexivity|]. split; [|split].
  - eexists. split; vm_compute; reflexivity.
  - eexists. split; vm_compute; reflexivity.
  - vm_compute. reflexivity.
Qed.

(** * More of table.c *)

Lemma holds_cons e es k v :
  holds (e :: es) k v <-> e = mkEntry (Some k) v \/ holds es k v.
Proof.
  split.
  - intros ([|i] & Hi); simpl in Hi; [left; congruence|right; by exists i].
  - intros [->|[i Hi]]; [by exists 0%nat|by exists (S i)].
Qed.

Lemma bound_cons e es k :
  bound (e :: es) k <-> key e = Some k \/ bound es k.
Proof.
  split.
  - intros ([|i] & e' & Hi & Hk); simpl in Hi.
    + injection Hi as <-. by left.
    + right. by exists i, e'.
  - intros [Hk|(i & e' & Hi & Hk)]; [by exists 0%nat, e|by exists (S i), e'].
Qed.

Section table_more.

Variable key_hash : ObjRef -> Z.

Lemma table_del_absent t k :
  table_wf key_hash t -> ~ bound (entries t) k -> table_del key_hash t k = Some (t, false).
Proof.
  intros Hwf Hnb. pose proof Hwf as [Hc Hn Hl Hr]. unfold table_del.
  destruct (Z.eqb_spec (count t) 0) as [E|E]; [done|].
  pose proof (used_nonneg (entries t)).
  assert (Hcap : 0 < capacity t) by lia.
  destruct (find_entry_spec key_hash (entries t) (capacity t) k)
    as (i & e & -> & Hi & He & _ & Hcase); [done|done|by apply (wf_used_lt key_hash)|done|].
  rewrite He. destruct Hcase as [Hk|[Hk _]].
  - exfalso. apply Hnb. exists (Z.to_nat i), e. done.
  - by rewrite Hk.
Qed.

Lemma table_set_capacity t k v t' b :
  table_wf key_hash t ->
  table_set key_hash t k v = Some (t', b) ->
  capacity t' = if over_load t then GROW_CAPACITY (capacity t) else capacity t.
Proof.
  intros Hwf Hs. unfold table_set in Hs.
  destruct (over_load t) eqn:Eo.
  - pose proof Hwf as [Hc Hn Hl Hr].
    pose proof (used_nonneg (entries t)). pose proof (live_le_used (entries t)).
    destruct (adjust_capacity_spec key_hash t (GROW_CAPACITY (capacity t)) Hwf)
      as (t1 & E & Hcap & _).
    { unfold GROW_CAPACITY. destruct (Z.ltb_spec (capacity t) 8); lia. }
    { unfold GROW_CAPACITY. destruct (Z.ltb_spec (capacity t) 8); lia. }
    rewrite E in Hs.
    destruct (find_entry _ _ _ _) as [i|]; [|done].
    destruct (entry_at _ _) as [e|]; [|done].
    injection Hs as <- <-. done.
  - destruct (find_entry _ _ _ _) as [i|]; [|done].
    destruct (entry_at _ _) as [e|]; [|done].
    injection Hs as <- <-. done.
Qed.

Lemma table_add_all_loop_spec from :
  forall to,
    table_wf key_hash to -> keys_distinct from ->
    exists to',
      table_add_all_loop key_hash from to = Some to' /\
      table_wf key_hash to' /\
      forall k v, binding to' k v <-> holds from k v \/ (~ bound from k /\ binding to k v).
Proof.
  induction from as [|e rest IH]; intros to Hwf Hd.
  - exists to. split; [done|]. split; [done|]. intros k v. split.
    + intros Hb. right. split; [|done]. intros (i & e & Hi & _). by destruct i.
    + intros [(i & Hi)|[_ Hb]]; [by destruct i|done].
  - destruct Hd as [Hhead Hd]. simpl. destruct e as [[k0|] v0]; simpl in *.
    + destruct (table_set_spec key_hash to k0 v0 Hwf) as (to1 & b & -> & Hwf1 & _ & Hb1).
      destruct (IH to1 Hwf1 Hd) as (to' & -> & Hwf' & Hb').
      exists to'. split; [done|]. split; [done|].
      intros k v. rewrite Hb', holds_cons, bound_cons, Hb1. simpl.
      assert (Hnb : ~ bound rest k0) by (by apply Hhead).
      split.
      * intros [Hr|[Hn [[-> ->]|[Hne Hb]]]].
        -- left. by right.
        -- left. by left.
        -- right. split; [|done]. intros [E|Hbr]; [congruence|done].
      * intros [[E|Hr]|[Hn Hb]].
        -- injection E as -> ->. right. split; [done|]. by left.
        -- by left.
        -- right. split; [tauto|]. right. split; [|done]. intros ->. tauto.
    + destruct (IH to Hwf Hd) as (to' & -> & Hwf' & Hb').
      exists to'. split; [done|]. split; [done|].
      intros k v. rewrite Hb', holds_cons, bound_cons. simpl.
      split.
      * intros [Hr|[Hn Hb]]; [left; by right|right; split; [|done]].
        intros [E|Hbr]; done.
      * intros [[E|Hr]|[Hn Hb]]; [done|by left|right; split; [tauto|done]].
Qed.

(** X1.  [table_get] of a well-formed table returns, and finds the value
    bound to the key exactly when there is one; a table that was never
    written to (no array, count 0) has no key. *)
Theorem table_get_lookup (t : Table) (k : ObjRef) :
  table_wf key_hash t ->
  (exists o, table_get key_hash t k = Some o /\ forall v, o = Some v <-> binding t k v) /\
  (~ bound (entries t) k -> table_get key_hash t k = Some None) /\
  table_get key_hash init_table k = Some None.
Proof.
  intros Hwf. split; [by apply table_get_spec|]. split; [by apply table_get_unbound|done].
Qed.

(** X2.  [table_set] on a well-formed table returns a well-formed table
    in which the key is bound to the value and every other key is looked
    up as before; the result is [true] exactly for a key that was not
    bound; the array is the old one, or a new one of [GROW_CAPACITY]
    entries when one more entry would pass three quarters of the
    capacity. *)
Theorem table_set_get (t : Table) (k : ObjRef) (v : Value) :
  table_wf key_hash t ->
  exists t' b,
    table_set key_hash t k v = Some (t', b) /\
    table_wf key_hash t' /\
    (b = true <-> ~ bound (entries t) k) /\
    table_get key_hash t' k = Some (Some v) /\
    (forall k', k' <> k -> table_get key_hash t' k' = table_get key_hash t k') /\
    capacity t' = (if 3 * capacity t <? 4 * (count t + 1)
                   then GROW_CAPACITY (capacity t) else capacity t).
Proof.
  intros Hwf.
  destruct (table_set_spec key_hash t k v Hwf) as (t' & b & Hs & Hwf' & Hb & Hbind).
  exists t', b. split; [done|]. split; [done|]. split; [done|]. split; [|split].
  - apply table_get_bound; [done|]. apply Hbind. by left.
  - intros k' Hne. apply table_get_ext; [done|done|]. intros v'. rewrite Hbind.
    split; [intros [[? _]|[_ ?]]; done|]. intros; by right.
  - by apply (table_set_capacity t k v t' b).
Qed.

(** X3.  [table_del] on a well-formed table: for a key that is not bound
    the result is [false] and the table is untouched; in either case the
    key is not found afterwards and every other key is looked up as
    before. *)
Theorem table_del_get (t : Table) (k : ObjRef) :
  table_wf key_hash t ->
  exists t' b,
    table_del key_hash t k = Some (t', b) /\
    table_wf key_hash t' /\
    (b = true <-> bound (entries t) k) /\
    (b = false -> t' = t) /\
    table_get key_hash t' k = Some None /\
    (forall k', k' <> k -> table_get key_hash t' k' = table_get key_hash t k').
Proof.
  intros Hwf.
  destruct (table_del_spec key_hash t k Hwf) as (t' & b & Hd & Hwf' & Hb & _ & _ & Hbind).
  exists t', b. split; [done|]. split; [done|]. split; [done|]. split; [|split].
  - intros ->. assert (Hnb : ~ bound (entries t) k).
    { intros Hbd. apply Hb in Hbd. done. }
    rewrite (table_del_absent t k Hwf Hnb) in Hd. by injection Hd as <-.
  - apply table_get_unbound; [done|]. intros Hbd. apply bound_holds in Hbd as [v Hv].
    apply Hbind in Hv as [Hne _]. done.
  - intros k' Hne. apply table_get_ext; [done|done|]. intros v'. rewrite Hbind. tauto.
Qed.


(** X5.  [find_entry] on an array that has an empty entry and keeps every
    key on its probe sequence returns within one lap: an index inside the
    array, which holds the key when the key is in the array, and else is a
    slot without key (a tombstone or an empty slot). *)
Theorem find_entry_result (es : list Entry) (cap : Z) (k : ObjRef) :
  0 < cap -> cap = Z.of_nat (length es) -> used es < cap ->
  all_reachable key_hash es cap ->
  exists i e,
    find_entry key_hash es cap k = Some i /\
    0 <= i < cap /\
    entry_at es i = Some e /\
    (bound es k -> key e = Some k) /\
    (~ bound es k -> key e = None).
Proof.
  intros H1 H2 H3 H4.
  destruct (find_entry_spec key_hash es cap k H1 H2 H3 H4) as (i & e & Hf & Hi & He & _ & Hc).
  exists i, e. split; [done|]. split; [done|]. split; [done|]. split.
  - intros Hb. destruct Hc as [Hk|[_ Hnb]]; done.
  - intros Hnb. destruct Hc as [Hk|[Hk _]]; [|done].
    exfalso. apply Hnb. exists (Z.to_nat i), e. done.
Qed.

(** X6.  [table_add_all] of well-formed tables returns a well-formed
    table that binds every key of [from] to its value in [from], and
    every other key as [to] did. *)
Theorem table_add_all_bindings (from to : Table) :
  table_wf key_hash from -> table_wf key_hash to ->
  exists to',
    table_add_all key_hash from to = Some to' /\
    table_wf key_hash to' /\
    (forall k v, binding from k v -> table_get key_hash to' k = Some (Some v)) /\
    (forall k, ~ bound (entries from) k ->
       table_get key_hash to' k = table_get key_hash to k).
Proof.
  intros Hf Hto. pose proof Hf as [Hc Hn Hl Hr]. unfold table_add_all.
  rewrite firstn_all2 by lia.
  assert (Hd : keys_distinct (entries from)).
  { destruct (entries from) as [|e es] eqn:Ees; [done|].
    apply (reach_keys_distinct key_hash _ (capacity from)); [|done].
    rewrite Hc. simpl. lia. }
  destruct (table_add_all_loop_spec (entries from) to Hto Hd) as (to' & -> & Hwf' & Hb).
  exists to'. split; [done|]. split; [done|]. split.
  - intros k v Hbk. apply table_get_bound; [done|]. apply Hb. by left.
  - intros k Hnb. apply table_get_ext; [done|done|]. intros v. rewrite Hb. split.
    + intros [Hh|[_ ?]]; [|done]. exfalso. apply Hnb, bound_holds. eauto.
    + intros Hbt. by right.
Qed.

End table_more.

(** X1 on the table with the keys 1 and 9: 9 is found behind 1, and 17,
    which probes the same slots, is not found. *)
Lemma table_get_lookup_witness :
  table_get Examples.key_hash Examples.colliding 9%nat = Some (Some NIL_VALUE) /\
  table_get Examples.key_hash Examples.colliding 17%nat = Some None.
Proof.
  destruct (table_get_lookup Examples.key_hash Examples.colliding 9%nat colliding_wf)
    as [(o & Hg & Ho) _].
  destruct (table_get_lookup Examples.key_hash Examples.colliding 17%nat colliding_wf)
    as (_ & Hnone & _).
  split.
  - rewrite Hg. f_equal. apply Ho. exists 2%nat. vm_compute. reflexivity.
  - apply Hnone. intros Hb. apply bound_holds in Hb as [v Hv].
    pose proof (table_get_bound _ _ _ _ colliding_wf Hv) as Hg'.
    vm_compute in Hg'. discriminate Hg'.
Defined.

(** X2 on the same table: 17 is a new key, found afterwards with 9 still
    in place; the array of 8 is kept. *)
Lemma table_set_get_witness :
  exists t',
    table_set Examples.key_hash Examples.colliding 17%nat (BOOL_VALUE true) = Some (t', true) /\
    table_get Examples.key_hash t' 17%nat = Some (Some (BOOL_VALUE true)) /\
    table_get Examples.key_hash t' 9%nat = Some (Some NIL_VALUE) /\
    capacity t' = 8.
Proof.
  destruct (table_set_get Examples.key_hash Examples.colliding 17%nat (BOOL_VALUE true)
              colliding_wf) as (t' & b & Hs & _ & _ & Hg & Hother & Hcap).
  assert (Hb : table_set Examples.key_hash Examples.colliding 17%nat (BOOL_VALUE true)
               = Some (t', true)).
  { rewrite Hs. vm_compute in Hs. injection Hs as <- <-. reflexivity. }
  exists t'. split; [exact Hb|]. split; [exact Hg|]. split.
  - rewrite (Hother 9%nat); [vm_compute; reflexivity|discriminate].
  - rewrite Hcap. vm_compute. reflexivity.
Defined.

(** X3 on the same table: deleting 17, which is not there, changes
    nothing. *)
Lemma table_del_get_witness :
  table_del Examples.key_hash Examples.colliding 17%nat = Some (Examples.colliding, false).
Proof.
  destruct (table_del_get Examples.key_hash Examples.colliding 17%nat colliding_wf)
    as (t' & b & Hd & _ & _ & Hsame & _).
  assert (Hb : b = false).
  { vm_compute in Hd. injection Hd as _ <-. reflexivity. }
  rewrite Hd. rewrite (Hsame Hb), Hb. reflexivity.
Defined.


(** X5 on the entries of the same table: the search for 17, which is not
    there, ends inside the array on a slot without key. *)
Lemma find_entry_result_witness :
  exists i e,
    find_entry Examples.key_hash (entries Examples.colliding) 8 17%nat = Some i /\
    0 <= i < 8 /\
    entry_at (entries Examples.colliding) i = Some e /\
    key e = None.
Proof.
  assert (H1 : 0 < 8) by reflexivity.
  assert (H2 : 8 = Z.of_nat (length (entries Examples.colliding)))
    by (vm_compute; reflexivity).
  assert (H3 : used (entries Examples.colliding) < 8) by (vm_compute; reflexivity).
  assert (H4 : all_reachable Examples.key_hash (entries Examples.colliding) 8).
  { pose proof (wf_reach _ _ colliding_wf) as Hr.
    assert (E : capacity Examples.colliding = 8) by (vm_compute; reflexivity).
    rewrite E in Hr. exact Hr. }
  assert (Hnb : ~ bound (entries Examples.colliding) 17%nat).
  { intros Hb. apply bound_holds in Hb as [v Hv].
    pose proof (table_get_bound _ _ _ _ colliding_wf Hv) as Hg'.
    vm_compute in Hg'. discriminate Hg'. }
  destruct (find_entry_result Examples.key_hash (entries Examples.colliding) 8 17%nat
              H1 H2 H3 H4) as (i & e & Hf & Hi & He & _ & Hk).
  exists i, e. split; [exact Hf|]. split; [exact Hi|]. split; [exact He|exact (Hk Hnb)].
Defined.

(** X6 from the table with the keys 1 and 9 into an empty table: the keys
    are found in the result. *)
Lemma table_add_all_bindings_witness :
  exists to',
    table_add_all Examples.key_hash Examples.colliding init_table = Some to' /\
    table_get Examples.key_hash to' 9%nat = Some (Some NIL_VALUE) /\
    table_get Examples.key_hash to' 1%nat = Some (Some (BOOL_VALUE false)).
Proof.
  destruct (table_add_all_bindings Examples.key_hash Examples.colliding init_table
              colliding_wf (table_wf_init Examples.key_hash))
    as (to' & Ha & _ & Hfrom & _).
  exists to'. split; [exact Ha|]. split.
  - apply Hfrom. exists 2%nat. vm_compute. reflexivity.
  - apply Hfrom. exists 1%nat. vm_compute. reflexivity.
Defined.

(** * More of the string pool and of the collector *)

Lemma all_white_objects vm :
  heap_wf vm ->
  Forall (fun r => marked_in (heap vm) r = false) (objects vm) ->
  gray_stack vm = [] ->
  all_white vm.
Proof.
  intros [_ Hdom] Hall Hg. split; [|done]. intros r.
  destruct (heap vm !! r) as [o|] eqn:Ho.
  - rewrite Forall_forall in Hall. apply Hall, Hdom. by eexists.
  - unfold marked_in. by rewrite Ho.
Qed.

(** X7.  [table_find_string] on a well-formed pool returns, and its result
    is the key of the pool whose characters are the ones asked for, or
    [NULL] when the pool has no such key. *)
Theorem table_find_string_lookup (vm : VM) (chars : String.string) :
  strings_inv vm ->
  exists o,
    table_find_string (heap vm) (strings vm) chars (strlen chars) (hash_string chars)
    = Some o /\
    (forall r, o = Some r <->
       bound (entries (strings vm)) r /\
       exists s, AS_STRING (heap vm) r = Some s /\ str_chars s = chars) /\
    (o = None <-> forall r s, bound (entries (strings vm)) r ->
                    AS_STRING (heap vm) r = Some s -> str_chars s <> chars).
Proof.
  intros Hinv. destruct (table_find_string_spec vm chars Hinv) as (o & Hf & Ho).
  exists o. split; [done|]. split; [done|]. split.
  - intros -> r s Hb Hs Hc. assert (None = Some r) as E; [|done].
    apply Ho. split; [done|]. eauto.
  - intros Hnone. destruct o as [r|]; [|done].
    destruct (proj1 (Ho r) eq_refl) as [Hb (s & Hs & Hc)]. by destruct (Hnone r s Hb Hs).
Qed.

(** X7 on the VM that [init_vm] leaves: the characters of
    [vm.init_string] are found, on the object 0. *)
Lemma table_find_string_lookup_witness :
  table_find_string (heap Examples.started) (strings Examples.started) "init"%string
    (strlen "init"%string) (hash_string "init"%string) = Some (Some 0%nat).
Proof.
  destruct (table_find_string_lookup Examples.started "init"%string
              (proj1 started_gc_inv)) as (o & Hf & Ho & _).
  rewrite Hf. f_equal. apply Ho. exact started_init_interned.
Defined.

(** X8.  [table_remove_white] on a well-formed table whose keys are
    objects of the heap returns a well-formed table with the bindings of
    the marked keys and no other; count and capacity are as before (the
    entries removed are tombstones). *)
Theorem table_remove_white_prunes (h : gmap nat Object) (t : Table) :
  table_wf (string_hash h) t ->
  (forall k, bound (entries t) k -> is_Some (h !! k)) ->
  exists t',
    table_remove_white h t = Some t' /\
    table_wf (string_hash h) t' /\
    count t' = count t /\ capacity t' = capacity t /\
    (forall k v, binding t' k v <-> binding t k v /\ marked_in h k = true) /\
    (forall k, marked_in h k = false -> table_get (string_hash h) t' k = Some None).
Proof.
  intros Hwf Hkeys.
  destruct (table_remove_white_spec h t Hwf Hkeys)
    as (t' & Hr & Hwf' & Hc & Hcap & _ & Hb).
  exists t'. split; [done|]. split; [done|]. split; [done|]. split; [done|].
  split; [done|]. intros k Hm. apply table_get_unbound; [done|].
  intros Hbd. apply bound_holds in Hbd as [v Hv]. apply Hb in Hv as [_ Hm']. congruence.
Qed.

(** X8 on the pool of the VM that [init_vm] leaves, no object being
    marked: the three entries stay as tombstones and [init] is not found. *)
Lemma table_remove_white_prunes_witness :
  exists t',
    table_remove_white (heap Examples.started) (strings Examples.started) = Some t' /\
    count t' = count (strings Examples.started) /\
    table_get (string_hash (heap Examples.started)) t' 0%nat = Some None.
Proof.
  pose proof (proj1 started_gc_inv) as Hinv.
  destruct (table_remove_white_prunes (heap Examples.started) (strings Examples.started)
              (pool_wf _ Hinv)) as (t' & Hr & _ & Hc & _ & _ & Hg).
  { intros k Hk. destruct (pool_keys _ Hinv k Hk) as (s & Hs & _).
    apply AS_STRING_lookup in Hs as [m Hs]. rewrite Hs. eexists. reflexivity. }
  exists t'. split; [exact Hr|]. split; [exact Hc|]. apply Hg. vm_compute. reflexivity.
Defined.

(** X9.  The marking phase of a collection ([mark_roots], then
    [trace_references]) returns on every state: tracing ends within as many
    turns as the heap has objects and the gray stack entries.  It changes
    nothing but mark bits, which it sets, and the gray stack, which it
    leaves empty; every root is marked. *)
Theorem mark_phase_terminates (vm : VM) (current : list (option ObjRef)) :
  exists vm',
    mark_phase vm current = Some vm' /\
    marks_only vm vm' /\
    gray_stack vm' = [] /\
    (forall r, r ∈ roots vm current -> marked_in (heap vm') r = true \/ heap vm !! r = None).
Proof.
  destruct (mark_phase_total vm current) as (vm' & Hmp & Hmo & Hg).
  exists vm'. split; [done|]. split; [done|]. split; [done|].
  intros r Hr. destruct (mark_roots_grows vm current) as [Gr Mr].
  unfold mark_phase in Hmp.
  destruct (trace_references_total
              (size (heap (mark_roots vm current))
               + length (gray_stack (mark_roots vm current)))
              (mark_roots vm current)) as (vmt' & Htr & Hmo2 & _).
  { unfold gray_potential. pose proof (unmarked_count_le (heap (mark_roots vm current))). lia. }
  rewrite Hmp in Htr. injection Htr as <-.
  destruct (marked_or_absent_mono _ _ r Hmo2 (Mr r Hr)) as [Hm|Ha]; [by left|right].
  pose proof (mo_payload _ _ Hmo r) as E. rewrite Ha in E.
  destruct (heap vm !! r); done.
Qed.

Section collector_more.

Variable sz : Sizeof.

(** X10.  A collection on a well-formed heap with no mark set keeps
    every object that the roots reach (through the fields that
    [blacken_object] follows) as it is, linked in [vm.objects];
    afterwards again no mark is set and the gray stack is empty. *)
Theorem collect_garbage_keeps_reachable (vm : VM) (current : list (option ObjRef)) :
  gc_inv vm -> all_white vm ->
  exists vm',
    collect_garbage sz vm current = Some vm' /\
    (forall r o, reachable_from (heap vm) (roots vm current) r ->
       heap vm !! r = Some o -> heap vm' !! r = Some o /\ r ∈ objects vm') /\
    all_white vm'.
Proof.
  intros Hinv Hw. pose proof Hinv as [Hpool Hwf].
  destruct (collect_garbage_spec sz vm current Hwf (pool_wf _ Hpool))
    as (vmt & vm' & Hmp & Hmo & Hc & Hobj & Hh & Hnone & _).
  { intros k Hk. destruct (pool_keys _ Hpool k Hk) as (s & Hs & _).
    apply AS_STRING_lookup in Hs as [m Hs]. by eexists. }
  exists vm'. split; [done|]. split.
  - intros r o Hreach Ho.
    destruct (payload_same (heap vm) (heap vmt) r o (mo_payload _ _ Hmo r) Ho)
      as (o' & Ho' & Hp).
    destruct (mark_phase_reaches vm current vmt r Hw Hmp Hreach) as [Hm|Ha]; [|congruence].
    pose proof Hm as Hm'. unfold marked_in in Hm. rewrite Ho' in Hm. split.
    + rewrite (Hh r o' Ho'), Hm, Hp. f_equal.
      destruct Hw as [Hw _]. specialize (Hw r). unfold marked_in in Hw.
      rewrite Ho in Hw. destruct o as [m p]. simpl in *. by subst m.
    + rewrite Hobj. apply list_elem_of_filter. split; [done|].
      destruct Hwf as [_ Hdom]. apply Hdom. by eexists.
  - split; [|by apply (collect_garbage_gray sz vm current)].
    intros r. unfold marked_in. destruct (heap vmt !! r) as [o'|] eqn:Ho'.
    + rewrite (Hh r o' Ho'). by destruct (is_marked o').
    + by rewrite (Hnone r Ho').
Qed.

End collector_more.

Lemma with_garbage_white : all_white Examples.with_garbage.
Proof.
  apply all_white_objects; [exact (proj2 with_garbage_gc_inv)| |vm_compute; reflexivity].
  vm_compute. repeat constructor.
Qed.

(** X10 on the VM with a string that nothing refers to: the native
    function, which the globals table refers to, is kept. *)
Lemma collect_garbage_keeps_reachable_witness :
  all_white Examples.with_garbage /\
  exists vm',
    collect_garbage Examples.sz Examples.with_garbage [] = Some vm' /\
    heap vm' !! 2%nat = Some (mkObject false (OBJECT_NATIVE (mkNative clock_native))) /\
    2%nat ∈ objects vm'.
Proof.
  split; [exact with_garbage_white|].
  destruct (collect_garbage_keeps_reachable Examples.sz Examples.with_garbage []
              with_garbage_gc_inv with_garbage_white) as (vm' & Hc & Hkeep & _).
  exists vm'. split; [exact Hc|].
  apply Hkeep.
  - apply reachable_root. vm_compute. right. left.
  - vm_compute. reflexivity.
Defined.
